(** * Sudoxu: the hexadecimal sudoku engine of utils/gameLogic.js

    A shallow embedding of the game logic (validator, solved-board builder,
    solution counter, puzzle carver, hint module) together with the
    properties its specification states about it. *)

From Stdlib Require Import String Ascii ZArith QArith Qround Lia.
From stdpp Require Import base tactics option list.

Open Scope string_scope.
Open Scope list_scope.
Open Scope nat_scope.

(** ** Data model *)

(** A cell is [null] or a string; the board is an array of row arrays. *)
Abbreviation Cell := (option string).
Abbreviation Board := (list (list Cell)).
Abbreviation Coord := (nat * nat)%type.

Definition HEX_VALUES : list string :=
  ["0"; "1"; "2"; "3"; "4"; "5"; "6"; "7"; "8"; "9"; "A"; "B"; "C"; "D"; "E"; "F"].

(** [board[row][col]].  Reads outside the array are modelled as [null]; the
    loops of the program never leave the 16x16 range. *)
Definition cell (board : Board) (row col : nat) : Cell :=
  match board !! row with
  | Some r => match r !! col with Some x => x | None => None end
  | None => None
  end.

(** [board[row][col] = v]. *)
Definition setCell (board : Board) (row col : nat) (v : Cell) : Board :=
  alter (fun r => <[col := v]> r) row board.

(** JavaScript truthiness of a cell: [null] and the empty string are falsy. *)
Definition truthy (x : Cell) : bool :=
  match x with
  | Some s => negb (String.eqb s "")
  | None => false
  end.

(** [x === y] on cells. *)
Definition strictEq (x y : Cell) : bool :=
  match x, y with
  | Some s, Some t => String.eqb s t
  | None, None => true
  | _, _ => false
  end.

(** [board[row][col] === value] for a string [value]. *)
Definition holds (board : Board) (row col : nat) (value : string) : bool :=
  strictEq (cell board row col) (Some value).

(** [Array(16).fill(null).map(() => Array(16).fill(null))] *)
Definition emptyBoard : Board := replicate 16 (replicate 16 None).

(** A 16x16 array of arrays. *)
Definition wf_board (board : Board) : Prop :=
  length board = 16 /\ Forall (fun r => length r = 16) board.

(** Every cell is [null] or one of the sixteen symbols. *)
Definition hex_board (board : Board) : Prop :=
  forall r c s, cell board r c = Some s -> In s HEX_VALUES.

(** Two coordinates that share a row, a column or an aligned 4x4 block. *)
Definition sameUnit (p q : Coord) : Prop :=
  p.1 = q.1 \/ p.2 = q.2 \/ (p.1 / 4 = q.1 / 4 /\ p.2 / 4 = q.2 / 4).

Definition inGrid (p : Coord) : Prop := p.1 < 16 /\ p.2 < 16.

(** ** Constraint validator *)

Definition isValidMove (board : Board) (row col : nat) (value : string) : bool :=
  (* Check row *)
  if existsb (fun c => negb (c =? col) && holds board row c value) (seq 0 16)
  then false
  (* Check column *)
  else if existsb (fun r => negb (r =? row) && holds board r col value) (seq 0 16)
  then false
  else
    (* Check 4x4 sub-grid *)
    let subGridRow := row / 4 * 4 in
    let subGridCol := col / 4 * 4 in
    if existsb (fun r =>
         existsb (fun c => (negb (r =? row) || negb (c =? col)) && holds board r c value)
                 (seq subGridCol 4))
       (seq subGridRow 4)
    then false
    else true.

(** [self.findIndex(p)], with JavaScript's -1 for "not found". *)
Fixpoint findIndex {A} (p : A -> bool) (l : list A) : Z :=
  match l with
  | [] => (-1)%Z
  | x :: l' =>
      if p x then 0%Z
      else let k := findIndex p l' in
           if (k <? 0)%Z then (-1)%Z else (k + 1)%Z
  end.

(** [l.filter((x, index) => p x index)], the indices starting at [i]. *)
Fixpoint filterIndexed {A} (p : A -> nat -> bool) (i : nat) (l : list A) : list A :=
  match l with
  | [] => []
  | x :: l' => if p x i then x :: filterIndexed p (S i) l' else filterIndexed p (S i) l'
  end.

Definition sameCoord (a b : Coord) : bool := (a.1 =? b.1) && (a.2 =? b.2).

(** The "remove duplicates" filter at the end of [getConflicts]. *)
Definition removeDuplicates (conflicts : list Coord) : list Coord :=
  filterIndexed
    (fun conflict index =>
       (Z.of_nat index =? findIndex (fun c => sameCoord c conflict) conflicts)%Z)
    0 conflicts.

Definition getConflicts (board : Board) (row col : nat) : list Coord :=
  match cell board row col with
  | None => []
  | Some value =>
      if negb (truthy (Some value)) then []
      else
        let rowConflicts :=
          flat_map (fun c =>
            if negb (c =? col) && holds board row c value
            then [(row, c); (row, col)] else []) (seq 0 16) in
        let colConflicts :=
          flat_map (fun r =>
            if negb (r =? row) && holds board r col value
            then [(r, col); (row, col)] else []) (seq 0 16) in
        let subGridRow := row / 4 * 4 in
        let subGridCol := col / 4 * 4 in
        let gridConflicts :=
          flat_map (fun r =>
            flat_map (fun c =>
              if (negb (r =? row) || negb (c =? col)) && holds board r c value
              then [(r, c); (row, col)] else []) (seq subGridCol 4))
            (seq subGridRow 4) in
        removeDuplicates (rowConflicts ++ colConflicts ++ gridConflicts)
  end.

Definition isSolved (board : Board) : bool :=
  (* Check if all cells are filled *)
  if existsb (fun row => existsb (fun col => negb (truthy (cell board row col))) (seq 0 16))
             (seq 0 16)
  then false
  (* Check if no conflicts exist *)
  else if existsb (fun row =>
            existsb (fun col => (0 <? length (getConflicts board row col))) (seq 0 16))
          (seq 0 16)
  then false
  else true.

(** Row-major enumeration of the 256 coordinates: the order of the nested
    [for (row) for (col)] scans. *)
Definition allCoords : list Coord :=
  flat_map (fun row => map (fun col => (row, col)) (seq 0 16)) (seq 0 16).

Definition isNull (x : Cell) : bool :=
  match x with None => true | Some _ => false end.

(** First cell with [board[row][col] === null], in scan order. *)
Definition firstNull (board : Board) : option Coord :=
  List.find (fun p => isNull (cell board p.1 p.2)) allCoords.

(** First cell with [!board[row][col]], in scan order. *)
Definition firstFalsy (board : Board) : option Coord :=
  List.find (fun p => negb (truthy (cell board p.1 p.2))) allCoords.

(** The recursive searches fill one more cell at each level, so their depth
    never exceeds the number of cells; the fuel below is one more. *)
Definition searchFuel : nat := S (16 * 16).

(** ** Solved-board builder: fallback pattern and repair pass *)

(** One visit of the repair scan at [(row, col)]; the boolean is
    [hasConflict]. *)
Definition fixCell (st : Board * bool) (p : Coord) : Board * bool :=
  let '(board, hasConflict) := st in
  let '(row, col) := p in
  let conflicts := getConflicts board row col in
  if 0 <? length conflicts then
    let originalValue := cell board row col in
    let board := setCell board row col None in
    let board :=
      match List.find (fun value => isValidMove board row col value) HEX_VALUES with
      | Some value => setCell board row col (Some value)
      | None => board
      end in
    let board :=
      if isNull (cell board row col) then setCell board row col originalValue else board in
    (board, true)
  else (board, hasConflict).

(** The [while (attempts < maxAttempts)] loop, by the number of passes left. *)
Fixpoint fixBoardConflictsLoop (passesLeft : nat) (board : Board) : Board :=
  match passesLeft with
  | 0 => board
  | S n =>
      let '(board, hasConflict) := foldl fixCell (board, false) allCoords in
      if negb hasConflict then board else fixBoardConflictsLoop n board
  end.

Definition fixBoardConflicts (board : Board) : Board :=
  let maxAttempts := 1000 in
  fixBoardConflictsLoop maxAttempts board.

(** The board of [createValidPattern] before the repair pass. *)
Definition patternBoard : Board :=
  let board := emptyBoard in
  let board := foldl (fun b col => setCell b 0 col (HEX_VALUES !! col)) board (seq 0 16) in
  foldl (fun b row =>
    foldl (fun b col =>
      let subGridRow := row / 4 in
      let valueIndex :=
        if subGridRow =? 0 then (col + row * 4) mod 16
        else if subGridRow =? 1 then (col + row * 4 + 4) mod 16
        else if subGridRow =? 2 then (col + row * 4 + 8) mod 16
        else (col + row * 4 + 12) mod 16 in
      setCell b row col (HEX_VALUES !! valueIndex)) b (seq 0 16))
    board (seq 1 15).

Definition createValidPattern : Board := fixBoardConflicts patternBoard.

(** ** Bounded solution counter *)

Abbreviation BruteState := (Board * nat)%type.

(** The [for (const value of HEX_VALUES)] loop of [solveBrute] at the cell
    [(row, col)]; [rec] is the recursive call. *)
Fixpoint tryBrute (rec : BruteState -> option (bool * BruteState))
    (maxSolutions row col : nat) (values : list string) (st : BruteState)
    : option (bool * BruteState) :=
  match values with
  | [] => Some (false, st)
  | value :: rest =>
      let '(workingBoard, solutionCount) := st in
      if isValidMove workingBoard row col value then
        match rec (setCell workingBoard row col (Some value), solutionCount) with
        | None => None
        | Some (true, (workingBoard, solutionCount)) =>
            let solutionCount := S solutionCount in
            if maxSolutions <=? solutionCount
            then Some (true, (workingBoard, solutionCount))
            else tryBrute rec maxSolutions row col rest
                   (setCell workingBoard row col None, solutionCount)
        | Some (false, (workingBoard, solutionCount)) =>
            tryBrute rec maxSolutions row col rest
              (setCell workingBoard row col None, solutionCount)
        end
      else tryBrute rec maxSolutions row col rest st
  end.

(** The closure [solveBrute] of [countSolutions], acting on the captured
    [workingBoard] and [solutionCount]. *)
Fixpoint solveBrute (fuel : nat) (maxSolutions : nat) (st : BruteState)
    : option (bool * BruteState) :=
  match fuel with
  | 0 => None
  | S fuel =>
      match firstFalsy st.1 with
      | Some (row, col) =>
          tryBrute (solveBrute fuel maxSolutions) maxSolutions row col HEX_VALUES st
      | None => Some (true, st)
      end
  end.

Definition countSolutions (board : Board) (maxSolutions : nat) : option nat :=
  '(_, (_, solutionCount)) ← solveBrute searchFuel maxSolutions (board, 0);
  Some solutionCount.

Definition hasUniqueSolution (board : Board) : option bool :=
  n ← countSolutions board 2; Some (n =? 1).

(** The closure [solveBrute(depth)] of [countSolutionsLimited]. *)
Fixpoint solveBruteLimited (fuel : nat) (maxSolutions maxDepth depth : nat)
    (st : BruteState) : option (bool * BruteState) :=
  match fuel with
  | 0 => None
  | S fuel =>
      if maxDepth <=? depth then Some (true, st)
      else
        match firstFalsy st.1 with
        | Some (row, col) =>
            tryBrute (solveBruteLimited fuel maxSolutions maxDepth (S depth))
              maxSolutions row col HEX_VALUES st
        | None => Some (true, st)
        end
  end.

Definition countSolutionsLimited (board : Board) (maxSolutions maxDepth currentDepth : nat)
    : option nat :=
  if maxDepth <=? currentDepth then Some 1
  else
    '(_, (_, solutionCount)) ←
      solveBruteLimited searchFuel maxSolutions maxDepth currentDepth (board, 0);
    Some solutionCount.

Definition hasLimitedUniqueSolution (puzzle : Board) : option bool :=
  solutionCount ← countSolutionsLimited puzzle 2 50 0; Some (solutionCount =? 1).

(** ** Randomised parts: board builder and puzzle carver *)

Record PriorityCell := { prow : nat; pcol : nat; priority : Q }.

(** The object literal [{ puzzle, solution }] returned by [generatePuzzle]. *)
Record GeneratedPuzzle := { puzzle : Board; solution : Board }.

(** [[l[i], l[j]] = [l[j], l[i]]] *)
Definition swap {A} (l : list A) (i j : nat) : list A :=
  match l !! i, l !! j with
  | Some x, Some y => <[j := x]> (<[i := y]> l)
  | _, _ => l
  end.

(** [cellPriorities.sort((a, b) => b.priority - a.priority)]: a stable sort,
    highest priority first. *)
Fixpoint insertByPriority (x : PriorityCell) (l : list PriorityCell) : list PriorityCell :=
  match l with
  | [] => [x]
  | y :: l' =>
      if Qle_bool (priority y - priority x)%Q 0%Q then x :: y :: l'
      else y :: insertByPriority x l'
  end.

Definition sortByPriority (l : list PriorityCell) : list PriorityCell :=
  foldr insertByPriority [] l.

(** [Math.min] on the two rationals. *)
Definition mathMin (a b : Q) : Q := if Qle_bool a b then a else b.

Definition natQ (n : nat) : Q := inject_Z (Z.of_nat n).

Definition symmetricPairs : list (Coord * Coord) :=
  flat_map (fun row => map (fun col => ((row, col), (15 - row, 15 - col))) (seq 0 8)) (seq 0 8).

Section Randomness.

(** [random k] is the value of the [k]-th call of [Math.random()];
    every function below threads the number [k] of calls made so far. *)
Variable random : nat -> Q.

(** [shuffleSort k l] is the engine's [l.sort(() => Math.random() - 0.5)]
    started after [k] calls: the rearranged array and the number of calls
    made when it returns.  The sorting algorithm is the engine's own. *)
Variable shuffleSort : nat -> list string -> list string * nat.

(** The [for (const value of shuffledValues)] loop of [solveBoardRecursive]
    at the cell [(row, col)]; [rec] is the recursive call. *)
Fixpoint tryValues (rec : Board -> nat -> option (bool * Board * nat))
    (row col : nat) (values : list string) (board : Board) (k : nat)
    : option (bool * Board * nat) :=
  match values with
  | [] => Some (false, board, k)
  | value :: rest =>
      if isValidMove board row col value then
        match rec (setCell board row col (Some value)) k with
        | None => None
        | Some (true, board, k) => Some (true, board, k)
        | Some (false, board, k) =>
            tryValues rec row col rest (setCell board row col None) k
        end
      else tryValues rec row col rest board k
  end.

Fixpoint solveBoardRecursive (fuel : nat) (board : Board) (k : nat)
    : option (bool * Board * nat) :=
  match fuel with
  | 0 => None
  | S fuel =>
      match firstNull board with
      | Some (row, col) =>
          let '(shuffledValues, k) := shuffleSort k HEX_VALUES in
          tryValues (solveBoardRecursive fuel) row col shuffledValues board k
      | None => Some (true, board, k)
      end
  end.

Definition generateSolvedBoard (k : nat) : option (Board * nat) :=
  '(solved, board, k) ← solveBoardRecursive searchFuel emptyBoard k;
  if solved : bool then Some (board, k) else Some (createValidPattern, k).

(** [Math.floor(Math.random() * (i + 1))] *)
Definition randomIndex (i k : nat) : nat :=
  Z.to_nat (Qfloor (random k * natQ (i + 1))%Q).

(** The Fisher-Yates loop [for (let i = ...; i > 0; i--)], from index [i]
    down to 1. *)
Fixpoint shuffleFrom {A} (i : nat) (l : list A) (k : nat) : list A * nat :=
  match i with
  | 0 => (l, k)
  | S i' =>
      let j := randomIndex i k in
      shuffleFrom i' (swap l i j) (S k)
  end.

Definition shuffle {A} (l : list A) (k : nat) : list A * nat :=
  shuffleFrom (length l - 1) l k.

(** Phase 1 *)
Definition performSymmetricRemoval (puzzle : Board) (targetEmptyCells : nat) (k : nat)
    : Board * nat * nat :=
  let maxSymmetricRemoval := mathMin (natQ targetEmptyCells * (6 # 10))%Q 100%Q in
  let '(pairs, k) := shuffle symmetricPairs k in
  let '(puzzle, removedCells, _) :=
    foldl (fun (st : Board * nat * bool) (pair : Coord * Coord) =>
      let '(puzzle, removedCells, stop) := st in
      if stop then st
      else if Qle_bool maxSymmetricRemoval (natQ removedCells) then (puzzle, removedCells, true)
      else
        let '((r1, c1), (r2, c2)) := pair in
        if (r1 =? r2) && (c1 =? c2) then st
        else
          let puzzle := setCell puzzle r1 c1 None in
          let puzzle := setCell puzzle r2 c2 None in
          (puzzle, removedCells + 2, false))
      (puzzle, 0, false) pairs in
  (puzzle, removedCells, k).

Definition calculateCellRemovalPriority (puzzle : Board) (row col : nat) (k : nat)
    : Q * nat :=
  let value := cell puzzle row col in
  let same (r c : nat) : bool := strictEq (cell puzzle r c) value in
  let valueCount := 0 in
  let valueCount := valueCount + length (List.filter (fun c => same row c) (seq 0 16)) in
  let valueCount := valueCount + length (List.filter (fun r => same r col) (seq 0 16)) in
  let subGridRow := row / 4 * 4 in
  let subGridCol := col / 4 * 4 in
  let valueCount :=
    valueCount +
    length (List.filter (fun p : Coord => same p.1 p.2)
              (flat_map (fun r => map (fun c => (r, c)) (seq subGridCol 4))
                 (seq subGridRow 4))) in
  let priority := (50 - natQ valueCount)%Q in
  let priority := (priority + random k * 10)%Q in
  (priority, S k).

(** The loop state of phase 2. *)
Record GuidedState := {
  g_puzzle : Board;
  g_removedCells : nat;
  g_attempts : nat;
  g_stopped : bool
}.

(** The [break] test at the head of the removal loop. *)
Definition guidedBreak (remainingToRemove maxAttempts : nat) (st : GuidedState) : bool :=
  (remainingToRemove <=? g_removedCells st) || (maxAttempts <=? g_attempts st).

Definition shouldValidate (difficulty : string) (attempts : nat) : bool :=
  let shouldValidate := true in
  let shouldValidate :=
    if String.eqb difficulty "easy" && negb (attempts mod 3 =? 0)
    then false else shouldValidate in
  let shouldValidate :=
    if String.eqb difficulty "medium" && negb (attempts mod 2 =? 0)
    then false else shouldValidate in
  shouldValidate.

(** One iteration of the removal loop of phase 2, for a cell of the
    priority list. *)
Definition guidedStep (difficulty : string) (remainingToRemove maxAttempts : nat)
    (st : GuidedState) (cell_ : PriorityCell) : option GuidedState :=
  if g_stopped st then Some st
  else if guidedBreak remainingToRemove maxAttempts st then
    Some {| g_puzzle := g_puzzle st; g_removedCells := g_removedCells st;
            g_attempts := g_attempts st; g_stopped := true |}
  else
    let row := prow cell_ in
    let col := pcol cell_ in
    let originalValue := cell (g_puzzle st) row col in
    let attempts := S (g_attempts st) in
    let puzzle := setCell (g_puzzle st) row col None in
    if shouldValidate difficulty attempts then
      unique ← hasLimitedUniqueSolution puzzle;
      if negb unique then
        Some {| g_puzzle := setCell puzzle row col originalValue;
                g_removedCells := g_removedCells st;
                g_attempts := attempts; g_stopped := false |}
      else
        Some {| g_puzzle := puzzle; g_removedCells := S (g_removedCells st);
                g_attempts := attempts; g_stopped := false |}
    else
      Some {| g_puzzle := puzzle; g_removedCells := S (g_removedCells st);
              g_attempts := attempts; g_stopped := false |}.

Fixpoint guidedLoop (difficulty : string) (remainingToRemove maxAttempts : nat)
    (cells : list PriorityCell) (st : GuidedState) : option GuidedState :=
  match cells with
  | [] => Some st
  | cell_ :: rest =>
      st ← guidedStep difficulty remainingToRemove maxAttempts st cell_;
      guidedLoop difficulty remainingToRemove maxAttempts rest st
  end.

(** Phase 2 *)
Definition performGuidedRemoval (puzzle : Board) (remainingToRemove : nat)
    (difficulty : string) (k : nat) : option (Board * nat * nat) :=
  let maxAttempts :=
    if String.eqb difficulty "hard" then remainingToRemove * 4 else remainingToRemove * 2 in
  let '(cellPriorities, k) :=
    foldl (fun (acc : list PriorityCell * nat) (p : Coord) =>
      let '(cellPriorities, k) := acc in
      let '(row, col) := p in
      if negb (isNull (cell puzzle row col)) then
        let '(priority, k) := calculateCellRemovalPriority puzzle row col k in
        (cellPriorities ++ [{| prow := row; pcol := col; priority := priority |}], k)
      else acc) ([], k) allCoords in
  let cellPriorities := sortByPriority cellPriorities in
  st ← guidedLoop difficulty remainingToRemove maxAttempts cellPriorities
         {| g_puzzle := puzzle; g_removedCells := 0; g_attempts := 0; g_stopped := false |};
  Some (g_puzzle st, g_removedCells st, k).

(** The [while (!hasUniqueSolution(puzzle) && attempts < maxAttempts)] loop
    of phase 3; [cells] are the entries [emptyCells[attempts ..
    maxAttempts - 1]]. *)
Fixpoint restoreLoop (cells : list Coord) (puzzle solution : Board) : option Board :=
  unique ← hasUniqueSolution puzzle;
  if unique : bool then Some puzzle
  else
    match cells with
    | [] => Some puzzle
    | (row, col) :: rest =>
        restoreLoop rest (setCell puzzle row col (cell solution row col)) solution
    end.

(** Phase 3 *)
Definition restoreForUniqueness (puzzle solution : Board) (k : nat) : option (Board * nat) :=
  let emptyCells := List.filter (fun p : Coord => isNull (cell puzzle p.1 p.2)) allCoords in
  let '(emptyCells, k) := shuffle emptyCells k in
  let maxAttempts := Nat.min (length emptyCells) 20 in
  puzzle ← restoreLoop (take maxAttempts emptyCells) puzzle solution;
  Some (puzzle, k).

Definition generateOptimizedUniquePuzzle (solution : Board) (targetEmptyCells : nat)
    (difficulty : string) (k : nat) : option (GeneratedPuzzle * nat) :=
  let puzzle := solution in
  let '(puzzle, removedCells, k) := performSymmetricRemoval puzzle targetEmptyCells k in
  '(puzzle, removedCells, k) ←
    (if removedCells <? targetEmptyCells then
       '(puzzle, removed, k) ←
         performGuidedRemoval puzzle (targetEmptyCells - removedCells) difficulty k;
       Some (puzzle, removedCells + removed, k)
     else Some (puzzle, removedCells, k));
  unique ← hasUniqueSolution puzzle;
  '(puzzle, k) ←
    (if negb unique then restoreForUniqueness puzzle solution k else Some (puzzle, k));
  Some ({| puzzle := puzzle; solution := solution |}, k).

Definition generatePuzzle (difficulty : string) (k : nat) : option (GeneratedPuzzle * nat) :=
  '(solution, k) ← generateSolvedBoard k;
  let puzzle := solution in
  let targetEmptyCells :=
    if String.eqb difficulty "easy" then 60
    else if String.eqb difficulty "medium" then 100
    else if String.eqb difficulty "hard" then 180
    else if String.eqb difficulty "test" then 2
    else 140 in
  if String.eqb difficulty "test" then
    let '(positions, k) := shuffle allCoords k in
    let puzzle :=
      foldl (fun puzzle i =>
               match positions !! i with
               | Some (row, col) => setCell puzzle row col None
               | None => puzzle
               end) puzzle (seq 0 2) in
    Some ({| puzzle := puzzle; solution := solution |}, k)
  else generateOptimizedUniquePuzzle solution targetEmptyCells difficulty k.

End Randomness.

(** ** Hint and progress module *)

Record ValueStats := { filled : nat; total : nat; percentage : Q }.

(** The [stats] object, as its entries in the order [Object.keys] and
    [Object.entries] enumerate them: the integer-like keys "0" .. "9" in
    ascending order, then "A" .. "F" in insertion order. *)
Abbreviation Stats := (list (string * ValueStats)).

(** [stats[value]] *)
Fixpoint statsLookup (stats : Stats) (value : string) : option ValueStats :=
  match stats with
  | [] => None
  | (key, data) :: rest => if String.eqb key value then Some data else statsLookup rest value
  end.

(** [stats[value].filled++] *)
Fixpoint statsIncrement (stats : Stats) (value : string) : Stats :=
  match stats with
  | [] => []
  | (key, data) :: rest =>
      if String.eqb key value
      then (key, {| filled := S (filled data); total := total data;
                    percentage := percentage data |}) :: rest
      else (key, data) :: statsIncrement rest value
  end.

(** [HEX_VALUES.forEach(value => { stats[value] = {...} })] *)
Definition initialStats : Stats :=
  map (fun value => (value, {| filled := 0; total := 16; percentage := 0%Q |})) HEX_VALUES.

(** [if (value && stats[value]) stats[value].filled++] *)
Definition countValue (stats : Stats) (value : Cell) : Stats :=
  match value with
  | Some v =>
      if truthy value && bool_decide (is_Some (statsLookup stats v))
      then statsIncrement stats v else stats
  | None => stats
  end.

(** [Object.keys(stats).forEach(value => { stats[value].percentage = ... })] *)
Definition withPercentages (stats : Stats) : Stats :=
  map (fun entry : string * ValueStats =>
         let '(value, data) := entry in
         (value, {| filled := filled data; total := total data;
                    percentage := (natQ (filled data) / natQ (total data) * 100)%Q |}))
      stats.

Definition getValueCompletionStats (board : Board) : Stats :=
  let stats := initialStats in
  let stats :=
    foldl (fun stats row =>
      foldl (fun stats col => countValue stats (cell board row col)) stats (seq 0 16))
      stats (seq 0 16) in
  withPercentages stats.

Definition Qltb (a b : Q) : bool := negb (Qle_bool b a).

(** [Math.round]: the nearest integer, halves upwards. *)
Definition mathRound (x : Q) : Z := Qfloor (x + (1 # 2))%Q.

(** The object returned by [getNextValueToTackle]. *)
Record NextValue := { nv_value : option string; nv_percentage : Z; nv_remaining : Z }.

(** The body of [getNextValueToTackle] once [stats] is computed. *)
Definition pickNextValue (stats : Stats) : NextValue :=
  let '(nextValue, highestPercentage) :=
    foldl (fun (acc : option string * Q) (entry : string * ValueStats) =>
      let '(nextValue, highestPercentage) := acc in
      let '(value, data) := entry in
      if Qltb highestPercentage (percentage data) && Qltb (percentage data) 100%Q
      then (Some value, percentage data)
      else acc) (None, (-1)%Q) stats in
  {| nv_value := nextValue;
     nv_percentage := mathRound highestPercentage;
     nv_remaining :=
       match nextValue with
       | Some v =>
           if truthy (Some v)
           then match statsLookup stats v with
                | Some data => (16 - Z.of_nat (filled data))%Z
                | None => 0%Z
                end
           else 0%Z
       | None => 0%Z
       end |}.

Definition getNextValueToTackle (board : Board) : NextValue :=
  let stats := getValueCompletionStats board in
  pickNextValue stats.

(** ** The validator and hint functions as programs on the caller's grid *)

(** The exported query functions receive the caller's board object.  Here
    they are written once more as programs that act on that object through
    [readCell] and [writeCell] only, so that what they leave behind in it
    can be stated. *)
Module InPlace.

(** A program run on the grid it was passed: its result and the grid
    afterwards. *)
Definition Prog (A : Type) : Type := Board -> A * Board.

Definition run {A} (m : Prog A) (board : Board) : A * Board := m board.

#[export] Instance Prog_ret : MRet Prog := fun A x board => (x, board).
#[export] Instance Prog_bind : MBind Prog :=
  fun A B f m board => let '(x, board) := m board in f x board.

(** [board[row][col]] *)
Definition readCell (row col : nat) : Prog Cell :=
  fun board => (cell board row col, board).

(** [board[row][col] = v] *)
Definition writeCell (row col : nat) (v : Cell) : Prog unit :=
  fun board => (tt, setCell board row col v).

(** A [for] loop whose body may [return] from the enclosing function
    ([Some v]) or go on ([None]). *)
Fixpoint forEach {A R} (l : list A) (body : A -> Prog (option R)) : Prog (option R) :=
  match l with
  | [] => mret None
  | x :: l' =>
      r ← body x;
      match r with
      | Some v => mret (Some v)
      | None => forEach l' body
      end
  end.

(** A [for] loop that updates a local variable. *)
Fixpoint foldEach {A S} (l : list A) (body : S -> A -> Prog S) (s : S) : Prog S :=
  match l with
  | [] => mret s
  | x :: l' => s ← body s x; foldEach l' body s
  end.

Definition isValidMove (row col : nat) (value : string) : Prog bool :=
  r ← forEach (seq 0 16) (fun c =>
        x ← readCell row c;
        mret (if negb (c =? col) && strictEq x (Some value) then Some false else None));
  match r with
  | Some b => mret b
  | None =>
    r ← forEach (seq 0 16) (fun r =>
          x ← readCell r col;
          mret (if negb (r =? row) && strictEq x (Some value) then Some false else None));
    match r with
    | Some b => mret b
    | None =>
      let subGridRow := row / 4 * 4 in
      let subGridCol := col / 4 * 4 in
      r ← forEach (seq subGridRow 4) (fun r =>
            forEach (seq subGridCol 4) (fun c =>
              x ← readCell r c;
              mret (if (negb (r =? row) || negb (c =? col)) && strictEq x (Some value)
                    then Some false else None)));
      match r with
      | Some b => mret b
      | None => mret true
      end
    end
  end.

Definition getConflicts (row col : nat) : Prog (list Coord) :=
  let conflicts : list Coord := [] in
  value ← readCell row col;
  if negb (truthy value) then mret conflicts
  else
    conflicts ← foldEach (seq 0 16) (fun conflicts c =>
      x ← readCell row c;
      mret (if negb (c =? col) && strictEq x value
            then conflicts ++ [(row, c); (row, col)] else conflicts)) conflicts;
    conflicts ← foldEach (seq 0 16) (fun conflicts r =>
      x ← readCell r col;
      mret (if negb (r =? row) && strictEq x value
            then conflicts ++ [(r, col); (row, col)] else conflicts)) conflicts;
    let subGridRow := row / 4 * 4 in
    let subGridCol := col / 4 * 4 in
    conflicts ← foldEach (seq subGridRow 4) (fun conflicts r =>
      foldEach (seq subGridCol 4) (fun conflicts c =>
        x ← readCell r c;
        mret (if (negb (r =? row) || negb (c =? col)) && strictEq x value
              then conflicts ++ [(r, c); (row, col)] else conflicts)) conflicts) conflicts;
    mret (removeDuplicates conflicts).

Definition isSolved : Prog bool :=
  r ← forEach (seq 0 16) (fun row =>
        forEach (seq 0 16) (fun col =>
          x ← readCell row col;
          mret (if negb (truthy x) then Some false else None)));
  match r with
  | Some b => mret b
  | None =>
    r ← forEach (seq 0 16) (fun row =>
          forEach (seq 0 16) (fun col =>
            conflicts ← getConflicts row col;
            mret (if 0 <? length conflicts then Some false else None)));
    match r with
    | Some b => mret b
    | None => mret true
    end
  end.

Definition getValueCompletionStats : Prog Stats :=
  let stats := initialStats in
  stats ← foldEach (seq 0 16) (fun stats row =>
    foldEach (seq 0 16) (fun stats col =>
      value ← readCell row col;
      mret (countValue stats value)) stats) stats;
  mret (withPercentages stats).

Definition getNextValueToTackle : Prog NextValue :=
  stats ← getValueCompletionStats;
  mret (pickNextValue stats).

End InPlace.

(** ** Specification-side notions *)

(** The cells that can make [isValidMove] fail: all others of the row, the
    column and the block. *)
Definition clashes (board : Board) (row col : nat) (value : string) : Prop :=
  exists r c, r < 16 /\ c < 16 /\ (r, c) <> (row, col) /\
    sameUnit (r, c) (row, col) /\ cell board r c = Some value.

(** [p] is another cell of the row, column or block of [(row, col)] holding
    the same (truthy) value as [(row, col)]. *)
Definition conflictsWith (board : Board) (row col : nat) (p : Coord) : Prop :=
  exists value, cell board row col = Some value /\ value <> "" /\
    inGrid p /\ p <> (row, col) /\ sameUnit p (row, col) /\
    cell board p.1 p.2 = Some value.

(** No filled cell has its value repeated in its row, column or block. *)
Definition consistent (board : Board) : Prop :=
  forall r c v, r < 16 -> c < 16 -> cell board r c = Some v -> ~ clashes board r c v.

(** A 16x16 grid of symbols and blanks without repetitions. *)
Definition validPartial (board : Board) : Prop :=
  wf_board board /\ hex_board board /\ consistent board.

Definition full (board : Board) : Prop :=
  forall r c, r < 16 -> c < 16 -> cell board r c <> None.

(** [grid] fills the blanks of [board] into a grid without repetitions. *)
Definition completion (board grid : Board) : Prop :=
  validPartial grid /\ full grid /\
  forall r c v, cell board r c = Some v -> cell grid r c = Some v.

Definition rowCoords (r : nat) : list Coord := map (fun c => (r, c)) (seq 0 16).
Definition colCoords (c : nat) : list Coord := map (fun r => (r, c)) (seq 0 16).
Definition blockCoords (br bc : nat) : list Coord :=
  flat_map (fun r => map (fun c => (r, c)) (seq (4 * bc) 4)) (seq (4 * br) 4).

Definition unitValues (board : Board) (unit : list Coord) : list Cell :=
  map (fun p : Coord => cell board p.1 p.2) unit.

(** Every cell is filled, and each row, column and aligned 4x4 block holds
    each of the sixteen symbols exactly once. *)
Definition solvedGrid (board : Board) : Prop :=
  wf_board board /\
  (forall r c, r < 16 -> c < 16 -> exists s, cell board r c = Some s /\ In s HEX_VALUES) /\
  (forall r, r < 16 -> unitValues board (rowCoords r) ≡ₚ map Some HEX_VALUES) /\
  (forall c, c < 16 -> unitValues board (colCoords c) ≡ₚ map Some HEX_VALUES) /\
  (forall br bc, br < 4 -> bc < 4 ->
     unitValues board (blockCoords br bc) ≡ₚ map Some HEX_VALUES).

(** [puzzle] is a 16x16 grid each of whose cells is blank or as in
    [solution]. *)
Definition carvedFrom (puzzle solution : Board) : Prop :=
  wf_board puzzle /\
  forall r c, cell puzzle r c = None \/ cell puzzle r c = cell solution r c.

(** The grid obtained from [puzzle] by putting into every empty cell the
    value [solution] has at the same coordinates. *)
Definition completeWith (puzzle solution : Board) : Board :=
  map (fun row =>
         map (fun col =>
                match cell puzzle row col with
                | None => cell solution row col
                | Some v => Some v
                end) (seq 0 16)) (seq 0 16).


(** Number of cells for which [!board[row][col]] holds. *)
Definition countFalsy (board : Board) : nat :=
  length (List.filter (fun p : Coord => negb (truthy (cell board p.1 p.2))) allCoords).

(** Number of cells with [board[row][col] === null]. *)
Definition countNull (board : Board) : nat :=
  length (List.filter (fun p : Coord => isNull (cell board p.1 p.2)) allCoords).

(** The program [m] returns [f board] and leaves the board it ran on as it
    found it. *)
Definition readsOnly {A} (m : InPlace.Prog A) (f : Board -> A) : Prop :=
  forall board, InPlace.run m board = (f board, board).

(** ** Sample boards *)

(** A solved grid: row [r] is the symbols in order, rotated by
    [4 * (r mod 4) + r / 4]. *)
Definition sampleSolved : Board :=
  map (fun r => map (fun c => HEX_VALUES !! ((4 * (r mod 4) + r / 4 + c) mod 16)) (seq 0 16))
      (seq 0 16).

(** [sampleSolved] with the four corners of a rectangle cleared; the two
    symbols of the corners can be put back in two ways. *)
Definition sampleAmbiguous : Board :=
  setCell (setCell (setCell (setCell sampleSolved 0 0 None) 0 8 None) 2 0 None) 2 8 None.

(** ** A sample run of the generator *)

Fixpoint removeFirst (v : string) (l : list string) : list string :=
  match l with
  | [] => []
  | x :: l' => if String.eqb x v then l' else x :: removeFirst v l'
  end.

Definition moveToFront (v : string) (l : list string) : list string :=
  if existsb (String.eqb v) l then v :: removeFirst v l else l.

(** Shuffle outcomes that put first, at the [k]-th shuffle, the symbol
    [sampleSolved] has in its [k]-th cell; each shuffle is counted as one
    call. *)
Definition guidedSort (k : nat) (l : list string) : list string * nat :=
  (match cell sampleSolved (k / 16) (k mod 16) with
   | Some v => moveToFront v l
   | None => l
   end, S k).

(** Draws of [Math.random()]: 0.99 throughout, except two draws of 0.995. *)
Definition unluckyRandom (k : nat) : Q :=
  if (k =? 516) || (k =? 538) then (995 # 1000)%Q else (99 # 100)%Q.

Definition clearAll (board : Board) (cells : list Coord) : Board :=
  foldl (fun b (p : Coord) => setCell b p.1 p.2 None) board cells.

(** [sampleSolved] with 40 cells cleared, among them the rectangle
    (13,7), (13,15), (15,7), (15,15), whose two symbols can be put back in
    two ways. *)
Definition stuckPuzzle : Board :=
  clearAll sampleSolved
    [(1, 7); (1, 8); (1, 10); (1, 11); (1, 13); (1, 14); (2, 0); (2, 1); (2, 2); (2, 3);
     (2, 5); (2, 6); (2, 8); (2, 9); (2, 11); (2, 12); (2, 14); (2, 15); (3, 1); (3, 2);
     (13, 7); (13, 14); (13, 15); (14, 8); (14, 9); (14, 10); (14, 11); (14, 12);
     (14, 13); (14, 14); (14, 15); (15, 7); (15, 8); (15, 9); (15, 10); (15, 11);
     (15, 12); (15, 13); (15, 14); (15, 15)].

(** [stuckPuzzle] with 20 more cells cleared. *)
Definition carvedSixty : Board :=
  clearAll stuckPuzzle
    [(0, 0); (0, 1); (0, 2); (0, 3); (0, 4); (0, 5); (0, 6); (0, 7); (0, 9); (0, 10);
     (0, 12); (0, 13); (0, 15); (1, 0); (1, 1); (1, 2); (1, 3); (1, 4); (1, 5); (1, 6)].

(** * Further parts of the program *)

(** ** Hints *)

(** The object literal [{ row, col, value }] returned by [getHint]. *)
Record Hint := { h_row : nat; h_col : nat; h_value : Cell }.

Definition getHint (board solution : Board) : option Hint :=
  match
    List.find (fun p : Coord =>
                 negb (truthy (cell board p.1 p.2)) && truthy (cell solution p.1 p.2))
              allCoords
  with
  | Some (row, col) => Some {| h_row := row; h_col := col; h_value := cell solution row col |}
  | None => None
  end.

(** ** The solver *)

(** The [for (const value of HEX_VALUES)] loop of the closure [solve] at
    the cell [(row, col)]; [rec] is the recursive call. *)
Fixpoint trySolve (rec : Board -> option (bool * Board))
    (row col : nat) (values : list string) (solution : Board) : option (bool * Board) :=
  match values with
  | [] => Some (false, solution)
  | value :: rest =>
      if isValidMove solution row col value then
        match rec (setCell solution row col (Some value)) with
        | None => None
        | Some (true, solution) => Some (true, solution)
        | Some (false, solution) => trySolve rec row col rest (setCell solution row col None)
        end
      else trySolve rec row col rest solution
  end.

(** The closure [solve] of [solvePuzzle], acting on the captured copy
    [solution]. *)
Fixpoint solve (fuel : nat) (solution : Board) : option (bool * Board) :=
  match fuel with
  | 0 => None
  | S fuel =>
      match firstFalsy solution with
      | Some (row, col) => trySolve (solve fuel) row col HEX_VALUES solution
      | None => Some (true, solution)
      end
  end.

(** [solvePuzzle]: the inner [None] is the [null] returned when no
    solution is found. *)
Definition solvePuzzle (board : Board) : option (option Board) :=
  let solution := board in
  '(solved, solution) ← solve searchFuel solution;
  Some (if solved : bool then Some solution else None).

(** ** The first version of the puzzle generator *)

Module Legacy.

(** [generatePuzzle] as it was before the carver with uniqueness checks:
    shuffle all positions and clear the first [cellsToRemove]. *)
Definition generatePuzzle (random : nat -> Q)
    (shuffleSort : nat -> list string -> list string * nat)
    (difficulty : string) (k : nat) : option (GeneratedPuzzle * nat) :=
  '(solution, k) ← generateSolvedBoard shuffleSort k;
  let puzzle := solution in
  let cellsToRemove :=
    if String.eqb difficulty "easy" then 60
    else if String.eqb difficulty "medium" then 140
    else if String.eqb difficulty "hard" then 180
    else 140 in
  let positions := allCoords in
  let '(positions, k) := shuffle random positions k in
  let puzzle :=
    foldl (fun puzzle i =>
             match positions !! i with
             | Some (row, col) => setCell puzzle row col None
             | None => puzzle
             end) puzzle (seq 0 (Nat.min cellsToRemove (length positions))) in
  Some ({| puzzle := puzzle; solution := solution |}, k).

End Legacy.

(** ** The game screen *)

(** The state of the [App] component and its event handlers.  A handler
    runs on the state of the render that created it ([render]): the state
    variables it reads are those values, while the updates it queues
    ([setX(value)], [setX(prev => ...)]) are applied in order and give the
    state of the next render.  The clock, the haptics and the animations
    are left out, and the updates a win schedules half a second later are
    applied with the others.  A handler returns [None] where the script
    would throw (indexing [initialBoard] when it is [null]). *)
Module App.

Inductive GameState := menu | playing | won.

Record Game := {
  board : option Board;
  initialBoard : option Board;
  selectedCell : option Coord;
  gameState : GameState;
  conflicts : list Coord;
  comboTimer : Z;
  comboMultiplier : nat;
  totalScore : nat;
  comboScore : nat;
  showWinModal : bool;
  (** [winData.score] *)
  winScore : nat
}.

Definition COMBO_DURATION : Z := 30000.
Definition BASE_SCORE : nat := 100.

Definition setBoard (f : option Board -> option Board) (st : Game) : Game :=
  {| board := f (board st); initialBoard := initialBoard st;
     selectedCell := selectedCell st; gameState := gameState st;
     conflicts := conflicts st; comboTimer := comboTimer st;
     comboMultiplier := comboMultiplier st; totalScore := totalScore st;
     comboScore := comboScore st; showWinModal := showWinModal st;
     winScore := winScore st |}.

Definition setInitialBoard (f : option Board -> option Board) (st : Game) : Game :=
  {| board := board st; initialBoard := f (initialBoard st);
     selectedCell := selectedCell st; gameState := gameState st;
     conflicts := conflicts st; comboTimer := comboTimer st;
     comboMultiplier := comboMultiplier st; totalScore := totalScore st;
     comboScore := comboScore st; showWinModal := showWinModal st;
     winScore := winScore st |}.

Definition setSelectedCell (f : option Coord -> option Coord) (st : Game) : Game :=
  {| board := board st; initialBoard := initialBoard st;
     selectedCell := f (selectedCell st); gameState := gameState st;
     conflicts := conflicts st; comboTimer := comboTimer st;
     comboMultiplier := comboMultiplier st; totalScore := totalScore st;
     comboScore := comboScore st; showWinModal := showWinModal st;
     winScore := winScore st |}.

Definition setGameState (f : GameState -> GameState) (st : Game) : Game :=
  {| board := board st; initialBoard := initialBoard st;
     selectedCell := selectedCell st; gameState := f (gameState st);
     conflicts := conflicts st; comboTimer := comboTimer st;
     comboMultiplier := comboMultiplier st; totalScore := totalScore st;
     comboScore := comboScore st; showWinModal := showWinModal st;
     winScore := winScore st |}.

Definition setConflicts (f : list Coord -> list Coord) (st : Game) : Game :=
  {| board := board st; initialBoard := initialBoard st;
     selectedCell := selectedCell st; gameState := gameState st;
     conflicts := f (conflicts st); comboTimer := comboTimer st;
     comboMultiplier := comboMultiplier st; totalScore := totalScore st;
     comboScore := comboScore st; showWinModal := showWinModal st;
     winScore := winScore st |}.

Definition setComboTimer (f : Z -> Z) (st : Game) : Game :=
  {| board := board st; initialBoard := initialBoard st;
     selectedCell := selectedCell st; gameState := gameState st;
     conflicts := conflicts st; comboTimer := f (comboTimer st);
     comboMultiplier := comboMultiplier st; totalScore := totalScore st;
     comboScore := comboScore st; showWinModal := showWinModal st;
     winScore := winScore st |}.

Definition setComboMultiplier (f : nat -> nat) (st : Game) : Game :=
  {| board := board st; initialBoard := initialBoard st;
     selectedCell := selectedCell st; gameState := gameState st;
     conflicts := conflicts st; comboTimer := comboTimer st;
     comboMultiplier := f (comboMultiplier st); totalScore := totalScore st;
     comboScore := comboScore st; showWinModal := showWinModal st;
     winScore := winScore st |}.

Definition setTotalScore (f : nat -> nat) (st : Game) : Game :=
  {| board := board st; initialBoard := initialBoard st;
     selectedCell := selectedCell st; gameState := gameState st;
     conflicts := conflicts st; comboTimer := comboTimer st;
     comboMultiplier := comboMultiplier st; totalScore := f (totalScore st);
     comboScore := comboScore st; showWinModal := showWinModal st;
     winScore := winScore st |}.

Definition setComboScore (f : nat -> nat) (st : Game) : Game :=
  {| board := board st; initialBoard := initialBoard st;
     selectedCell := selectedCell st; gameState := gameState st;
     conflicts := conflicts st; comboTimer := comboTimer st;
     comboMultiplier := comboMultiplier st; totalScore := totalScore st;
     comboScore := f (comboScore st); showWinModal := showWinModal st;
     winScore := winScore st |}.

Definition setShowWinModal (f : bool -> bool) (st : Game) : Game :=
  {| board := board st; initialBoard := initialBoard st;
     selectedCell := selectedCell st; gameState := gameState st;
     conflicts := conflicts st; comboTimer := comboTimer st;
     comboMultiplier := comboMultiplier st; totalScore := totalScore st;
     comboScore := comboScore st; showWinModal := f (showWinModal st);
     winScore := winScore st |}.

Definition setWinScore (f : nat -> nat) (st : Game) : Game :=
  {| board := board st; initialBoard := initialBoard st;
     selectedCell := selectedCell st; gameState := gameState st;
     conflicts := conflicts st; comboTimer := comboTimer st;
     comboMultiplier := comboMultiplier st; totalScore := totalScore st;
     comboScore := comboScore st; showWinModal := showWinModal st;
     winScore := f (winScore st) |}.

(** [handleSuccessfulMove]: [render] holds the values the handler reads,
    [st] the state its updates apply to. *)
Definition handleSuccessfulMove (render st : Game) : Game :=
  let moveScore := BASE_SCORE * Nat.max 1 (comboMultiplier render) in
  let st :=
    if (0 <? comboTimer render)%Z then
      let st := setComboMultiplier (fun prev => prev + 1) st in
      setComboScore (fun prev => prev + moveScore) st
    else
      let st := setComboMultiplier (fun _ => 1) st in
      setComboScore (fun _ => moveScore) st in
  let st := setComboTimer (fun _ => COMBO_DURATION) st in
  setTotalScore (fun prev => prev + moveScore) st.

(** [startNewGame], given the pair [generatePuzzle] returned. *)
Definition startNewGame (generated : GeneratedPuzzle) (render : Game) : Game :=
  let st := render in
  let st := setBoard (fun _ => Some (puzzle generated)) st in
  let st := setInitialBoard (fun _ => Some (puzzle generated)) st in
  let st := setSelectedCell (fun _ => None) st in
  let st := setGameState (fun _ => playing) st in
  let st := setConflicts (fun _ => []) st in
  let st := setComboTimer (fun _ => 0%Z) st in
  let st := setComboMultiplier (fun _ => 0) st in
  let st := setTotalScore (fun _ => 0) st in
  setComboScore (fun _ => 0) st.

Definition selectCell (row col : nat) (render : Game) : Game :=
  match initialBoard render with
  | Some initial =>
      if negb (isNull (cell initial row col)) then render
      else setSelectedCell (fun _ => Some (row, col)) render
  | None => setSelectedCell (fun _ => Some (row, col)) render
  end.

Definition inputValue (value : string) (render : Game) : option Game :=
  match selectedCell render, board render with
  | Some (row, col), Some current =>
      match initialBoard render with
      | None => None
      | Some initial =>
          if negb (isNull (cell initial row col)) then Some render
          else
            let st := render in
            let newBoard := setCell current row col (Some value) in
            let newConflicts := getConflicts newBoard row col in
            let st := setConflicts (fun _ => newConflicts) st in
            let st :=
              if length newConflicts =? 0 then handleSuccessfulMove render st
              else
                let st := setComboTimer (fun _ => 0%Z) st in
                let st := setComboMultiplier (fun _ => 0) st in
                setComboScore (fun _ => 0) st in
            let st := setBoard (fun _ => Some newBoard) st in
            if isSolved newBoard then
              let st := setGameState (fun _ => won) st in
              let completionBonus := 1000 in
              let finalScore := totalScore render + completionBonus in
              let st := setTotalScore (fun prev => prev + completionBonus) st in
              let st := setWinScore (fun _ => finalScore) st in
              Some (setShowWinModal (fun _ => true) st)
            else Some st
      end
  | _, _ => Some render
  end.

Definition clearCell (render : Game) : option Game :=
  match selectedCell render, board render with
  | Some (row, col), Some current =>
      match initialBoard render with
      | None => None
      | Some initial =>
          if negb (isNull (cell initial row col)) then Some render
          else
            let newBoard := setCell current row col None in
            let st := setBoard (fun _ => Some newBoard) render in
            Some (setConflicts (fun _ => []) st)
      end
  | _, _ => Some render
  end.

(** One firing of the interval of the combo timer, which runs while
    [comboTimer > 0] in a game that is being played. *)
Definition tick (st : Game) : Game :=
  match gameState st with
  | playing =>
      if (0 <? comboTimer st)%Z then
        let newTime := (comboTimer st - 100)%Z in
        if (newTime <=? 0)%Z then
          let st := setComboMultiplier (fun _ => 0) st in
          let st := setComboScore (fun _ => 0) st in
          setComboTimer (fun _ => 0%Z) st
        else setComboTimer (fun _ => newTime) st
      else st
  | _ => st
  end.

(** What the player and the timer can do on the game screen. *)
Inductive Event :=
  | Select (row col : nat)
  | Input (value : string)
  | Clear
  | Tick.

Definition step (st : Game) (e : Event) : option Game :=
  match e with
  | Select row col => Some (selectCell row col st)
  | Input value => inputValue value st
  | Clear => clearCell st
  | Tick => Some (tick st)
  end.

Fixpoint run (events : list Event) (st : Game) : option Game :=
  match events with
  | [] => Some st
  | e :: rest => st ← step st e; run rest st
  end.

End App.

(** * Further specification-side notions *)

(** ** Counts and hints *)

(** Number of cells of the grid that hold [value]. *)
Definition occurrences (board : Board) (value : string) : nat :=
  length (List.filter (fun p : Coord => holds board p.1 p.2 value) allCoords).

(** The [stats] entry of a symbol that occurs [n] times. *)
Definition statsEntry (n : nat) : ValueStats :=
  {| filled := n; total := 16; percentage := (natQ n / natQ 16 * 100)%Q |}.

(** A player who asks for a hint and enters it, up to [n] times. *)
Fixpoint followHints (n : nat) (board solution : Board) : Board :=
  match n with
  | 0 => board
  | S n =>
      match getHint board solution with
      | Some h => followHints n (setCell board (h_row h) (h_col h) (h_value h)) solution
      | None => board
      end
  end.

(** ** Completions *)

(** [grid] keeps every filled cell of [board]. *)
Definition extends (board grid : Board) : Prop :=
  forall r c v, cell board r c = Some v -> cell grid r c = Some v.

(** A sort that leaves the array as it is and draws no random number. *)
Definition keepOrder (k : nat) (l : list string) : list string * nat := (l, k).

(** The result of the generator's search without its random draws
    counter. *)
Definition forgetDraws (x : option (bool * Board * nat)) : option (bool * Board) :=
  match x with
  | Some (res, board, _) => Some (res, board)
  | None => None
  end.

(** [sols] lists every completion of [board] once. *)
Definition solutionsOf (board : Board) (sols : list Board) : Prop :=
  NoDup sols /\ forall grid, In grid sols <-> completion board grid.

(** [board] has exactly one completion. *)
Definition uniquelySolvable (board : Board) : Prop :=
  exists grid, completion board grid /\ forall grid', completion board grid' -> grid' = grid.

Definition hasEmptyCell (board : Board) : Prop :=
  exists r c, r < 16 /\ c < 16 /\ cell board r c = None.

(** The completions of [board] with one of [values] at [(row, col)]. *)
Definition viaValues (board : Board) (row col : nat) (values : list string) (grid : Board)
    : Prop :=
  completion board grid /\ exists v, In v values /\ cell grid row col = Some v.

(** ** Carving *)

(** The cells of a list of pairs, in the order phase 1 clears them. *)
Definition pairCells (pairs : list (Coord * Coord)) : list Coord :=
  flat_map (fun pr : Coord * Coord => [pr.1; pr.2]) pairs.

(** The body of the [for (const pair of symmetricPairs)] loop of phase 1;
    the boolean records that the loop was left by [break]. *)
Definition symmetricStep (maxSymmetricRemoval : Q) (st : Board * nat * bool)
    (pair : Coord * Coord) : Board * nat * bool :=
  let '(puzzle, removedCells, stop) := st in
  if stop then st
  else if Qle_bool maxSymmetricRemoval (natQ removedCells) then (puzzle, removedCells, true)
  else
    let '((r1, c1), (r2, c2)) := pair in
    if (r1 =? r2) && (c1 =? c2) then st
    else
      let puzzle := setCell puzzle r1 c1 None in
      let puzzle := setCell puzzle r2 c2 None in
      (puzzle, removedCells + 2, false).

Definition coordOf (c : PriorityCell) : Coord := (prow c, pcol c).

(** The body of the nested loops of phase 2 that build [cellPriorities]. *)
Definition priorityStep (random : nat -> Q) (puzzle : Board)
    (acc : list PriorityCell * nat) (p : Coord) : list PriorityCell * nat :=
  let '(cellPriorities, k) := acc in
  let '(row, col) := p in
  if negb (isNull (cell puzzle row col)) then
    let '(priority, k) := calculateCellRemovalPriority random puzzle row col k in
    (cellPriorities ++ [{| prow := row; pcol := col; priority := priority |}], k)
  else acc.

(** Number of empty cells the puzzle of a difficulty can have: from the
    count of phase 1 less the 20 cells phase 3 may refill, up to the
    target. *)
Definition emptyCellRange (difficulty : string) : nat * nat :=
  if String.eqb difficulty "easy" then (16, 60)
  else if String.eqb difficulty "medium" then (40, 100)
  else if String.eqb difficulty "hard" then (80, 180)
  else (64, 140).

(** The loop invariant of phase 2: the empty cells are the [start] ones it
    began with and those it counted, and the count is within its budget. *)
Definition guidedInv (start remainingToRemove : nat) (st : GuidedState) : Prop :=
  wf_board (g_puzzle st) /\
  countNull (g_puzzle st) = start + g_removedCells st /\
  g_removedCells st <= remainingToRemove.

(** ** Playing *)

(** A game one entry away from its end: [sampleSolved] without its first
    cell, which is selected. *)
Definition lastMove : App.Game :=
  {| App.board := Some (setCell sampleSolved 0 0 None);
     App.initialBoard := Some (setCell sampleSolved 0 0 None);
     App.selectedCell := Some (0, 0);
     App.gameState := App.playing;
     App.conflicts := [];
     App.comboTimer := 0;
     App.comboMultiplier := 0;
     App.totalScore := 0;
     App.comboScore := 0;
     App.showWinModal := false;
     App.winScore := 0 |}.

(** The bounds that tie the combo timer, the multiplier and the scores. *)
Definition comboInv (st : App.Game) : Prop :=
  (0 <= App.comboTimer st <= App.COMBO_DURATION)%Z /\
  (App.comboTimer st = 0%Z <-> App.comboMultiplier st = 0) /\
  App.comboScore st <= App.totalScore st.

(** ** A search that fails *)

(** * Properties *)

(** Splits a right-nested conjunction without touching its members. *)
Ltac split_all :=
  lazymatch goal with
  | |- _ /\ _ => split; [|split_all]
  | |- validPartial _ => unfold validPartial; split_all
  | |- completion _ _ => unfold completion; split_all
  | |- solvedGrid _ => unfold solvedGrid; split_all
  | |- _ => idtac
  end.

(** ** Reading and writing cells *)

Lemma cell_setCell_eq (board : Board) row col v :
  wf_board board -> row < 16 -> col < 16 ->
  cell (setCell board row col v) row col = v.
Proof.
  intros [Hlen Hrows] Hr Hc. unfold cell, setCell.
  destruct (lookup_lt_is_Some_2 board row) as [r Hrow]; [lia|].
  rewrite list_lookup_alter_eq, Hrow. simpl.
  assert (length r = 16) by (eapply Forall_lookup_1 in Hrows; eauto).
  rewrite list_lookup_insert_eq by lia. reflexivity.
Qed.

Lemma cell_setCell_ne (board : Board) row col v r c :
  (r, c) <> (row, col) ->
  cell (setCell board row col v) r c = cell board r c.
Proof.
  intros Hne. unfold cell, setCell.
  destruct (decide (r = row)) as [-> | Hr].
  - rewrite list_lookup_alter_eq.
    destruct (board !! row) as [rw|]; simpl; [|reflexivity].
    rewrite list_lookup_insert_ne by congruence. reflexivity.
  - rewrite list_lookup_alter_ne by congruence. reflexivity.
Qed.

Lemma wf_setCell board row col v : wf_board board -> wf_board (setCell board row col v).
Proof.
  intros [Hlen Hrows]. unfold setCell. split.
  - rewrite length_alter. exact Hlen.
  - apply Forall_alter; [exact Hrows|].
    intros r _ Hr. rewrite length_insert. exact Hr.
Qed.

Lemma setCell_cell board row col : setCell board row col (cell board row col) = board.
Proof.
  unfold setCell, cell. apply list_eq. intros i.
  destruct (decide (i = row)) as [-> | Hi].
  - rewrite list_lookup_alter_eq.
    destruct (board !! row) as [r|] eqn:Hrow; simpl; [|reflexivity].
    f_equal. destruct (r !! col) as [x|] eqn:Hx.
    + apply list_insert_id. exact Hx.
    + apply list_insert_ge. apply lookup_ge_None. exact Hx.
  - rewrite list_lookup_alter_ne by congruence. reflexivity.
Qed.

Lemma setCell_setCell board row col v w :
  setCell (setCell board row col v) row col w = setCell board row col w.
Proof.
  unfold setCell. rewrite list_alter_alter_eq.
  apply list_alter_ext; [|reflexivity].
  intros r _. simpl. apply list_insert_insert_eq.
Qed.

Lemma setCell_restore board row col v :
  setCell (setCell board row col v) row col (cell board row col) = board.
Proof. rewrite setCell_setCell. apply setCell_cell. Qed.

Lemma wf_emptyBoard : wf_board emptyBoard.
Proof.
  split; [reflexivity|]. unfold emptyBoard.
  apply Forall_forall. intros r Hr. apply elem_of_replicate in Hr as [-> _]. reflexivity.
Qed.

Lemma cell_outside_row board row col : wf_board board -> 16 <= row -> cell board row col = None.
Proof.
  intros [Hlen _] Hr. unfold cell.
  rewrite (proj2 (lookup_ge_None board row)) by lia. reflexivity.
Qed.

Lemma cell_outside_col board row col : wf_board board -> 16 <= col -> cell board row col = None.
Proof.
  intros [Hlen Hrows] Hc. unfold cell.
  destruct (board !! row) as [r|] eqn:Hrow; [|reflexivity].
  assert (length r = 16) by (eapply Forall_lookup_1 in Hrows; eauto).
  rewrite (proj2 (lookup_ge_None r col)) by lia. reflexivity.
Qed.

Lemma holds_true board row col value :
  holds board row col value = true <-> cell board row col = Some value.
Proof.
  unfold holds, strictEq. destruct (cell board row col) as [s|].
  - rewrite String.eqb_eq. split; congruence.
  - split; discriminate.
Qed.

Lemma block_range r row : row / 4 * 4 <= r < row / 4 * 4 + 4 <-> r / 4 = row / 4.
Proof.
  pose proof (Nat.div_mod_eq r 4). pose proof (Nat.mod_upper_bound r 4).
  pose proof (Nat.div_mod_eq row 4). pose proof (Nat.mod_upper_bound row 4).
  lia.
Qed.

Lemma block_lt_16 r row : row < 16 -> r / 4 = row / 4 -> r < 16.
Proof.
  intros Hrow Hr. pose proof (Nat.div_mod_eq r 4). pose proof (Nat.mod_upper_bound r 4).
  pose proof (Nat.div_mod_eq row 4). pose proof (Nat.mod_upper_bound row 4). lia.
Qed.

(** ** Constraint validator *)

Lemma isValidMove_false board row col value :
  row < 16 -> col < 16 ->
  isValidMove board row col value = false <-> clashes board row col value.
Proof.
  intros Hrow Hcol. unfold isValidMove, clashes, sameUnit. cbv zeta.
  destruct (existsb (fun c => negb (c =? col) && holds board row c value) (seq 0 16)) eqn:E1.
  { split; [intros _|reflexivity].
    apply existsb_exists in E1 as (c & Hin & Hc). apply in_seq in Hin.
    apply andb_true_iff in Hc as [Hne Hh]. apply negb_true_iff, Nat.eqb_neq in Hne.
    apply holds_true in Hh. exists row, c. split_all; cbn [fst snd]; [lia|lia|congruence|auto|done]. }
  destruct (existsb (fun r => negb (r =? row) && holds board r col value) (seq 0 16)) eqn:E2.
  { split; [intros _|reflexivity].
    apply existsb_exists in E2 as (r & Hin & Hr). apply in_seq in Hin.
    apply andb_true_iff in Hr as [Hne Hh]. apply negb_true_iff, Nat.eqb_neq in Hne.
    apply holds_true in Hh. exists r, col. split_all; cbn [fst snd]; [lia|lia|congruence|auto|done]. }
  destruct (existsb (fun r => existsb (fun c =>
              (negb (r =? row) || negb (c =? col)) && holds board r c value)
              (seq (col / 4 * 4) 4)) (seq (row / 4 * 4) 4)) eqn:E3.
  { split; [intros _|reflexivity].
    apply existsb_exists in E3 as (r & Hin & Hr). apply in_seq in Hin.
    apply existsb_exists in Hr as (c & Hin' & Hc). apply in_seq in Hin'.
    apply andb_true_iff in Hc as [Hne Hh]. apply holds_true in Hh.
    apply block_range in Hin, Hin'.
    exists r, c. split_all; cbn [fst snd];
      [by apply (block_lt_16 r row) | by apply (block_lt_16 c col) | | auto | done].
    intros [= -> ->]. rewrite !Nat.eqb_refl in Hne. discriminate. }
  split; [discriminate|]. intros (r & c & Hr & Hc & Hne & Hunit & Hcell). exfalso.
  apply holds_true in Hcell.
  destruct (decide (r = row)) as [-> | Hrr].
  { assert (c <> col) by congruence.
    apply not_true_iff_false in E1. apply E1, existsb_exists. exists c.
    split; [apply in_seq; lia|]. rewrite Hcell, andb_true_r.
    apply negb_true_iff, Nat.eqb_neq. assumption. }
  destruct (decide (c = col)) as [-> | Hcc].
  { apply not_true_iff_false in E2. apply E2, existsb_exists. exists r.
    split; [apply in_seq; lia|]. rewrite Hcell, andb_true_r.
    apply negb_true_iff, Nat.eqb_neq. assumption. }
  destruct Hunit as [?|[?|[Hbr Hbc]]]; [done|done|].
  apply not_true_iff_false in E3. apply E3, existsb_exists. exists r.
  split; [apply in_seq, block_range; assumption|].
  apply existsb_exists. exists c.
  split; [apply in_seq, block_range; assumption|]. rewrite Hcell, andb_true_r.
  apply orb_true_iff. left. apply negb_true_iff, Nat.eqb_neq. assumption.
Qed.

Lemma isValidMove_true board row col value :
  row < 16 -> col < 16 ->
  isValidMove board row col value = true <-> ~ clashes board row col value.
Proof.
  intros Hrow Hcol. rewrite <- (isValidMove_false board row col value Hrow Hcol).
  destruct (isValidMove board row col value); split; congruence.
Qed.

Lemma clashes_setCell_self board row col value x :
  clashes (setCell board row col x) row col value <-> clashes board row col value.
Proof.
  unfold clashes. split; intros (r & c & Hr & Hc & Hne & Hu & Hcell); exists r, c;
    repeat split; try assumption.
  - rewrite cell_setCell_ne in Hcell by assumption. exact Hcell.
  - rewrite cell_setCell_ne by assumption. exact Hcell.
Qed.

Lemma isValidMove_setCell_self board row col value x :
  row < 16 -> col < 16 ->
  isValidMove (setCell board row col x) row col value = isValidMove board row col value.
Proof.
  intros Hrow Hcol.
  destruct (isValidMove board row col value) eqn:E.
  - apply isValidMove_true; [assumption..|]. rewrite clashes_setCell_self.
    apply isValidMove_true; assumption.
  - apply isValidMove_false; [assumption..|]. rewrite clashes_setCell_self.
    apply isValidMove_false; assumption.
Qed.

Lemma wf_sampleSolved : wf_board sampleSolved.
Proof. split; [reflexivity|]. repeat constructor. Qed.

(** C2. On a 16x16 grid, [isValidMove] answers true exactly when no other
    cell of the same row, column or aligned 4x4 block holds the value; the
    cell itself plays no part, so the answer is the same whatever it holds. *)
Theorem isValidMove_iff_no_other_cell (board : Board) (row col : nat) (value : string) :
  wf_board board -> row < 16 -> col < 16 ->
  (isValidMove board row col value = true <->
     forall r c, r < 16 -> c < 16 -> (r, c) <> (row, col) ->
       sameUnit (r, c) (row, col) -> cell board r c <> Some value)
  /\ (forall x, isValidMove (setCell board row col x) row col value
                = isValidMove board row col value).
Proof.
  intros _ Hrow Hcol. split.
  - rewrite isValidMove_true by assumption. unfold clashes. split.
    + intros Hno r c Hr Hc Hne Hu Hcell. apply Hno. exists r, c. auto.
    + intros Hall (r & c & Hr & Hc & Hne & Hu & Hcell). exact (Hall r c Hr Hc Hne Hu Hcell).
  - intros x. apply isValidMove_setCell_self; assumption.
Qed.

Lemma isValidMove_iff_no_other_cell_witness :
  (isValidMove sampleSolved 3 5 "7" = true <->
     forall r c, r < 16 -> c < 16 -> (r, c) <> (3, 5) ->
       sameUnit (r, c) (3, 5) -> cell sampleSolved r c <> Some "7")
  /\ (forall x, isValidMove (setCell sampleSolved 3 5 x) 3 5 "7"
                = isValidMove sampleSolved 3 5 "7").
Proof.
  apply (isValidMove_iff_no_other_cell sampleSolved 3 5 "7"); [apply wf_sampleSolved|lia|lia].
Defined.

(** ** The duplicate filter of [getConflicts] *)

Lemma sameCoord_true (a b : Coord) : sameCoord a b = true <-> a = b.
Proof.
  unfold sameCoord. destruct a as [a1 a2], b as [b1 b2]. cbn [fst snd].
  rewrite andb_true_iff, !Nat.eqb_eq. split; [intros [-> ->]; reflexivity|].
  intros [= -> ->]. auto.
Qed.

Lemma findIndex_app_first {A} (p : A -> bool) (pre : list A) (x : A) (suf : list A) :
  (forall y, In y pre -> p y = false) -> p x = true ->
  findIndex p (pre ++ x :: suf) = Z.of_nat (length pre).
Proof.
  intros Hpre Hx. induction pre as [|y pre IH]; simpl.
  - rewrite Hx. reflexivity.
  - rewrite (Hpre y) by (left; reflexivity).
    rewrite IH by (intros z Hz; apply Hpre; right; exact Hz).
    destruct (Z.of_nat (length pre) <? 0)%Z eqn:E; lia.
Qed.

Lemma findIndex_app_earlier {A} (p : A -> bool) (pre suf : list A) (y : A) :
  In y pre -> p y = true ->
  (0 <= findIndex p (pre ++ suf) < Z.of_nat (length pre))%Z.
Proof.
  intros Hin Hy. induction pre as [|z pre IH]; [destruct Hin|]. simpl.
  destruct (p z) eqn:Hz; [lia|].
  destruct Hin as [->|Hin]; [congruence|]. specialize (IH Hin).
  destruct (findIndex p (pre ++ suf) <? 0)%Z eqn:E; lia.
Qed.

(** Behind a prefix [pre] of the array, the filter keeps exactly the first
    occurrences. *)
Lemma filterIndexed_first_occurrences (pre suf : list Coord) :
  let kept := filterIndexed
    (fun conflict index =>
       (Z.of_nat index =? findIndex (fun c => sameCoord c conflict) (pre ++ suf))%Z)
    (length pre) suf in
  NoDup kept /\ forall q, In q kept <-> In q suf /\ ~ In q pre.
Proof.
  revert pre. induction suf as [|x suf IH]; intros pre; cbn zeta.
  - simpl. split; [constructor|]. intros q. tauto.
  - specialize (IH (pre ++ [x])). cbn zeta in IH.
    rewrite <- app_assoc, length_app in IH. simpl in IH.
    replace (length pre + 1) with (S (length pre)) in IH by lia.
    destruct IH as [IHnd IHin]. simpl.
    destruct (decide (x ∈ pre)) as [Hx|Hx]; rewrite list_elem_of_In in Hx.
    + pose proof (findIndex_app_earlier (fun c => sameCoord c x) pre (x :: suf) x Hx
                    (proj2 (sameCoord_true x x) eq_refl)) as Hb.
      destruct (Z.of_nat (length pre) =? _)%Z eqn:E; [apply Z.eqb_eq in E; lia|].
      split; [exact IHnd|]. intros q. rewrite IHin, in_app_iff. simpl.
      split; [intuition auto|]. intros [[-> | Hq] Hnot]; [contradiction|intuition (subst; auto)].
    + rewrite findIndex_app_first.
      2:{ intros y Hy. apply not_true_iff_false. rewrite sameCoord_true.
          intros ->. contradiction. }
      2:{ apply sameCoord_true. reflexivity. }
      rewrite Z.eqb_refl. split.
      * apply NoDup_cons. split; [|exact IHnd].
        rewrite list_elem_of_In, IHin, in_app_iff. simpl. intuition auto.
      * intros q. simpl. rewrite IHin, in_app_iff. simpl.
        split; [intros [<-|[Hq Hnot]]; intuition auto|].
        intros [[<-|Hq] Hnot]; [intuition auto|].
        destruct (decide (x = q)) as [-> | Hne]; [intuition auto|].
        right. split; [assumption|]. intros [?|[?|[]]]; contradiction.
Qed.

Lemma removeDuplicates_spec (l : list Coord) :
  NoDup (removeDuplicates l) /\ forall q, In q (removeDuplicates l) <-> In q l.
Proof.
  destruct (filterIndexed_first_occurrences [] l) as [Hnd Hin]. simpl in Hnd, Hin.
  split; [exact Hnd|]. intros q. unfold removeDuplicates. rewrite Hin. intuition auto.
Qed.

(** ** Conflict sets *)

Lemma in_flagged_pairs (f : nat -> bool) (g : nat -> Coord) (self : Coord) lo n (p : Coord) :
  In p (flat_map (fun i => if f i then [g i; self] else []) (seq lo n)) <->
  exists i, lo <= i < lo + n /\ f i = true /\ (p = g i \/ p = self).
Proof.
  rewrite in_flat_map. split.
  - intros (i & Hin & Hp). apply in_seq in Hin. exists i.
    destruct (f i); [|destruct Hp]. simpl in Hp. intuition auto.
  - intros (i & Hin & Hf & Hp). exists i. split; [apply in_seq; exact Hin|].
    rewrite Hf. simpl. intuition auto.
Qed.

Lemma sameUnit_sym (p q : Coord) : sameUnit p q -> sameUnit q p.
Proof. unfold sameUnit. intuition auto. Qed.

(** The array built by the three scans of [getConflicts], before the
    duplicate filter. *)
Lemma in_raw_conflicts board row col value (p : Coord) :
  row < 16 -> col < 16 ->
  In p (flat_map (fun c =>
            if negb (c =? col) && holds board row c value
            then [(row, c); (row, col)] else []) (seq 0 16) ++
        flat_map (fun r =>
            if negb (r =? row) && holds board r col value
            then [(r, col); (row, col)] else []) (seq 0 16) ++
        flat_map (fun r =>
            flat_map (fun c =>
              if (negb (r =? row) || negb (c =? col)) && holds board r c value
              then [(r, c); (row, col)] else []) (seq (col / 4 * 4) 4))
            (seq (row / 4 * 4) 4)) <->
  exists r c, (r < 16 /\ c < 16 /\ (r, c) <> (row, col) /\
               sameUnit (r, c) (row, col) /\ cell board r c = Some value) /\
              (p = (r, c) \/ p = (row, col)).
Proof.
  intros Hrow Hcol. rewrite !in_app_iff.
  rewrite (in_flagged_pairs (fun c => negb (c =? col) && holds board row c value)
             (fun c => (row, c))).
  rewrite (in_flagged_pairs (fun r => negb (r =? row) && holds board r col value)
             (fun r => (r, col))).
  rewrite in_flat_map. unfold sameUnit. cbn [fst snd]. split.
  - intros [(c & Hin & Hf & Hp)|[(r & Hin & Hf & Hp)|(r & Hin & Hp)]].
    + apply andb_true_iff in Hf as [Hne Hh]. apply negb_true_iff, Nat.eqb_neq in Hne.
      apply holds_true in Hh. exists row, c. split; [|exact Hp].
      split_all; [lia|lia|congruence|auto|exact Hh].
    + apply andb_true_iff in Hf as [Hne Hh]. apply negb_true_iff, Nat.eqb_neq in Hne.
      apply holds_true in Hh. exists r, col. split; [|exact Hp].
      split_all; [lia|lia|congruence|auto|exact Hh].
    + apply in_seq, block_range in Hin.
      apply (in_flagged_pairs (fun c => (negb (r =? row) || negb (c =? col))
                                        && holds board r c value)
               (fun c => (r, c))) in Hp as (c & Hin' & Hf & Hp).
      apply block_range in Hin'.
      apply andb_true_iff in Hf as [Hne Hh]. apply holds_true in Hh.
      exists r, c. split; [|exact Hp].
      split_all; [by apply (block_lt_16 r row)|by apply (block_lt_16 c col)| |auto|exact Hh].
      intros [= -> ->]. rewrite !Nat.eqb_refl in Hne. discriminate.
  - intros (r & c & (Hr & Hc & Hne & Hunit & Hcell) & Hp). apply holds_true in Hcell.
    destruct (decide (r = row)) as [-> | Hrr].
    { left. exists c. split; [lia|]. split; [|exact Hp].
      rewrite Hcell, andb_true_r. apply negb_true_iff, Nat.eqb_neq. congruence. }
    destruct (decide (c = col)) as [-> | Hcc].
    { right. left. exists r. split; [lia|]. split; [|exact Hp].
      rewrite Hcell, andb_true_r. apply negb_true_iff, Nat.eqb_neq. congruence. }
    destruct Hunit as [?|[?|[Hbr Hbc]]]; [done|done|].
    right. right. exists r. split; [apply in_seq, block_range; exact Hbr|].
    apply (in_flagged_pairs (fun c => (negb (r =? row) || negb (c =? col))
                                      && holds board r c value)
             (fun c => (r, c))).
    exists c. split; [apply block_range; exact Hbc|]. split; [|exact Hp].
    rewrite Hcell, andb_true_r. apply orb_true_iff. left.
    apply negb_true_iff, Nat.eqb_neq. exact Hrr.
Qed.

Lemma getConflicts_NoDup board row col : NoDup (getConflicts board row col).
Proof.
  unfold getConflicts. destruct (cell board row col) as [value|]; [|constructor].
  destruct (negb (truthy (Some value))); [constructor|].
  apply removeDuplicates_spec.
Qed.

Lemma getConflicts_In board row col (p : Coord) :
  row < 16 -> col < 16 ->
  In p (getConflicts board row col) <->
  conflictsWith board row col p \/
  (p = (row, col) /\ exists q, conflictsWith board row col q).
Proof.
  intros Hrow Hcol. unfold getConflicts, conflictsWith, inGrid.
  destruct (cell board row col) as [value|] eqn:Hcell.
  2:{ simpl. split; [intros []|].
      intros [(v & Hv & _)|(_ & q & v & Hv & _)]; discriminate. }
  simpl. destruct (String.eqb value "") eqn:Hempty; simpl.
  { apply String.eqb_eq in Hempty. split; [intros []|].
    intros [(v & [= <-] & Hv & _)|(_ & q & v & [= <-] & Hv & _)]; contradiction. }
  apply String.eqb_neq in Hempty.
  rewrite (proj2 (removeDuplicates_spec _)).
  rewrite (in_raw_conflicts board row col value p Hrow Hcol). split.
  - intros (r & c & (Hr & Hc & Hne & Hunit & Hq) & [-> | ->]).
    + left. exists value. split_all; auto.
    + right. split; [reflexivity|]. exists (r, c), value. split_all; auto.
  - intros [(v & [= <-] & _ & [Hr Hc] & Hne & Hunit & Hq)
           |(-> & q & v & [= <-] & _ & [Hr Hc] & Hne & Hunit & Hq)].
    + destruct p as [r c]. exists r, c. split; [|left; reflexivity]. split_all; auto.
    + destruct q as [r c]. exists r, c. split; [|right; reflexivity]. split_all; auto.
Qed.

Lemma conflictsWith_sym board row col r c :
  row < 16 -> col < 16 ->
  conflictsWith board row col (r, c) -> conflictsWith board r c (row, col).
Proof.
  intros Hrow Hcol (v & Hv & Hne & [Hr Hc] & Hdiff & Hunit & Hq). cbn [fst snd] in *.
  exists v. split_all; [exact Hq|exact Hne|split; assumption|congruence|
                     apply sameUnit_sym; exact Hunit|exact Hv].
Qed.

(** C3 (as amended). An empty cell has no conflicts.  For a filled cell the
    result has no duplicates and consists of every other cell of the row,
    column or block that holds the same value, together with the cell itself
    when there is at least one such other cell; with none, the result is
    empty.  Membership is symmetric, and both cells then contain themselves. *)
Theorem getConflicts_spec (board : Board) (row col : nat) :
  wf_board board -> row < 16 -> col < 16 ->
  (cell board row col = None -> getConflicts board row col = []) /\
  NoDup (getConflicts board row col) /\
  (forall p, In p (getConflicts board row col) <->
     conflictsWith board row col p \/
     (p = (row, col) /\ exists q, conflictsWith board row col q)) /\
  (forall r c, r < 16 -> c < 16 -> In (r, c) (getConflicts board row col) ->
     In (row, col) (getConflicts board r c) /\
     In (r, c) (getConflicts board r c) /\
     In (row, col) (getConflicts board row col)).
Proof.
  intros _ Hrow Hcol. split_all.
  - intros Hnone. unfold getConflicts. rewrite Hnone. reflexivity.
  - apply getConflicts_NoDup.
  - intros p. apply getConflicts_In; assumption.
  - intros r c Hr Hc Hin.
    pose proof Hin as Hin'. apply getConflicts_In in Hin' as [Hcw|[Heq _]]; [| |assumption..].
    + pose proof (conflictsWith_sym board row col r c Hrow Hcol Hcw) as Hsym. split_all.
      * apply getConflicts_In; [assumption..|]. left. exact Hsym.
      * apply getConflicts_In; [assumption..|]. right. split; [reflexivity|].
        exists (row, col). exact Hsym.
      * apply getConflicts_In; [assumption..|]. right. split; [reflexivity|].
        exists (r, c). exact Hcw.
    + injection Heq as -> ->. auto.
Qed.

Lemma getConflicts_spec_witness :
  (cell sampleAmbiguous 0 1 = None -> getConflicts sampleAmbiguous 0 1 = []) /\
  NoDup (getConflicts sampleAmbiguous 0 1) /\
  (forall p, In p (getConflicts sampleAmbiguous 0 1) <->
     conflictsWith sampleAmbiguous 0 1 p \/
     (p = (0, 1) /\ exists q, conflictsWith sampleAmbiguous 0 1 q)) /\
  (forall r c, r < 16 -> c < 16 -> In (r, c) (getConflicts sampleAmbiguous 0 1) ->
     In (0, 1) (getConflicts sampleAmbiguous r c) /\
     In (r, c) (getConflicts sampleAmbiguous r c) /\
     In (0, 1) (getConflicts sampleAmbiguous 0 1)).
Proof.
  apply (getConflicts_spec sampleAmbiguous 0 1); [|lia|lia].
  unfold sampleAmbiguous. repeat apply wf_setCell. apply wf_sampleSolved.
Defined.

(** C3, as stated, fails: a filled cell without any conflicting cell is not
    part of its own conflict set. *)
Lemma getConflicts_lone_cell_counterexample :
  cell sampleSolved 0 0 = Some "0" /\ ~ In (0, 0) (getConflicts sampleSolved 0 0).
Proof. split; [reflexivity|]. vm_compute. intros H. exact H. Qed.

(** ** The query functions leave the caller's grid alone *)

Section ReadOnly.
Lemma forEach_test {A R} (l : list A) (body : A -> InPlace.Prog (option R))
    (t : A -> Board -> bool) (v : R) :
  (forall x board, body x board = (if t x board then Some v else None, board)) ->
  forall board,
    InPlace.forEach l body board = (if existsb (fun x => t x board) l then Some v else None, board).
Proof.
  intros Hbody board. induction l as [|x l IH]; [reflexivity|].
  cbn [InPlace.forEach existsb]. unfold mbind, InPlace.Prog_bind. rewrite Hbody.
  destruct (t x board); [reflexivity|]. exact IH.
Qed.

Lemma foldEach_pure {A S} (l : list A) (body : S -> A -> InPlace.Prog S)
    (g : S -> A -> Board -> S) :
  (forall s x board, body s x board = (g s x board, board)) ->
  forall s board, InPlace.foldEach l body s board = (foldl (fun s x => g s x board) s l, board).
Proof.
  intros Hbody s board. revert s. induction l as [|x l IH]; intros s; [reflexivity|].
  cbn [InPlace.foldEach foldl]. unfold mbind, InPlace.Prog_bind. rewrite Hbody. apply IH.
Qed.

Lemma foldl_push {A B} (F : A -> list B) (l : list A) (init : list B) :
  foldl (fun acc x => acc ++ F x) init l = init ++ flat_map F l.
Proof.
  revert init. induction l as [|x l IH]; intros init; simpl.
  - rewrite app_nil_r. reflexivity.
  - rewrite IH, app_assoc. reflexivity.
Qed.

Lemma isValidMove_readsOnly row col value :
  readsOnly (InPlace.isValidMove row col value)
            (fun board => isValidMove board row col value).
Proof.
  intros board. unfold InPlace.run, InPlace.isValidMove, isValidMove.
  cbv zeta. unfold mbind, InPlace.Prog_bind.
  rewrite (forEach_test _ _
             (fun c board => negb (c =? col) && holds board row c value) false)
    by reflexivity.
  destruct (existsb _ _); [reflexivity|].
  rewrite (forEach_test _ _
             (fun r board => negb (r =? row) && holds board r col value) false)
    by reflexivity.
  destruct (existsb _ _); [reflexivity|].
  rewrite (forEach_test _ _
             (fun r board => existsb (fun c =>
                (negb (r =? row) || negb (c =? col)) && holds board r c value)
                (seq (col / 4 * 4) 4)) false).
  2:{ intros r b.
      apply (forEach_test _ _
               (fun c board => (negb (r =? row) || negb (c =? col)) && holds board r c value)
               false). reflexivity. }
  destruct (existsb _ _); reflexivity.
Qed.

Lemma getConflicts_readsOnly row col :
  readsOnly (InPlace.getConflicts row col)
            (fun board => getConflicts board row col).
Proof.
  intros board. unfold InPlace.run, InPlace.getConflicts, getConflicts.
  cbv zeta. unfold mbind, InPlace.Prog_bind, InPlace.readCell.
  destruct (cell board row col) as [value|] eqn:Hcell; [|reflexivity].
  destruct (negb (truthy (Some value))); [reflexivity|].
  rewrite (foldEach_pure _ _
             (fun conflicts c board =>
                conflicts ++ (if negb (c =? col) && holds board row c value
                              then [(row, c); (row, col)] else []))).
  2:{ intros s c b. unfold mret, InPlace.Prog_ret, holds.
      destruct (negb (c =? col) && _); [reflexivity|]. rewrite app_nil_r. reflexivity. }
  rewrite foldl_push. cbn [app].
  rewrite (foldEach_pure _ _
             (fun conflicts r board =>
                conflicts ++ (if negb (r =? row) && holds board r col value
                              then [(r, col); (row, col)] else []))).
  2:{ intros s r b. unfold mret, InPlace.Prog_ret, holds.
      destruct (negb (r =? row) && _); [reflexivity|]. rewrite app_nil_r. reflexivity. }
  rewrite foldl_push.
  rewrite (foldEach_pure _ _
             (fun conflicts r board =>
                conflicts ++ flat_map (fun c =>
                  if (negb (r =? row) || negb (c =? col)) && holds board r c value
                  then [(r, c); (row, col)] else []) (seq (col / 4 * 4) 4))).
  2:{ intros s r b.
      rewrite (foldEach_pure _ _
                 (fun conflicts c board =>
                    conflicts ++ (if (negb (r =? row) || negb (c =? col))
                                     && holds board r c value
                                  then [(r, c); (row, col)] else []))).
      2:{ intros s' c b'. unfold mret, InPlace.Prog_ret, holds.
          destruct ((negb (r =? row) || negb (c =? col)) && _); [reflexivity|].
          rewrite app_nil_r. reflexivity. }
      rewrite foldl_push. reflexivity. }
  rewrite foldl_push, <- app_assoc. reflexivity.
Qed.

Lemma isSolved_readsOnly :
  readsOnly InPlace.isSolved (fun board => isSolved board).
Proof.
  intros board. unfold InPlace.run, InPlace.isSolved, isSolved.
  unfold mbind, InPlace.Prog_bind.
  rewrite (forEach_test _ _
             (fun row board => existsb (fun col => negb (truthy (cell board row col)))
                                 (seq 0 16)) false).
  2:{ intros r b.
      apply (forEach_test _ _ (fun col board => negb (truthy (cell board r col))) false).
      reflexivity. }
  destruct (existsb _ _); [reflexivity|].
  rewrite (forEach_test _ _
             (fun row board =>
                existsb (fun col => 0 <? length (getConflicts board row col))
                  (seq 0 16)) false).
  2:{ intros r b.
      apply (forEach_test _ _
               (fun col board => 0 <? length (getConflicts board r col)) false).
      intros c b'. pose proof (getConflicts_readsOnly r c b') as H. unfold InPlace.run in H.
      rewrite H. reflexivity. }
  destruct (existsb _ _); reflexivity.
Qed.

Lemma getValueCompletionStats_readsOnly :
  readsOnly InPlace.getValueCompletionStats
            (fun board => getValueCompletionStats board).
Proof.
  intros board. unfold InPlace.run, InPlace.getValueCompletionStats,
    getValueCompletionStats. cbv zeta. unfold mbind, InPlace.Prog_bind.
  rewrite (foldEach_pure _ _
             (fun stats row board =>
                foldl (fun stats col => countValue stats (cell board row col))
                  stats (seq 0 16))).
  2:{ intros s r b.
      apply (foldEach_pure _ _ (fun stats col board => countValue stats (cell board r col))).
      reflexivity. }
  reflexivity.
Qed.

Lemma getNextValueToTackle_readsOnly :
  readsOnly InPlace.getNextValueToTackle
            (fun board => getNextValueToTackle board).
Proof.
  intros board. unfold InPlace.run, InPlace.getNextValueToTackle, getNextValueToTackle.
  unfold mbind, InPlace.Prog_bind.
  pose proof (getValueCompletionStats_readsOnly board) as H. unfold InPlace.run in H.
  rewrite H. reflexivity.
Qed.

End ReadOnly.

(** C9. Run on any grid, each of [isValidMove], [getConflicts], [isSolved],
    [getValueCompletionStats] and [getNextValueToTackle] leaves every cell of
    that grid as it was (and returns the value of the function). *)
Theorem queries_do_not_mutate (board : Board) (row col : nat) (value : string) :
  InPlace.run (InPlace.isValidMove row col value) board
    = (isValidMove board row col value, board) /\
  InPlace.run (InPlace.getConflicts row col) board = (getConflicts board row col, board) /\
  InPlace.run InPlace.isSolved board = (isSolved board, board) /\
  InPlace.run InPlace.getValueCompletionStats board
    = (getValueCompletionStats board, board) /\
  InPlace.run InPlace.getNextValueToTackle board = (getNextValueToTackle board, board).
Proof.
  split_all.
  - apply isValidMove_readsOnly.
  - apply getConflicts_readsOnly.
  - apply isSolved_readsOnly.
  - apply getValueCompletionStats_readsOnly.
  - apply getNextValueToTackle_readsOnly.
Qed.

(** ** Hint module *)

Lemma Qltb_true (a b : Q) : Qltb a b = true <-> (a < b)%Q.
Proof.
  unfold Qltb. rewrite negb_true_iff. split.
  - intros H. apply Qnot_le_lt. intros Hle. apply Qle_bool_iff in Hle. congruence.
  - intros H. apply not_true_iff_false. intros Hle. apply Qle_bool_iff in Hle.
    apply Qlt_not_le in H. contradiction.
Qed.

Lemma pickNextValue_none (stats : Stats) :
  (forall value data, In (value, data) stats -> ~ (percentage data < 100)%Q) ->
  pickNextValue stats = {| nv_value := None; nv_percentage := (-1)%Z; nv_remaining := 0%Z |}.
Proof.
  intros Hall. unfold pickNextValue.
  assert (Hfold : forall (acc : option string * Q),
            foldl (fun (acc : option string * Q) (entry : string * ValueStats) =>
              let '(nextValue, highestPercentage) := acc in
              let '(value, data) := entry in
              if Qltb highestPercentage (percentage data) && Qltb (percentage data) 100%Q
              then (Some value, percentage data)
              else acc) acc stats = acc).
  { induction stats as [|[value data] stats IH]; intros acc; [reflexivity|].
    cbn [foldl]. destruct acc as [nextValue highest].
    assert (Qltb (percentage data) 100 = false) as ->.
    { apply not_true_iff_false. rewrite Qltb_true. apply (Hall value). left. reflexivity. }
    rewrite andb_false_r. apply IH. intros v d Hin. apply (Hall v). right. exact Hin. }
  rewrite Hfold. reflexivity.
Qed.

(** C10. When no symbol has a completion percentage below 100 (as on a
    solved grid), [getNextValueToTackle] returns no value, the rounded
    initial percentage -1, and 0 remaining. *)
Theorem getNextValueToTackle_nothing_left (board : Board) :
  (forall value data, In (value, data) (getValueCompletionStats board) ->
     ~ (percentage data < 100)%Q) ->
  getNextValueToTackle board
  = {| nv_value := None; nv_percentage := (-1)%Z; nv_remaining := 0%Z |}.
Proof. intros Hall. unfold getNextValueToTackle. apply pickNextValue_none. exact Hall. Qed.

Lemma getNextValueToTackle_nothing_left_witness :
  getNextValueToTackle sampleSolved
  = {| nv_value := None; nv_percentage := (-1)%Z; nv_remaining := 0%Z |}.
Proof.
  apply (getNextValueToTackle_nothing_left sampleSolved).
  intros value data Hin. vm_compute in Hin.
  repeat (destruct Hin as [Hin|Hin]; [injection Hin as _ <-; vm_compute; discriminate|]).
  destruct Hin.
Defined.

(** ** Scanning and counting cells *)

Lemma in_allCoords (p : Coord) : In p allCoords <-> inGrid p.
Proof.
  unfold allCoords, inGrid. rewrite in_flat_map. destruct p as [r c]. cbn [fst snd]. split.
  - intros (row & Hrow & Hin). apply in_map_iff in Hin as (col & [= <- <-] & Hcol).
    apply in_seq in Hrow, Hcol. lia.
  - intros [Hr Hc]. exists r. split; [apply in_seq; lia|].
    apply in_map_iff. exists c. split; [reflexivity|apply in_seq; lia].
Qed.

Lemma NoDup_allCoords : NoDup allCoords.
Proof.
  apply (NoDup_fmap_1 (fun p : Coord => p.1 * 16 + p.2)).
  change (NoDup (seq 0 256)). apply NoDup_seq.
Qed.

(** Changing the test at one coordinate from true to false removes one
    element from the filtered scan. *)
Lemma filter_length_flip (f g : Coord -> bool) (l : list Coord) (p : Coord) :
  NoDup l -> In p l -> (forall q, q <> p -> f q = g q) ->
  f p = true -> g p = false ->
  length (List.filter f l) = S (length (List.filter g l)).
Proof.
  intros Hnd Hin Hother Hf Hg. induction l as [|q l IH]; [destruct Hin|].
  apply NoDup_cons in Hnd as [Hq Hnd]. rewrite list_elem_of_In in Hq. simpl.
  destruct (decide (q = p)) as [-> | Hne].
  - rewrite Hf, Hg. simpl. f_equal.
    f_equal. apply List.filter_ext_in. intros a Ha. apply Hother. intros ->. contradiction.
  - destruct Hin as [?|Hin]; [contradiction|].
    rewrite (Hother q Hne). destruct (g q); simpl; rewrite (IH Hnd Hin); reflexivity.
Qed.

Lemma filter_length_same (f g : Coord -> bool) (l : list Coord) :
  (forall q, In q l -> f q = g q) -> length (List.filter f l) = length (List.filter g l).
Proof. intros H. f_equal. apply List.filter_ext_in. exact H. Qed.

Lemma countFalsy_fill board row col value :
  wf_board board -> row < 16 -> col < 16 ->
  truthy (cell board row col) = false -> value <> "" ->
  countFalsy board = S (countFalsy (setCell board row col (Some value))).
Proof.
  intros Hwf Hrow Hcol Hfalsy Hvalue. unfold countFalsy.
  apply (filter_length_flip _ _ allCoords (row, col)).
  - apply NoDup_allCoords.
  - apply in_allCoords. split; assumption.
  - intros [r c] Hne. cbn [fst snd]. rewrite cell_setCell_ne by assumption. reflexivity.
  - cbn [fst snd]. rewrite Hfalsy. reflexivity.
  - cbn [fst snd]. rewrite cell_setCell_eq by assumption. simpl.
    apply String.eqb_neq in Hvalue. rewrite Hvalue. reflexivity.
Qed.

Lemma countFalsy_clear board row col :
  wf_board board -> row < 16 -> col < 16 ->
  countFalsy (setCell board row col None) <= S (countFalsy board).
Proof.
  intros Hwf Hrow Hcol.
  destruct (truthy (cell board row col)) eqn:Ht.
  - apply Nat.eq_le_incl. unfold countFalsy.
    apply (filter_length_flip _ _ allCoords (row, col)).
    + apply NoDup_allCoords.
    + apply in_allCoords. split; assumption.
    + intros [r c] Hne. cbn [fst snd]. rewrite cell_setCell_ne by assumption. reflexivity.
    + cbn [fst snd]. rewrite cell_setCell_eq by assumption. reflexivity.
    + cbn [fst snd]. rewrite Ht. reflexivity.
  - apply Nat.lt_le_incl, Nat.lt_succ_r, Nat.eq_le_incl. unfold countFalsy.
    apply filter_length_same. intros [r c] _. cbn [fst snd].
    destruct (decide ((r, c) = (row, col))) as [[= -> ->]|Hne].
    + rewrite cell_setCell_eq by assumption. rewrite Ht. reflexivity.
    + rewrite cell_setCell_ne by assumption. reflexivity.
Qed.

Lemma firstFalsy_Some board row col :
  firstFalsy board = Some (row, col) ->
  row < 16 /\ col < 16 /\ truthy (cell board row col) = false.
Proof.
  unfold firstFalsy. intros H. apply find_some in H as [Hin Hp].
  apply in_allCoords in Hin as [Hr Hc]. cbn [fst snd] in *.
  apply negb_true_iff in Hp. auto.
Qed.

Lemma HEX_VALUES_nonempty value : In value HEX_VALUES -> value <> "".
Proof. intros Hin ->. vm_compute in Hin. intuition discriminate. Qed.

(** ** The solution counters return *)

Section BruteTotal.
Variable maxSolutions : nat.
Variable bound : nat.
Variable rec : BruteState -> option (bool * BruteState).
Hypothesis rec_total : forall board n,
  wf_board board -> countFalsy board < bound ->
  exists res board' n',
    rec (board, n) = Some (res, (board', n')) /\
    wf_board board' /\ countFalsy board' <= countFalsy board.

Lemma tryBrute_total row col values board n :
  row < 16 -> col < 16 -> Forall (fun v => v <> "") values ->
  wf_board board -> truthy (cell board row col) = false -> countFalsy board <= bound ->
  exists res board' n',
    tryBrute rec maxSolutions row col values (board, n) = Some (res, (board', n')) /\
    wf_board board' /\ countFalsy board' <= countFalsy board.
Proof.
  intros Hrow Hcol Hvalues. revert board n.
  induction Hvalues as [|value values Hvalue _ IH]; intros board n Hwf Hfalsy Hbound.
  { exists false, board, n. simpl. auto. }
  cbn [tryBrute]. destruct (isValidMove board row col value); [|apply IH; assumption].
  pose proof (countFalsy_fill board row col value Hwf Hrow Hcol Hfalsy Hvalue) as Hfill.
  destruct (rec_total (setCell board row col (Some value)) n) as
    (res & board1 & n1 & -> & Hwf1 & Hle1); [by apply wf_setCell|lia|].
  assert (Hnext : forall m, exists res board' n',
            tryBrute rec maxSolutions row col values (setCell board1 row col None, m)
              = Some (res, (board', n')) /\
            wf_board board' /\ countFalsy board' <= countFalsy board).
  { intros m.
    pose proof (countFalsy_clear board1 row col Hwf1 Hrow Hcol) as Hclear.
    destruct (IH (setCell board1 row col None) m) as (res' & board' & n' & Heq & Hwf' & Hle').
    - by apply wf_setCell.
    - rewrite cell_setCell_eq by assumption. reflexivity.
    - lia.
    - exists res', board', n'. split_all; [exact Heq|exact Hwf'|lia]. }
  destruct res.
  - destruct (maxSolutions <=? S n1); [|apply Hnext].
    exists true, board1, (S n1). split_all; [reflexivity|exact Hwf1|lia].
  - apply Hnext.
Qed.
End BruteTotal.

Lemma HEX_VALUES_Forall_nonempty : Forall (fun v => v <> "") HEX_VALUES.
Proof. apply Forall_forall. intros v Hv. apply HEX_VALUES_nonempty, list_elem_of_In, Hv. Qed.

Lemma solveBrute_total fuel maxSolutions board n :
  wf_board board -> countFalsy board < fuel ->
  exists res board' n',
    solveBrute fuel maxSolutions (board, n) = Some (res, (board', n')) /\
    wf_board board' /\ countFalsy board' <= countFalsy board.
Proof.
  revert board n. induction fuel as [|fuel IH]; intros board n Hwf Hlt; [lia|].
  cbn [solveBrute fst]. destruct (firstFalsy board) as [[row col]|] eqn:Hfirst.
  - apply firstFalsy_Some in Hfirst as (Hrow & Hcol & Hfalsy).
    apply (tryBrute_total maxSolutions fuel); auto using HEX_VALUES_Forall_nonempty with lia.
  - exists true, board, n. auto.
Qed.

Lemma solveBruteLimited_total fuel maxSolutions maxDepth depth board n :
  wf_board board -> countFalsy board < fuel ->
  exists res board' n',
    solveBruteLimited fuel maxSolutions maxDepth depth (board, n)
      = Some (res, (board', n')) /\
    wf_board board' /\ countFalsy board' <= countFalsy board.
Proof.
  revert depth board n. induction fuel as [|fuel IH]; intros depth board n Hwf Hlt; [lia|].
  cbn [solveBruteLimited fst]. destruct (maxDepth <=? depth).
  { exists true, board, n. auto. }
  destruct (firstFalsy board) as [[row col]|] eqn:Hfirst.
  - apply firstFalsy_Some in Hfirst as (Hrow & Hcol & Hfalsy).
    apply (tryBrute_total maxSolutions fuel); auto using HEX_VALUES_Forall_nonempty with lia.
  - exists true, board, n. auto.
Qed.

Lemma countFalsy_lt_fuel board : countFalsy board < searchFuel.
Proof.
  unfold countFalsy, searchFuel. apply Nat.lt_succ_r.
  etransitivity; [apply List.filter_length_le|]. reflexivity.
Qed.

Lemma countSolutions_total board maxSolutions :
  wf_board board -> exists n, countSolutions board maxSolutions = Some n.
Proof.
  intros Hwf. unfold countSolutions.
  destruct (solveBrute_total searchFuel maxSolutions board 0 Hwf (countFalsy_lt_fuel board))
    as (res & board' & n' & -> & _). exists n'. reflexivity.
Qed.

Lemma hasUniqueSolution_total board :
  wf_board board -> exists unique, hasUniqueSolution board = Some unique.
Proof.
  intros Hwf. unfold hasUniqueSolution.
  destruct (countSolutions_total board 2 Hwf) as [n ->]. eexists. reflexivity.
Qed.

Lemma hasLimitedUniqueSolution_total puzzle :
  wf_board puzzle -> exists unique, hasLimitedUniqueSolution puzzle = Some unique.
Proof.
  intros Hwf. unfold hasLimitedUniqueSolution, countSolutionsLimited.
  change (50 <=? 0) with false. cbv iota.
  destruct (solveBruteLimited_total searchFuel 2 50 0 puzzle 0 Hwf (countFalsy_lt_fuel puzzle))
    as (res & board' & n' & -> & _). eexists. reflexivity.
Qed.

(** ** Phase 2: guided removal *)

Lemma guidedLoop_stopped difficulty remaining maxAttempts cells st :
  g_stopped st = true ->
  guidedLoop difficulty remaining maxAttempts cells st = Some st.
Proof.
  intros Hs. induction cells as [|c cells IH]; [reflexivity|].
  cbn [guidedLoop]. unfold guidedStep. rewrite Hs. simpl. exact IH.
Qed.

Lemma guidedStep_running difficulty remaining maxAttempts st cell_ st' :
  wf_board (g_puzzle st) ->
  guidedStep difficulty remaining maxAttempts st cell_ = Some st' ->
  wf_board (g_puzzle st') /\
  (g_stopped st' = false ->
   g_stopped st = false /\ g_attempts st' = S (g_attempts st)).
Proof.
  intros Hwf. unfold guidedStep.
  destruct (g_stopped st) eqn:Hs.
  { intros [= <-]. split; [exact Hwf|]. congruence. }
  destruct (guidedBreak remaining maxAttempts st).
  { intros [= <-]. split; [exact Hwf|]. simpl. discriminate. }
  destruct (shouldValidate difficulty (S (g_attempts st))).
  - destruct (hasLimitedUniqueSolution _) as [[|]|]; simpl; [| |discriminate];
      intros [= <-]; simpl; (split; [repeat apply wf_setCell; exact Hwf|auto]).
  - intros [= <-]. simpl. split; [apply wf_setCell; exact Hwf|auto].
Qed.

Lemma guidedLoop_running difficulty remaining maxAttempts cells st st' :
  wf_board (g_puzzle st) ->
  guidedLoop difficulty remaining maxAttempts cells st = Some st' ->
  wf_board (g_puzzle st') /\
  (g_stopped st' = false ->
   g_stopped st = false /\ g_attempts st' = g_attempts st + length cells).
Proof.
  revert st. induction cells as [|c cells IH]; intros st Hwf.
  { intros [= <-]. split; [exact Hwf|]. simpl. auto with lia. }
  cbn [guidedLoop].
  destruct (guidedStep difficulty remaining maxAttempts st c) as [st1|] eqn:Hstep;
    [|discriminate].
  simpl. intros Hloop.
  destruct (guidedStep_running _ _ _ _ _ _ Hwf Hstep) as [Hwf1 Hrun1].
  destruct (IH st1 Hwf1 Hloop) as [Hwf' Hrun']. split; [exact Hwf'|].
  intros Hs. destruct (Hrun' Hs) as [Hs1 Ha']. destruct (Hrun1 Hs1) as [Hs0 Ha1].
  split; [exact Hs0|]. simpl. lia.
Qed.

(** C8. In the removal loop of phase 2, the cell reached after [pre] is
    attempt number [length pre + 1].  The bounded uniqueness check is due on
    multiples of 3 for "easy", on even attempts for "medium" and always for
    "hard".  When it is due and fails, the grid is as before the attempt and
    the count of removed cells is unchanged; in every other case the cell
    stays cleared and the count grows by one. *)
Theorem guided_removal_sampling (difficulty : string) (remainingToRemove maxAttempts : nat)
    (puzzle : Board) (pre : list PriorityCell) (cell_ : PriorityCell) (st : GuidedState) :
  wf_board puzzle ->
  In difficulty ["easy"; "medium"; "hard"] ->
  guidedLoop difficulty remainingToRemove maxAttempts pre
    {| g_puzzle := puzzle; g_removedCells := 0; g_attempts := 0; g_stopped := false |}
    = Some st ->
  g_stopped st = false ->
  guidedBreak remainingToRemove maxAttempts st = false ->
  let attempt := S (length pre) in
  let cleared := setCell (g_puzzle st) (prow cell_) (pcol cell_) None in
  let due :=
    if String.eqb difficulty "easy" then attempt mod 3 =? 0
    else if String.eqb difficulty "medium" then attempt mod 2 =? 0
    else true in
  let kept :=
    {| g_puzzle := cleared; g_removedCells := S (g_removedCells st);
       g_attempts := attempt; g_stopped := false |} in
  let restored :=
    {| g_puzzle := g_puzzle st; g_removedCells := g_removedCells st;
       g_attempts := attempt; g_stopped := false |} in
  g_attempts st = length pre /\
  exists unique,
    hasLimitedUniqueSolution cleared = Some unique /\
    guidedStep difficulty remainingToRemove maxAttempts st cell_
      = Some (if due && negb unique then restored else kept).
Proof.
  intros Hwf Hdiff Hloop Hs Hbreak. cbv zeta.
  destruct (guidedLoop_running difficulty remainingToRemove maxAttempts pre
              {| g_puzzle := puzzle; g_removedCells := 0; g_attempts := 0;
                 g_stopped := false |} st Hwf Hloop) as [Hwfst Hrun].
  destruct (Hrun Hs) as [_ Hattempts]. simpl in Hattempts. split; [exact Hattempts|].
  destruct (hasLimitedUniqueSolution_total
              (setCell (g_puzzle st) (prow cell_) (pcol cell_) None)) as [unique Hunique];
    [apply wf_setCell; exact Hwfst|].
  exists unique. split; [exact Hunique|].
  unfold guidedStep. rewrite Hs, Hbreak, Hattempts, Hunique. simpl.
  rewrite setCell_restore.
  assert (Hdue : shouldValidate difficulty (S (length pre)) =
                 (if String.eqb difficulty "easy" then S (length pre) mod 3 =? 0
                  else if String.eqb difficulty "medium" then S (length pre) mod 2 =? 0
                  else true)).
  { unfold shouldValidate.
    destruct Hdiff as [<-|[<-|[<-|[]]]]; cbn [String.eqb Ascii.eqb Bool.eqb andb];
      repeat match goal with |- context [?a mod ?b =? 0] => destruct (a mod b =? 0) end;
      reflexivity. }
  rewrite Hdue.
  destruct (if String.eqb difficulty "easy" then _ else _); [|reflexivity].
  destruct unique; reflexivity.
Qed.

Lemma guided_removal_sampling_witness :
  let st := {| g_puzzle := setCell (setCell sampleSolved 0 0 None) 0 1 None;
               g_removedCells := 2; g_attempts := 2; g_stopped := false |} in
  let cell_ := {| prow := 0; pcol := 2; priority := 47%Q |} in
  let cleared := setCell (g_puzzle st) 0 2 None in
  g_attempts st = 2 /\
  exists unique,
    hasLimitedUniqueSolution cleared = Some unique /\
    guidedStep "easy" 24 48 st cell_
      = Some (if (3 mod 3 =? 0) && negb unique
              then {| g_puzzle := g_puzzle st; g_removedCells := 2;
                      g_attempts := 3; g_stopped := false |}
              else {| g_puzzle := cleared; g_removedCells := 3;
                      g_attempts := 3; g_stopped := false |}).
Proof.
  exact (guided_removal_sampling "easy" 24 48 sampleSolved
           [ {| prow := 0; pcol := 0; priority := 47%Q |};
             {| prow := 0; pcol := 1; priority := 47%Q |} ]
           {| prow := 0; pcol := 2; priority := 47%Q |}
           {| g_puzzle := setCell (setCell sampleSolved 0 0 None) 0 1 None;
              g_removedCells := 2; g_attempts := 2; g_stopped := false |}
           wf_sampleSolved (or_introl eq_refl) eq_refl eq_refl eq_refl).
Defined.

(** ** Grids without repetitions *)

Lemma countNull_fill board row col value :
  wf_board board -> row < 16 -> col < 16 -> cell board row col = None ->
  countNull board = S (countNull (setCell board row col (Some value))).
Proof.
  intros Hwf Hrow Hcol Hnull. unfold countNull.
  apply (filter_length_flip _ _ allCoords (row, col)).
  - apply NoDup_allCoords.
  - apply in_allCoords. split; assumption.
  - intros [r c] Hne. cbn [fst snd]. rewrite cell_setCell_ne by assumption. reflexivity.
  - cbn [fst snd]. rewrite Hnull. reflexivity.
  - cbn [fst snd]. rewrite cell_setCell_eq by assumption. reflexivity.
Qed.

Lemma countNull_lt_fuel board : countNull board < searchFuel.
Proof.
  unfold countNull, searchFuel. apply Nat.lt_succ_r.
  etransitivity; [apply List.filter_length_le|]. reflexivity.
Qed.

Lemma firstNull_Some board row col :
  firstNull board = Some (row, col) -> row < 16 /\ col < 16 /\ cell board row col = None.
Proof.
  unfold firstNull. intros H. apply find_some in H as [Hin Hp].
  apply in_allCoords in Hin as [Hr Hc]. cbn [fst snd] in *.
  destruct (cell board row col); [discriminate|]. auto.
Qed.

Lemma firstNull_None board : firstNull board = None -> full board.
Proof.
  unfold firstNull, full. intros H r c Hr Hc Hnull.
  pose proof (find_none _ _ H (r, c)) as Hp. cbn [fst snd] in Hp.
  rewrite Hnull in Hp. discriminate Hp. apply in_allCoords. split; assumption.
Qed.

Lemma cell_setCell_cases board row col x r c :
  wf_board board -> row < 16 -> col < 16 ->
  ((r, c) = (row, col) /\ cell (setCell board row col x) r c = x) \/
  ((r, c) <> (row, col) /\ cell (setCell board row col x) r c = cell board r c).
Proof.
  intros Hwf Hrow Hcol. destruct (decide ((r, c) = (row, col))) as [[= -> ->]|Hne].
  - left. split; [reflexivity|]. apply cell_setCell_eq; assumption.
  - right. split; [exact Hne|]. apply cell_setCell_ne. exact Hne.
Qed.

Lemma validPartial_fill board row col value :
  validPartial board -> row < 16 -> col < 16 -> In value HEX_VALUES ->
  isValidMove board row col value = true ->
  validPartial (setCell board row col (Some value)).
Proof.
  intros (Hwf & Hhex & Hcons) Hrow Hcol Hvalue Hvalid.
  apply isValidMove_true in Hvalid; [|assumption..].
  unfold validPartial. split_all.
  - apply wf_setCell. exact Hwf.
  - intros r c s Hs.
    destruct (cell_setCell_cases board row col (Some value) r c Hwf Hrow Hcol)
      as [[_ Heq]|[_ Heq]]; rewrite Heq in Hs.
    + injection Hs as <-. exact Hvalue.
    + exact (Hhex r c s Hs).
  - intros r c v Hr Hc Hv Hclash.
    destruct (cell_setCell_cases board row col (Some value) r c Hwf Hrow Hcol)
      as [[[= -> ->] Heq]|[Hne Heq]]; rewrite Heq in Hv.
    + injection Hv as <-. apply Hvalid. apply clashes_setCell_self in Hclash. exact Hclash.
    + destruct Hclash as (r2 & c2 & Hr2 & Hc2 & Hne2 & Hunit & Hv2).
      destruct (cell_setCell_cases board row col (Some value) r2 c2 Hwf Hrow Hcol)
        as [[[= -> ->] Heq2]|[Hne' Heq2]]; rewrite Heq2 in Hv2.
      * injection Hv2 as <-. apply Hvalid. exists r, c.
        split_all; [exact Hr|exact Hc|exact Hne|apply sameUnit_sym; exact Hunit|exact Hv].
      * apply (Hcons r c v Hr Hc Hv). exists r2, c2. split_all; assumption.
Qed.

Lemma completion_rejects_invalid board grid row col value :
  row < 16 -> col < 16 ->
  isValidMove board row col value = false ->
  completion board grid -> cell grid row col <> Some value.
Proof.
  intros Hrow Hcol Hinvalid ((_ & _ & Hcons) & _ & Hext) Hv.
  apply isValidMove_false in Hinvalid; [|assumption..].
  destruct Hinvalid as (r & c & Hr & Hc & Hne & Hunit & Hcell).
  apply (Hcons row col value Hrow Hcol Hv). exists r, c.
  split_all; try assumption. apply Hext. exact Hcell.
Qed.

Lemma completion_fill board grid row col value :
  wf_board board -> row < 16 -> col < 16 ->
  completion board grid -> cell grid row col = Some value ->
  completion (setCell board row col (Some value)) grid.
Proof.
  intros Hwf Hrow Hcol (Hvalid & Hfull & Hext) Hv.
  unfold completion. split_all; [exact Hvalid|exact Hfull|].
  intros r c v Hcell.
  destruct (cell_setCell_cases board row col (Some value) r c Hwf Hrow Hcol)
    as [[[= -> ->] Heq]|[_ Heq]]; rewrite Heq in Hcell.
  - injection Hcell as <-. exact Hv.
  - apply Hext. exact Hcell.
Qed.

(** ** The backtracking search of the solved-board builder *)

Section SolverSpec.
Variable bound : nat.
Variable rec : Board -> nat -> option (bool * Board * nat).
Hypothesis rec_spec : forall board k,
  validPartial board -> countNull board < bound ->
  exists res board' k',
    rec board k = Some (res, board', k') /\
    (res = true -> validPartial board' /\ full board') /\
    (res = false -> board' = board /\ forall grid, ~ completion board grid).

Lemma tryValues_spec row col values board k :
  row < 16 -> col < 16 -> (forall v, In v values -> In v HEX_VALUES) ->
  validPartial board -> cell board row col = None -> countNull board <= bound ->
  exists res board' k',
    tryValues rec row col values board k = Some (res, board', k') /\
    (res = true -> validPartial board' /\ full board') /\
    (res = false -> board' = board /\
       forall grid v, completion board grid -> cell grid row col = Some v ->
                      ~ In v values).
Proof.
  intros Hrow Hcol Hvalues Hvalid Hnull Hbound. revert k.
  induction values as [|value values IH]; intros k.
  { exists false, board, k. split_all; [reflexivity|discriminate|].
    intros _. split; [reflexivity|]. intros grid v _ _ []. }
  assert (Hvalues' : forall v, In v values -> In v HEX_VALUES)
    by (intros v Hv; apply Hvalues; right; exact Hv).
  specialize (IH Hvalues'). cbn [tryValues].
  destruct (isValidMove board row col value) eqn:Hmove.
  - pose proof Hvalid as (Hwf & _ & _).
    pose proof (countNull_fill board row col value Hwf Hrow Hcol Hnull) as Hcount.
    destruct (rec_spec (setCell board row col (Some value)) k)
      as (res & board1 & k1 & -> & Htrue & Hfalse).
    { apply validPartial_fill; auto. apply Hvalues. left. reflexivity. }
    { lia. }
    destruct res.
    + exists true, board1, k1. split_all; [reflexivity|exact Htrue|discriminate].
    + destruct (Hfalse eq_refl) as [-> Hnone].
      rewrite setCell_setCell.
      assert (setCell board row col None = board) as ->
        by (rewrite <- Hnull; apply setCell_cell).
      destruct (IH k1) as (res & board' & k' & -> & Htrue' & Hfalse').
      exists res, board', k'. split_all; [reflexivity|exact Htrue'|].
      intros ->. destruct (Hfalse' eq_refl) as [-> Hrest]. split; [reflexivity|].
      intros grid v Hgrid Hv [<-|Hin].
      * apply (Hnone grid). apply completion_fill; assumption.
      * exact (Hrest grid v Hgrid Hv Hin).
  - destruct (IH k) as (res & board' & k' & -> & Htrue' & Hfalse').
    exists res, board', k'. split_all; [reflexivity|exact Htrue'|].
    intros ->. destruct (Hfalse' eq_refl) as [-> Hrest]. split; [reflexivity|].
    intros grid v Hgrid Hv [<-|Hin].
    + exact (completion_rejects_invalid board grid row col value Hrow Hcol Hmove Hgrid Hv).
    + exact (Hrest grid v Hgrid Hv Hin).
Qed.
End SolverSpec.

Section Solver.
Variable shuffleSort : nat -> list string -> list string * nat.
Hypothesis shuffleSort_perm : forall k l, (shuffleSort k l).1 ≡ₚ l.

(** The search decides whether the board can be completed; when it can
    it ends on a completed board, and when it cannot the board is back
    to what it was. *)
Lemma solveBoardRecursive_spec fuel board k :
  validPartial board -> countNull board < fuel ->
  exists res board' k',
    solveBoardRecursive shuffleSort fuel board k = Some (res, board', k') /\
    (res = true -> validPartial board' /\ full board') /\
    (res = false -> board' = board /\ forall grid, ~ completion board grid).
Proof.
  revert board k. induction fuel as [|fuel IH]; intros board k Hvalid Hlt; [lia|].
  cbn [solveBoardRecursive].
  destruct (firstNull board) as [[row col]|] eqn:Hfirst.
  - apply firstNull_Some in Hfirst as (Hrow & Hcol & Hnull).
    pose proof (shuffleSort_perm k HEX_VALUES) as Hperm.
    destruct (shuffleSort k HEX_VALUES) as [shuffledValues k1]. cbn [fst] in Hperm.
    destruct (tryValues_spec fuel (solveBoardRecursive shuffleSort fuel) IH
                row col shuffledValues board k1)
      as (res & board' & k' & Heq & Htrue & Hfalse); auto with lia.
    { intros v Hv. apply list_elem_of_In. rewrite <- Hperm. apply list_elem_of_In, Hv. }
    exists res, board', k'. split_all; [exact Heq|exact Htrue|].
    intros ->. destruct (Hfalse eq_refl) as [-> Hrest]. split; [reflexivity|].
    intros grid Hgrid. pose proof Hgrid as ((_ & Hhex & _) & Hfull & _).
    destruct (cell grid row col) as [v|] eqn:Hv; [|exact (Hfull row col Hrow Hcol Hv)].
    apply (Hrest grid v Hgrid Hv).
    apply list_elem_of_In. rewrite Hperm. apply list_elem_of_In. exact (Hhex row col v Hv).
  - exists true, board, k. split_all; [reflexivity| |discriminate].
    intros _. split; [exact Hvalid|]. apply firstNull_None. exact Hfirst.
Qed.
End Solver.

(** ** Checking a concrete grid by evaluation *)

Lemma validPartial_check board :
  wf_board board ->
  forallb (fun p : Coord =>
             match cell board p.1 p.2 with
             | Some v => existsb (String.eqb v) HEX_VALUES && isValidMove board p.1 p.2 v
             | None => true
             end) allCoords = true ->
  validPartial board.
Proof.
  intros Hwf Hcheck. rewrite forallb_forall in Hcheck.
  assert (Hcell : forall r c v, cell board r c = Some v ->
            r < 16 /\ c < 16 /\ In v HEX_VALUES /\ isValidMove board r c v = true).
  { intros r c v Hv.
    destruct (le_lt_dec 16 r) as [Hr|Hr];
      [rewrite cell_outside_row in Hv by assumption; discriminate|].
    destruct (le_lt_dec 16 c) as [Hc|Hc];
      [rewrite cell_outside_col in Hv by assumption; discriminate|].
    assert (Hin : In (r, c) allCoords) by (apply in_allCoords; split; assumption).
    apply Hcheck in Hin. cbn [fst snd] in Hin. rewrite Hv in Hin.
    apply andb_true_iff in Hin as [Hin Hmove].
    apply existsb_exists in Hin as (x & Hx & Heq). apply String.eqb_eq in Heq. subst x.
    auto. }
  split_all; [exact Hwf| |].
  - intros r c s Hs. apply (Hcell r c s Hs).
  - intros r c v Hr Hc Hv. apply isValidMove_true; [assumption..|]. apply (Hcell r c v Hv).
Qed.

Lemma full_check board :
  forallb (fun p : Coord => negb (isNull (cell board p.1 p.2))) allCoords = true ->
  full board.
Proof.
  intros Hcheck r c Hr Hc Hnull. rewrite forallb_forall in Hcheck.
  specialize (Hcheck (r, c)). cbn [fst snd] in Hcheck. rewrite Hnull in Hcheck.
  discriminate Hcheck. apply in_allCoords. split; assumption.
Qed.

Lemma validPartial_sampleSolved : validPartial sampleSolved.
Proof. apply validPartial_check; [apply wf_sampleSolved|]. vm_compute. reflexivity. Qed.

Lemma full_sampleSolved : full sampleSolved.
Proof. apply full_check. vm_compute. reflexivity. Qed.

Lemma cell_emptyBoard r c : cell emptyBoard r c = None.
Proof.
  unfold cell, emptyBoard.
  destruct (replicate 16 (replicate 16 None) !! r) as [rw|] eqn:Hr; [|reflexivity].
  apply lookup_replicate in Hr as [-> _].
  destruct (replicate 16 None !! c) as [x|] eqn:Hc; [|reflexivity].
  apply lookup_replicate in Hc as [-> _]. reflexivity.
Qed.

Lemma validPartial_emptyBoard : validPartial emptyBoard.
Proof.
  split_all; [apply wf_emptyBoard| |].
  - intros r c s Hs. rewrite cell_emptyBoard in Hs. discriminate.
  - intros r c v _ _ Hv. rewrite cell_emptyBoard in Hv. discriminate.
Qed.

Lemma completion_emptyBoard : completion emptyBoard sampleSolved.
Proof.
  split_all; [apply validPartial_sampleSolved|apply full_sampleSolved|].
  intros r c v Hv. rewrite cell_emptyBoard in Hv. discriminate.
Qed.

(** ** Completed boards are solved grids *)

Lemma getConflicts_consistent board row col :
  consistent board -> row < 16 -> col < 16 -> getConflicts board row col = [].
Proof.
  intros Hcons Hrow Hcol.
  destruct (getConflicts board row col) as [|p l] eqn:Hlist; [reflexivity|]. exfalso.
  assert (Hin : In p (getConflicts board row col)) by (rewrite Hlist; left; reflexivity).
  apply getConflicts_In in Hin; [|assumption..].
  assert (Hq : exists q, conflictsWith board row col q)
    by (destruct Hin as [Hp|[_ Hq]]; [exists p; exact Hp|exact Hq]).
  destruct Hq as ([r c] & v & Hv & _ & [Hr Hc] & Hne & Hunit & Hcell).
  cbn [fst snd] in *. apply (Hcons row col v Hrow Hcol Hv).
  exists r, c. split_all; assumption.
Qed.

Lemma isSolved_complete board :
  validPartial board -> full board -> isSolved board = true.
Proof.
  intros (Hwf & Hhex & Hcons) Hfull. unfold isSolved.
  assert (existsb (fun row => existsb (fun col => negb (truthy (cell board row col)))
                     (seq 0 16)) (seq 0 16) = false) as ->.
  { apply not_true_iff_false. intros (r & Hr & H)%existsb_exists.
    apply existsb_exists in H as (c & Hc & H). apply in_seq in Hr, Hc.
    apply negb_true_iff in H.
    destruct (cell board r c) as [s|] eqn:Hs; [|apply (Hfull r c); [lia..|exact Hs]].
    simpl in H. apply negb_false_iff, String.eqb_eq in H. subst s.
    exact (HEX_VALUES_nonempty "" (Hhex r c "" Hs) eq_refl). }
  assert (existsb (fun row => existsb (fun col => 0 <? length (getConflicts board row col))
                     (seq 0 16)) (seq 0 16) = false) as ->; [|reflexivity].
  apply not_true_iff_false. intros (r & Hr & H)%existsb_exists.
  apply existsb_exists in H as (c & Hc & H). apply in_seq in Hr, Hc.
  rewrite getConflicts_consistent in H by (assumption || lia). discriminate.
Qed.

Lemma unit_values_perm board (unit : list Coord) :
  validPartial board -> full board ->
  NoDup unit -> length unit = 16 ->
  (forall p, In p unit -> inGrid p) ->
  (forall p q, In p unit -> In q unit -> p <> q -> sameUnit p q) ->
  unitValues board unit ≡ₚ map Some HEX_VALUES.
Proof.
  intros (Hwf & Hhex & Hcons) Hfull Hnd Hlen Hgrid Hunit.
  apply NoDup_Permutation_bis.
  - apply NoDup_ListNoDup. unfold unitValues.
    change (NoDup ((fun p : Coord => cell board p.1 p.2) <$> unit)).
    apply NoDup_fmap_2_strong; [|exact Hnd].
    intros p q Hp%list_elem_of_In Hq%list_elem_of_In Heq.
    destruct (decide (p = q)) as [|Hne]; [assumption|]. exfalso.
    destruct (Hgrid p Hp) as [Hp1 Hp2]. destruct (Hgrid q Hq) as [Hq1 Hq2].
    destruct (cell board p.1 p.2) as [v|] eqn:Hv; [|exact (Hfull _ _ Hp1 Hp2 Hv)].
    apply (Hcons p.1 p.2 v Hp1 Hp2 Hv). exists q.1, q.2.
    split_all; [exact Hq1|exact Hq2| | |symmetry; exact Heq].
    + destruct p, q. cbn [fst snd]. congruence.
    + destruct p, q. apply sameUnit_sym. apply Hunit; assumption.
  - unfold unitValues. rewrite !length_map, Hlen. reflexivity.
  - intros x Hx. unfold unitValues in Hx. apply in_map_iff in Hx as (p & <- & Hp).
    destruct (Hgrid p Hp) as [Hp1 Hp2].
    destruct (cell board p.1 p.2) as [v|] eqn:Hv; [|destruct (Hfull _ _ Hp1 Hp2 Hv)].
    apply in_map. exact (Hhex _ _ _ Hv).
Qed.

Lemma in_blockCoords br bc (p : Coord) :
  In p (blockCoords br bc) <-> p.1 / 4 = br /\ p.2 / 4 = bc.
Proof.
  unfold blockCoords. rewrite in_flat_map. destruct p as [r c]. cbn [fst snd].
  pose proof (Nat.div_mod_eq r 4). pose proof (Nat.mod_upper_bound r 4).
  pose proof (Nat.div_mod_eq c 4). pose proof (Nat.mod_upper_bound c 4).
  split.
  - intros (r' & Hr & Hin). apply in_map_iff in Hin as (c' & [= -> ->] & Hc).
    apply in_seq in Hr, Hc. lia.
  - intros [Hr Hc]. exists r. split; [apply in_seq; lia|].
    apply in_map_iff. exists c. split; [reflexivity|apply in_seq; lia].
Qed.

Lemma solvedGrid_complete board : validPartial board -> full board -> solvedGrid board.
Proof.
  intros Hvalid Hfull. pose proof Hvalid as (Hwf & Hhex & Hcons). split_all.
  - exact Hwf.
  - intros r c Hr Hc. destruct (cell board r c) as [s|] eqn:Hs.
    + exists s. split; [reflexivity|]. exact (Hhex r c s Hs).
    + destruct (Hfull r c Hr Hc Hs).
  - intros r Hr. apply unit_values_perm; [assumption..| | | |].
    + apply NoDup_fmap_2; [intros c c' [= ->]; reflexivity|apply NoDup_seq].
    + reflexivity.
    + intros p (c & <- & Hc%in_seq)%in_map_iff. split; cbn [fst snd]; lia.
    + intros p q (c & <- & _)%in_map_iff (c' & <- & _)%in_map_iff _. left. reflexivity.
  - intros c Hc. apply unit_values_perm; [assumption..| | | |].
    + apply NoDup_fmap_2; [intros r r' [= ->]; reflexivity|apply NoDup_seq].
    + reflexivity.
    + intros p (r & <- & Hr%in_seq)%in_map_iff. split; cbn [fst snd]; lia.
    + intros p q (r & <- & _)%in_map_iff (r' & <- & _)%in_map_iff _. right. left. reflexivity.
  - intros br bc Hbr Hbc. apply unit_values_perm; [assumption..| | | |].
    + apply (NoDup_fmap_1 (fun p : Coord => p.1 * 16 + p.2)).
      do 4 (destruct br as [|br]; [do 4 (destruct bc as [|bc];
              [apply (bool_decide_unpack _); vm_compute; exact I|]); lia|]); lia.
    + do 4 (destruct br as [|br]; [do 4 (destruct bc as [|bc]; [reflexivity|]); lia|]); lia.
    + intros p [Hp1 Hp2]%in_blockCoords.
      pose proof (Nat.div_mod_eq p.1 4). pose proof (Nat.mod_upper_bound p.1 4).
      pose proof (Nat.div_mod_eq p.2 4). pose proof (Nat.mod_upper_bound p.2 4).
      split; lia.
    + intros p q [Hp1 Hp2]%in_blockCoords [Hq1 Hq2]%in_blockCoords _.
      right. right. split; congruence.
Qed.

(** ** The solved-board builder *)

Lemma generateSolvedBoard_complete (shuffleSort : nat -> list string -> list string * nat) k :
  (forall k l, (shuffleSort k l).1 ≡ₚ l) ->
  exists board k',
    generateSolvedBoard shuffleSort k = Some (board, k') /\
    validPartial board /\ full board.
Proof.
  intros Hperm. unfold generateSolvedBoard.
  destruct (solveBoardRecursive_spec shuffleSort Hperm searchFuel emptyBoard k
              validPartial_emptyBoard (countNull_lt_fuel emptyBoard))
    as (res & board & k' & -> & Htrue & Hfalse).
  destruct res.
  - exists board, k'. split; [reflexivity|]. apply Htrue. reflexivity.
  - destruct (Hfalse eq_refl) as [_ Hnone].
    destruct (Hnone sampleSolved completion_emptyBoard).
Qed.

(** The repair pass cannot change the fallback pattern: each of its rows
    already holds all sixteen symbols, so the only value that fits back
    into a cleared cell is the one that was there. *)
Remark fallback_pattern_keeps_conflicts :
  createValidPattern = patternBoard /\ isSolved createValidPattern = false.
Proof.
  assert (Hpass : foldl fixCell (patternBoard, false) allCoords = (patternBoard, true))
    by (vm_compute; reflexivity).
  assert (Hloop : forall n, fixBoardConflictsLoop n patternBoard = patternBoard).
  { induction n as [|n IH]; [reflexivity|].
    cbn [fixBoardConflictsLoop]. rewrite Hpass. exact IH. }
  unfold createValidPattern, fixBoardConflicts. rewrite Hloop.
  split; [reflexivity|]. vm_compute. reflexivity.
Qed.

(** The branch of the search: whatever rearrangements the shuffles produce,
    the search on the empty board succeeds and [generateSolvedBoard] returns
    its board, a grid that is fully filled and holds each of the sixteen
    symbols exactly once in every row, every column and every aligned 4x4
    block. *)
Theorem generateSolvedBoard_solved (shuffleSort : nat -> list string -> list string * nat)
    (k : nat) :
  (forall k l, (shuffleSort k l).1 ≡ₚ l) ->
  exists board k',
    generateSolvedBoard shuffleSort k = Some (board, k') /\ solvedGrid board.
Proof.
  intros Hperm.
  destruct (generateSolvedBoard_complete shuffleSort k Hperm)
    as (board & k' & Heq & Hvalid & Hfull).
  exists board, k'. split; [exact Heq|]. apply solvedGrid_complete; assumption.
Qed.

Lemma generateSolvedBoard_solved_witness :
  exists board k',
    generateSolvedBoard (fun k l => (l, k)) 0 = Some (board, k') /\ solvedGrid board.
Proof.
  apply (generateSolvedBoard_solved (fun k l => (l, k)) 0).
  intros k l. reflexivity.
Defined.

(** ** The solution counter overshoots its cap *)

(** C4 (the code departs from the claim).  On [sampleAmbiguous], which has
    four empty cells, [countSolutions] with cap 2 returns 5 and with cap 1
    returns 4; only with a cap above the number of completions (cap 3) does
    it return the count, 2.  On [carvedSixty], a puzzle with 60 empty cells
    as phase 2 hands it to the exact check, cap 2 gives 61.  After the
    counter reaches the cap, every enclosing call of [solveBrute] sees
    [true] and increments it again. *)
Theorem countSolutions_exceeds_cap :
  countSolutions sampleAmbiguous 2 = Some 5 /\
  countSolutions sampleAmbiguous 1 = Some 4 /\
  countSolutions sampleAmbiguous 3 = Some 2 /\
  countSolutions carvedSixty 2 = Some 61.
Proof. split_all; vm_compute; reflexivity. Qed.

(** ** Fisher-Yates shuffles *)

Lemma insert_Permutation {A} (l : list A) i x y :
  l !! i = Some x -> <[i := y]> l ≡ₚ y :: delete i l.
Proof.
  intros Hi. rewrite insert_take_drop by (eapply lookup_lt_Some; exact Hi).
  rewrite delete_take_drop. symmetry. apply Permutation_middle.
Qed.

Lemma swap_Permutation {A} (l : list A) i j : swap l i j ≡ₚ l.
Proof.
  unfold swap. destruct (l !! i) as [x|] eqn:Hi; [|reflexivity].
  destruct (l !! j) as [y|] eqn:Hj; [|reflexivity].
  destruct (decide (i = j)) as [-> | Hne].
  - assert (x = y) as -> by congruence.
    rewrite list_insert_insert_eq, list_insert_id by exact Hi. reflexivity.
  - assert (Hj' : <[i := y]> l !! j = Some y)
      by (rewrite list_lookup_insert_ne by exact Hne; exact Hj).
    pose proof (delete_Permutation _ j y Hj') as H1.
    pose proof (insert_Permutation l i x y Hi) as H2.
    assert (Hdel : delete j (<[i := y]> l) ≡ₚ delete i l).
    { apply (Permutation_cons_inv (a := y)).
      etransitivity; [symmetry; exact H1|exact H2]. }
    etransitivity; [apply (insert_Permutation _ j y x Hj')|].
    etransitivity; [apply Permutation_cons; [reflexivity|exact Hdel]|].
    symmetry. apply delete_Permutation. exact Hi.
Qed.

Section Shuffle.
Variable random : nat -> Q.

Lemma shuffleFrom_Permutation {A} i (l : list A) k : (shuffleFrom random i l k).1 ≡ₚ l.
Proof.
  revert l k. induction i as [|i IH]; intros l k; [reflexivity|].
  cbn [shuffleFrom]. rewrite IH. apply swap_Permutation.
Qed.

Lemma shuffle_Permutation {A} (l : list A) k : (shuffle random l k).1 ≡ₚ l.
Proof. apply shuffleFrom_Permutation. Qed.

End Shuffle.

(** ** Carving keeps the puzzle inside the solution *)

Lemma cell_setCell_same board row col x :
  cell (setCell board row col x) row col = x \/
  cell (setCell board row col x) row col = cell board row col.
Proof.
  unfold cell, setCell. rewrite list_lookup_alter_eq.
  destruct (board !! row) as [rw|]; simpl; [|right; reflexivity].
  destruct (decide (col < length rw)) as [Hlt|Hge].
  - left. rewrite list_lookup_insert_eq by exact Hlt. reflexivity.
  - right. rewrite list_insert_ge by lia. reflexivity.
Qed.

Lemma carvedFrom_refl solution : wf_board solution -> carvedFrom solution solution.
Proof. intros Hwf. split; [exact Hwf|]. intros r c. right. reflexivity. Qed.

Lemma carvedFrom_clear puzzle solution row col :
  carvedFrom puzzle solution -> carvedFrom (setCell puzzle row col None) solution.
Proof.
  intros [Hwf Hsub]. split; [apply wf_setCell; exact Hwf|]. intros r c.
  destruct (decide ((r, c) = (row, col))) as [[= -> ->]|Hne].
  - destruct (cell_setCell_same puzzle row col None) as [->| ->]; [left; reflexivity|].
    apply Hsub.
  - rewrite cell_setCell_ne by exact Hne. apply Hsub.
Qed.

Lemma carvedFrom_restore puzzle solution row col :
  carvedFrom puzzle solution ->
  carvedFrom (setCell puzzle row col (cell solution row col)) solution.
Proof.
  intros [Hwf Hsub]. split; [apply wf_setCell; exact Hwf|]. intros r c.
  destruct (decide ((r, c) = (row, col))) as [[= -> ->]|Hne].
  - destruct (cell_setCell_same puzzle row col (cell solution row col)) as [->| ->];
      [right; reflexivity|]. apply Hsub.
  - rewrite cell_setCell_ne by exact Hne. apply Hsub.
Qed.

Lemma foldl_invariant {A S} (P : S -> Prop) (f : S -> A -> S) (l : list A) (s : S) :
  P s -> (forall s x, P s -> P (f s x)) -> P (foldl f s l).
Proof.
  intros Hs Hstep. revert s Hs. induction l as [|x l IH]; intros s Hs; [exact Hs|].
  simpl. apply IH, Hstep, Hs.
Qed.

Section Carving.
Variable random : nat -> Q.

Lemma performSymmetricRemoval_carved puzzle solution target k :
  carvedFrom puzzle solution ->
  carvedFrom (performSymmetricRemoval random puzzle target k).1.1 solution.
Proof.
  intros Hcarved. unfold performSymmetricRemoval.
  destruct (shuffle random symmetricPairs k) as [pairs k1].
  match goal with
  | |- context [foldl ?f ?s pairs] =>
      pose proof (foldl_invariant (fun st : Board * nat * bool => carvedFrom st.1.1 solution)
                    f pairs s Hcarved) as Hfold
  end.
  match type of Hfold with
  | ?H -> _ => assert (Hstep : H); [|specialize (Hfold Hstep)]
  end.
  { intros [[p n] stop] [[r1 c1] [r2 c2]] Hp. cbn [fst] in Hp.
    destruct stop; [exact Hp|].
    destruct (Qle_bool _ _); [exact Hp|].
    destruct ((r1 =? r2) && (c1 =? c2)); [exact Hp|].
    cbn [fst]. apply carvedFrom_clear, carvedFrom_clear, Hp. }
  destruct (foldl _ _ pairs) as [[p n] stop]. exact Hfold.
Qed.

Lemma guidedStep_carved difficulty remaining maxAttempts st cell_ solution :
  carvedFrom (g_puzzle st) solution ->
  exists st', guidedStep difficulty remaining maxAttempts st cell_ = Some st' /\
              carvedFrom (g_puzzle st') solution.
Proof.
  intros Hcarved. unfold guidedStep.
  destruct (g_stopped st); [eauto|].
  destruct (guidedBreak remaining maxAttempts st); [eauto|].
  pose proof (carvedFrom_clear _ _ (prow cell_) (pcol cell_) Hcarved) as Hclear.
  destruct (shouldValidate difficulty (S (g_attempts st))); [|eauto].
  destruct (hasLimitedUniqueSolution_total _ (proj1 Hclear)) as [unique ->]. simpl.
  destruct unique; simpl; [eauto|].
  eexists. split; [reflexivity|]. simpl. rewrite setCell_restore. exact Hcarved.
Qed.

Lemma guidedLoop_carved difficulty remaining maxAttempts cells st solution :
  carvedFrom (g_puzzle st) solution ->
  exists st', guidedLoop difficulty remaining maxAttempts cells st = Some st' /\
              carvedFrom (g_puzzle st') solution.
Proof.
  revert st. induction cells as [|c cells IH]; intros st Hcarved; [eauto|].
  cbn [guidedLoop].
  destruct (guidedStep_carved difficulty remaining maxAttempts st c solution Hcarved)
    as (st1 & -> & Hcarved1). simpl. apply IH. exact Hcarved1.
Qed.

Lemma performGuidedRemoval_carved puzzle solution remaining difficulty k :
  carvedFrom puzzle solution ->
  exists puzzle' removed k',
    performGuidedRemoval random puzzle remaining difficulty k = Some (puzzle', removed, k') /\
    carvedFrom puzzle' solution.
Proof.
  intros Hcarved. unfold performGuidedRemoval.
  destruct (foldl _ _ allCoords) as [cellPriorities k1].
  match goal with
  | |- context [guidedLoop ?d ?r ?m ?cells ?st] =>
      destruct (guidedLoop_carved d r m cells st solution Hcarved) as (st' & -> & Hst')
  end.
  simpl. eauto.
Qed.

Lemma restoreLoop_carved cells puzzle solution :
  carvedFrom puzzle solution ->
  exists puzzle', restoreLoop cells puzzle solution = Some puzzle' /\
                  carvedFrom puzzle' solution.
Proof.
  revert puzzle. induction cells as [|[row col] cells IH]; intros puzzle Hcarved;
    cbn [restoreLoop];
    destruct (hasUniqueSolution_total puzzle (proj1 Hcarved)) as [unique ->]; simpl;
    destruct unique; eauto.
  apply IH, carvedFrom_restore, Hcarved.
Qed.

Lemma restoreForUniqueness_carved puzzle solution k :
  carvedFrom puzzle solution ->
  exists puzzle' k',
    restoreForUniqueness random puzzle solution k = Some (puzzle', k') /\
    carvedFrom puzzle' solution.
Proof.
  intros Hcarved. unfold restoreForUniqueness.
  destruct (shuffle random _ k) as [emptyCells k1].
  destruct (restoreLoop_carved (take (Nat.min (length emptyCells) 20) emptyCells)
              puzzle solution Hcarved) as (puzzle' & -> & Hcarved').
  simpl. eauto.
Qed.

(** The carver returns, and its result is the given solution with a puzzle
    carved out of it. *)
Lemma generateOptimizedUniquePuzzle_carved solution target difficulty k :
  wf_board solution ->
  exists puzzle' k',
    generateOptimizedUniquePuzzle random solution target difficulty k
      = Some ({| puzzle := puzzle'; solution := solution |}, k') /\
    carvedFrom puzzle' solution.
Proof.
  intros Hwf. unfold generateOptimizedUniquePuzzle.
  pose proof (performSymmetricRemoval_carved solution solution target k
                (carvedFrom_refl solution Hwf)) as H1.
  destruct (performSymmetricRemoval random solution target k) as [[puzzle1 removed1] k1].
  cbn [fst] in H1.
  assert (H2 : exists puzzle2 removed2 k2,
            (if removed1 <? target
             then '(puzzle, removed, k) ←
                    performGuidedRemoval random puzzle1 (target - removed1) difficulty k1;
                  Some (puzzle, removed1 + removed, k)
             else Some (puzzle1, removed1, k1)) = Some (puzzle2, removed2, k2) /\
            carvedFrom puzzle2 solution).
  { destruct (removed1 <? target); [|eauto].
    destruct (performGuidedRemoval_carved puzzle1 solution (target - removed1) difficulty k1 H1)
      as (puzzle2 & removed & k2 & -> & Hc2). simpl. eauto. }
  destruct H2 as (puzzle2 & removed2 & k2 & -> & Hc2). simpl.
  destruct (hasUniqueSolution_total puzzle2 (proj1 Hc2)) as [unique ->]. simpl.
  destruct unique; simpl; [eauto|].
  destruct (restoreForUniqueness_carved puzzle2 solution k2 Hc2) as (puzzle3 & k3 & -> & Hc3).
  simpl. eauto.
Qed.

End Carving.

(** ** Puzzle and solution *)

Lemma board_table board :
  wf_board board ->
  map (fun row => map (fun col => cell board row col) (seq 0 16)) (seq 0 16) = board.
Proof.
  intros [Hlen Hrows].
  apply (list_eq_same_length _ _ 16); [exact Hlen|reflexivity|].
  intros i x rw Hi Hx Hrw.
  change (((fun row => map (fun col => cell board row col) (seq 0 16)) <$> seq 0 16) !! i
          = Some x) in Hx.
  rewrite list_lookup_fmap, lookup_seq_lt in Hx by exact Hi. injection Hx as <-.
  assert (Hrlen : length rw = 16) by (eapply Forall_lookup_1 in Hrows; eauto).
  apply (list_eq_same_length _ _ 16); [exact Hrlen|reflexivity|].
  intros j y z Hj Hy Hz.
  change (((fun col => cell board (0 + i) col) <$> seq 0 16) !! j = Some y) in Hy.
  rewrite list_lookup_fmap, lookup_seq_lt in Hy by exact Hj. injection Hy as <-.
  unfold cell. simpl. rewrite Hrw, Hz. reflexivity.
Qed.

Lemma completeWith_carved puzzle solution :
  carvedFrom puzzle solution -> wf_board solution -> completeWith puzzle solution = solution.
Proof.
  intros [_ Hsub] Hwf. rewrite <- (board_table solution Hwf) at 2. unfold completeWith.
  apply map_ext. intros row. apply map_ext. intros col.
  destruct (Hsub row col) as [Hnone|Heq]; [rewrite Hnone; reflexivity|].
  rewrite Heq. destruct (cell solution row col); reflexivity.
Qed.


Lemma filter_length_none (f : Coord -> bool) (l : list Coord) :
  (forall q, In q l -> f q = false) -> length (List.filter f l) = 0.
Proof.
  intros H. induction l as [|q l IH]; [reflexivity|]. simpl.
  rewrite (H q) by (left; reflexivity). apply IH. intros q' Hq'. apply H. right. exact Hq'.
Qed.


(** The "test" branch: the solution of the builder with the first two
    positions of the shuffle cleared. *)
Lemma generatePuzzle_test_shape (random : nat -> Q)
    (shuffleSort : nat -> list string -> list string * nat) (k : nat) :
  (forall k l, (shuffleSort k l).1 ≡ₚ l) ->
  exists sol k1 k2 r1 c1 r2 c2,
    generateSolvedBoard shuffleSort k = Some (sol, k1) /\
    validPartial sol /\ full sol /\
    inGrid (r1, c1) /\ inGrid (r2, c2) /\ (r1, c1) <> (r2, c2) /\
    generatePuzzle random shuffleSort "test" k
      = Some ({| puzzle := setCell (setCell sol r1 c1 None) r2 c2 None;
                 solution := sol |}, k2).
Proof.
  intros Hperm.
  destruct (generateSolvedBoard_complete shuffleSort k Hperm)
    as (sol & k1 & Hsol & Hvalid & Hfull).
  unfold generatePuzzle. rewrite Hsol. cbn [mbind option_bind]. cbv beta zeta.
  rewrite String.eqb_refl.
  pose proof (shuffle_Permutation random allCoords k1) as Hshuffle.
  destruct (shuffle random allCoords k1) as [positions k2]. cbn [fst] in Hshuffle.
  assert (Hnd : NoDup positions) by (rewrite Hshuffle; apply NoDup_allCoords).
  assert (Hlen : length positions = 256) by (rewrite Hshuffle; reflexivity).
  destruct positions as [|[r1 c1] [|[r2 c2] rest]]; [discriminate..|].
  cbn [foldl seq lookup list_lookup].
  exists sol, k1, k2, r1, c1, r2, c2. split_all; try reflexivity; try assumption.
  - apply in_allCoords, list_elem_of_In. rewrite <- Hshuffle. left.
  - apply in_allCoords, list_elem_of_In. rewrite <- Hshuffle. right. left.
  - apply NoDup_cons in Hnd as [Hnotin _]. intros Heq. apply Hnotin. rewrite Heq. left.
Qed.



(** C1. For each of the four difficulties, [generatePuzzle] returns a puzzle
    and a solution such that filling the empty cells of the puzzle from the
    solution gives a grid on which [isSolved] is true; every filled cell of
    the puzzle equals the cell of the solution. *)
Theorem generatePuzzle_round_trip (random : nat -> Q)
    (shuffleSort : nat -> list string -> list string * nat)
    (difficulty : string) (k : nat) :
  (forall k, (0 <= random k < 1)%Q) ->
  (forall k l, (shuffleSort k l).1 ≡ₚ l) ->
  In difficulty ["easy"; "medium"; "hard"; "test"] ->
  exists result k',
    generatePuzzle random shuffleSort difficulty k = Some (result, k') /\
    isSolved (completeWith (puzzle result) (solution result)) = true /\
    (forall row col v, cell (puzzle result) row col = Some v ->
                       cell (solution result) row col = Some v).
Proof.
  intros Hrandom Hperm _.
  assert (Hgoal : forall result,
            validPartial (solution result) -> full (solution result) ->
            carvedFrom (puzzle result) (solution result) ->
            isSolved (completeWith (puzzle result) (solution result)) = true /\
            (forall row col v, cell (puzzle result) row col = Some v ->
                               cell (solution result) row col = Some v)).
  { intros result Hvalid Hfull Hcarved. split.
    - rewrite completeWith_carved; [|exact Hcarved|apply Hvalid].
      apply isSolved_complete; assumption.
    - intros row col v Hv. destruct Hcarved as [_ Hsub].
      destruct (Hsub row col) as [Hnone|Heq]; congruence. }
  destruct (String.eqb difficulty "test") eqn:Htest.
  - apply String.eqb_eq in Htest. subst difficulty.
    destruct (generatePuzzle_test_shape random shuffleSort k Hperm)
      as (sol & k1 & k2 & r1 & c1 & r2 & c2 & _ & Hvalid & Hfull & _ & _ & _ & Heq).
    eexists _, k2. split; [exact Heq|]. apply Hgoal; cbn [puzzle solution]; try assumption.
    apply carvedFrom_clear, carvedFrom_clear, carvedFrom_refl, Hvalid.
  - destruct (generateSolvedBoard_complete shuffleSort k Hperm)
      as (sol & k1 & Hsol & Hvalid & Hfull).
    unfold generatePuzzle. rewrite Hsol. cbn [mbind option_bind]. rewrite Htest.
    match goal with
    | |- context [generateOptimizedUniquePuzzle random sol ?t difficulty k1] =>
        destruct (generateOptimizedUniquePuzzle_carved random sol t difficulty k1
                    (proj1 Hvalid)) as (puz & k' & -> & Hcarved)
    end.
    eexists _, k'. split; [reflexivity|]. apply Hgoal; assumption.
Qed.

Lemma generatePuzzle_round_trip_witness :
  exists result k',
    generatePuzzle (fun _ => 0%Q) (fun k l => (l, k)) "easy" 0 = Some (result, k') /\
    isSolved (completeWith (puzzle result) (solution result)) = true /\
    (forall row col v, cell (puzzle result) row col = Some v ->
                       cell (solution result) row col = Some v).
Proof.
  apply (generatePuzzle_round_trip (fun _ => 0%Q) (fun k l => (l, k)) "easy" 0).
  - intros k. split; [apply Qle_refl|reflexivity].
  - intros k l. reflexivity.
  - left. reflexivity.
Defined.

(** ** What the generator returns when the repair gives up *)

Lemma removeFirst_Permutation v l : In v l -> v :: removeFirst v l ≡ₚ l.
Proof.
  induction l as [|x l IH]; intros Hin; [destruct Hin|]. simpl.
  destruct (String.eqb x v) eqn:E.
  - apply String.eqb_eq in E. subst x. reflexivity.
  - destruct Hin as [->|Hin]; [rewrite String.eqb_refl in E; discriminate|].
    rewrite Permutation_swap. apply Permutation_skip, IH, Hin.
Qed.

Lemma guidedSort_Permutation k l : (guidedSort k l).1 ≡ₚ l.
Proof.
  unfold guidedSort. cbn [fst].
  destruct (cell sampleSolved (k / 16) (k mod 16)) as [v|]; [|reflexivity].
  unfold moveToFront. destruct (existsb (String.eqb v) l) eqn:E; [|reflexivity].
  apply existsb_exists in E as (x & Hx & Heq). apply String.eqb_eq in Heq. subst x.
  apply removeFirst_Permutation, Hx.
Qed.

Lemma unluckyRandom_range k : (0 <= unluckyRandom k < 1)%Q.
Proof. unfold unluckyRandom. destruct ((k =? 516) || (k =? 538)); split; discriminate || reflexivity. Qed.

Lemma guided_run_solution :
  generateSolvedBoard guidedSort 0 = Some (sampleSolved, 256).
Proof.
  unfold generateSolvedBoard.
  assert (solveBoardRecursive guidedSort searchFuel emptyBoard 0
          = Some (true, sampleSolved, 256)) as -> by (vm_compute; reflexivity).
  reflexivity.
Qed.

(** C7 (as amended). For every difficulty but "test", [generatePuzzle]
    returns normally, and what it returns is the pair of a puzzle and a
    solution and nothing else: the solution is a solved grid, the puzzle is
    carved from it, and [hasUniqueSolution] may or may not hold of it. *)
Theorem generatePuzzle_returns_bare_pair (random : nat -> Q)
    (shuffleSort : nat -> list string -> list string * nat)
    (difficulty : string) (k : nat) :
  (forall k, (0 <= random k < 1)%Q) ->
  (forall k l, (shuffleSort k l).1 ≡ₚ l) ->
  difficulty <> "test" ->
  exists puzzle' solution' k' unique,
    generatePuzzle random shuffleSort difficulty k
      = Some ({| puzzle := puzzle'; solution := solution' |}, k') /\
    solvedGrid solution' /\ carvedFrom puzzle' solution' /\
    hasUniqueSolution puzzle' = Some unique.
Proof.
  intros _ Hperm Hdiff. apply String.eqb_neq in Hdiff.
  destruct (generateSolvedBoard_complete shuffleSort k Hperm)
    as (sol & k1 & Hsol & Hvalid & Hfull).
  unfold generatePuzzle. rewrite Hsol. cbn [mbind option_bind]. rewrite Hdiff.
  match goal with
  | |- context [generateOptimizedUniquePuzzle random sol ?t difficulty k1] =>
      destruct (generateOptimizedUniquePuzzle_carved random sol t difficulty k1
                  (proj1 Hvalid)) as (puz & k' & -> & Hcarved)
  end.
  destruct (hasUniqueSolution_total puz (proj1 Hcarved)) as [unique Hunique].
  exists puz, sol, k', unique. split_all; [reflexivity| |exact Hcarved|exact Hunique].
  apply solvedGrid_complete; assumption.
Qed.

Lemma generatePuzzle_returns_bare_pair_witness :
  exists puzzle' solution' k' unique,
    generatePuzzle unluckyRandom guidedSort "easy" 0
      = Some ({| puzzle := puzzle'; solution := solution' |}, k') /\
    solvedGrid solution' /\ carvedFrom puzzle' solution' /\
    hasUniqueSolution puzzle' = Some unique.
Proof.
  apply (generatePuzzle_returns_bare_pair unluckyRandom guidedSort "easy" 0).
  - exact unluckyRandom_range.
  - exact guidedSort_Permutation.
  - discriminate.
Defined.

(** C7, as stated, fails.  In this run of [generatePuzzle("easy")] the repair
    of phase 3 restores 20 of the 60 empty cells, which is its cap, the exact
    check still fails on the puzzle it leaves, and the value returned is the
    bare pair of that puzzle and the solution. *)
Lemma generatePuzzle_unverified_counterexample :
  (forall k, (0 <= unluckyRandom k < 1)%Q) /\
  (forall k l, (guidedSort k l).1 ≡ₚ l) /\
  generatePuzzle unluckyRandom guidedSort "easy" 0
    = Some ({| puzzle := stuckPuzzle; solution := sampleSolved |}, 598) /\
  restoreForUniqueness unluckyRandom carvedSixty sampleSolved 539
    = Some (stuckPuzzle, 598) /\
  countNull carvedSixty = 60 /\ countNull stuckPuzzle = 40 /\
  hasUniqueSolution stuckPuzzle = Some false.
Proof.
  split_all.
  - exact unluckyRandom_range.
  - exact guidedSort_Permutation.
  - unfold generatePuzzle. rewrite guided_run_solution. vm_compute. reflexivity.
  - vm_compute. reflexivity.
  - vm_compute. reflexivity.
  - vm_compute. reflexivity.
  - vm_compute. reflexivity.
Qed.

(** * Further properties of the game logic *)

(** ** The validator on solved and carved grids *)

Lemma getConflicts_nil_iff board row col :
  row < 16 -> col < 16 ->
  getConflicts board row col = [] <-> ~ exists q, conflictsWith board row col q.
Proof.
  intros Hrow Hcol. split.
  - intros Hnil [q Hq].
    assert (Hin : In q (getConflicts board row col))
      by (apply getConflicts_In; [assumption..|left; exact Hq]).
    rewrite Hnil in Hin. destruct Hin.
  - intros Hnone. destruct (getConflicts board row col) as [|p l] eqn:Hlist; [reflexivity|].
    exfalso. apply Hnone.
    assert (Hin : In p (getConflicts board row col)) by (rewrite Hlist; left; reflexivity).
    apply getConflicts_In in Hin; [|assumption..].
    destruct Hin as [Hp|[_ Hq]]; [exists p; exact Hp|exact Hq].
Qed.

Lemma conflictsWith_clashes board row col value :
  cell board row col = Some value -> value <> "" ->
  (exists q, conflictsWith board row col q) <-> clashes board row col value.
Proof.
  intros Hv Hne. split.
  - intros ([r c] & v & Hv' & _ & [Hr Hc] & Hdiff & Hunit & Hcell). cbn [fst snd] in *.
    assert (v = value) as -> by congruence.
    exists r, c. split_all; assumption.
  - intros (r & c & Hr & Hc & Hdiff & Hunit & Hcell).
    exists (r, c), value. split_all; try assumption. split; assumption.
Qed.

Lemma isSolved_true_inv board :
  isSolved board = true ->
  (forall r c, r < 16 -> c < 16 -> truthy (cell board r c) = true) /\ consistent board.
Proof.
  unfold isSolved. intros Hsolved.
  destruct (existsb (fun row => existsb (fun col => negb (truthy (cell board row col)))
                       (seq 0 16)) (seq 0 16)) eqn:Hfill; [discriminate|].
  destruct (existsb (fun row => existsb (fun col =>
                       0 <? length (getConflicts board row col)) (seq 0 16)) (seq 0 16))
    eqn:Hconf; [discriminate|].
  assert (Htruthy : forall r c, r < 16 -> c < 16 -> truthy (cell board r c) = true).
  { intros r c Hr Hc. destruct (truthy (cell board r c)) eqn:Ht; [reflexivity|].
    apply not_true_iff_false in Hfill. exfalso. apply Hfill.
    apply existsb_exists. exists r. split; [apply in_seq; lia|].
    apply existsb_exists. exists c. split; [apply in_seq; lia|]. rewrite Ht. reflexivity. }
  split; [exact Htruthy|].
  intros r c v Hr Hc Hv Hclash.
  assert (Hne : v <> "").
  { intros ->. specialize (Htruthy r c Hr Hc). rewrite Hv in Htruthy. discriminate. }
  apply (conflictsWith_clashes board r c v Hv Hne) in Hclash.
  apply not_true_iff_false in Hconf. apply Hconf.
  apply existsb_exists. exists r. split; [apply in_seq; lia|].
  apply existsb_exists. exists c. split; [apply in_seq; lia|].
  destruct (getConflicts board r c) eqn:Hlist; [|reflexivity].
  apply getConflicts_nil_iff in Hlist; [|assumption..]. contradiction.
Qed.

(** X1. On a 16x16 grid [isSolved] answers true exactly when every cell
    holds a truthy value and no cell has its value repeated in its row,
    column or block. *)
Theorem isSolved_iff_filled_and_consistent (board : Board) :
  wf_board board ->
  (isSolved board = true <->
   (forall r c, r < 16 -> c < 16 -> truthy (cell board r c) = true) /\ consistent board).
Proof.
  intros _. split; [apply isSolved_true_inv|]. unfold isSolved.
  intros [Htruthy Hcons].
    assert (existsb (fun row => existsb (fun col => negb (truthy (cell board row col)))
                       (seq 0 16)) (seq 0 16) = false) as ->.
    { apply not_true_iff_false. intros (r & Hr & H)%existsb_exists.
      apply existsb_exists in H as (c & Hc & H). apply in_seq in Hr, Hc.
      rewrite Htruthy in H by lia. discriminate. }
    assert (existsb (fun row => existsb (fun col => 0 <? length (getConflicts board row col))
                       (seq 0 16)) (seq 0 16) = false) as ->; [|reflexivity].
    apply not_true_iff_false. intros (r & Hr & H)%existsb_exists.
    apply existsb_exists in H as (c & Hc & H). apply in_seq in Hr, Hc.
    rewrite getConflicts_consistent in H by (assumption || lia). discriminate.
Qed.

Lemma isSolved_iff_filled_and_consistent_witness :
  isSolved sampleSolved = true <->
  (forall r c, r < 16 -> c < 16 -> truthy (cell sampleSolved r c) = true) /\
  consistent sampleSolved.
Proof. exact (isSolved_iff_filled_and_consistent sampleSolved wf_sampleSolved). Defined.

Lemma NoDup_map_inj_on {A B} (f : A -> B) (l : list A) x y :
  NoDup (map f l) -> In x l -> In y l -> f x = f y -> x = y.
Proof.
  induction l as [|a l IH]; intros Hnd Hx Hy Heq; [destruct Hx|].
  simpl in Hnd. apply NoDup_cons in Hnd as [Hnotin Hnd].
  destruct Hx as [->|Hx], Hy as [->|Hy]; [reflexivity| | |auto].
  - exfalso. apply Hnotin. rewrite Heq. apply list_elem_of_In, in_map, Hy.
  - exfalso. apply Hnotin. rewrite <- Heq. apply list_elem_of_In, in_map, Hx.
Qed.

Lemma NoDup_HEX_VALUES : NoDup HEX_VALUES.
Proof.
  apply (NoDup_fmap_1 (fun s => match s with
                                | String a _ => nat_of_ascii a
                                | EmptyString => 0
                                end)).
  apply (bool_decide_unpack _). vm_compute. exact I.
Qed.

Lemma NoDup_hex_cells : NoDup (map Some HEX_VALUES).
Proof.
  change (NoDup (Some <$> HEX_VALUES)).
  apply NoDup_fmap_2; [intros x y [= ->]; reflexivity|apply NoDup_HEX_VALUES].
Qed.

Lemma in_rowCoords r (p : Coord) : In p (rowCoords r) <-> p.1 = r /\ p.2 < 16.
Proof.
  unfold rowCoords. rewrite in_map_iff. destruct p as [a b]. cbn [fst snd]. split.
  - intros (c & [= <- <-] & Hc%in_seq). lia.
  - intros [-> Hb]. exists b. split; [reflexivity|apply in_seq; lia].
Qed.

Lemma in_colCoords c (p : Coord) : In p (colCoords c) <-> p.2 = c /\ p.1 < 16.
Proof.
  unfold colCoords. rewrite in_map_iff. destruct p as [a b]. cbn [fst snd]. split.
  - intros (r & [= <- <-] & Hr%in_seq). lia.
  - intros [-> Ha]. exists a. split; [reflexivity|apply in_seq; lia].
Qed.

Lemma solvedGrid_unit_injective board (unit : list Coord) (p q : Coord) :
  unitValues board unit ≡ₚ map Some HEX_VALUES ->
  In p unit -> In q unit -> cell board p.1 p.2 = cell board q.1 q.2 -> p = q.
Proof.
  intros Hperm Hp Hq Heq.
  apply (NoDup_map_inj_on (fun p : Coord => cell board p.1 p.2) unit); try assumption.
  fold (unitValues board unit). rewrite Hperm. apply NoDup_hex_cells.
Qed.

Lemma solvedGrid_consistent board : solvedGrid board -> consistent board.
Proof.
  intros (Hwf & Hcells & Hrows & Hcols & Hblocks) r c v Hr Hc Hv
    (r' & c' & Hr' & Hc' & Hne & Hunit & Hv').
  assert (Hsame : cell board (r, c).1 (r, c).2 = cell board (r', c').1 (r', c').2)
    by (cbn [fst snd]; congruence).
  apply Hne. symmetry.
  destruct Hunit as [Hrow|[Hcol|[Hbr Hbc]]]; cbn [fst snd] in *.
  - subst r'. apply (solvedGrid_unit_injective board (rowCoords r)); auto.
    + apply in_rowCoords. auto.
    + apply in_rowCoords. auto.
  - subst c'. apply (solvedGrid_unit_injective board (colCoords c)); auto.
    + apply in_colCoords. auto.
    + apply in_colCoords. auto.
  - assert (r / 4 < 4) by (apply Nat.Div0.div_lt_upper_bound; lia).
    assert (c / 4 < 4) by (apply Nat.Div0.div_lt_upper_bound; lia).
    apply (solvedGrid_unit_injective board (blockCoords (r / 4) (c / 4))); auto.
    + apply in_blockCoords. auto.
    + apply in_blockCoords. auto.
Qed.

Lemma solvedGrid_full board : solvedGrid board -> full board.
Proof.
  intros (_ & Hcells & _) r c Hr Hc Hnone.
  destruct (Hcells r c Hr Hc) as (s & Hs & _). congruence.
Qed.

Lemma solvedGrid_hex board : solvedGrid board -> hex_board board.
Proof.
  intros (Hwf & Hcells & _) r c s Hs.
  destruct (le_lt_dec 16 r) as [Hr|Hr];
    [rewrite cell_outside_row in Hs by assumption; discriminate|].
  destruct (le_lt_dec 16 c) as [Hc|Hc];
    [rewrite cell_outside_col in Hs by assumption; discriminate|].
  destruct (Hcells r c Hr Hc) as (s' & Hs' & Hin). congruence.
Qed.

Lemma solvedGrid_validPartial board : solvedGrid board -> validPartial board.
Proof.
  intros H. split_all; [apply H|apply solvedGrid_hex, H|apply solvedGrid_consistent, H].
Qed.

(** X2. A 16x16 grid holds each of the sixteen symbols exactly once in every
    row, column and block exactly when [isSolved] accepts it and its cells
    hold nothing but the sixteen symbols. *)
Theorem solvedGrid_iff_isSolved (board : Board) :
  wf_board board ->
  (solvedGrid board <-> isSolved board = true /\ hex_board board).
Proof.
  intros Hwf. split.
  - intros Hsolved. split; [|apply solvedGrid_hex, Hsolved].
    apply isSolved_complete; [apply solvedGrid_validPartial|apply solvedGrid_full]; exact Hsolved.
  - intros [Hsolved Hhex].
    destruct (isSolved_true_inv board Hsolved) as [Htruthy Hcons].
    apply solvedGrid_complete; [split_all; assumption|].
    intros r c Hr Hc Hnone. specialize (Htruthy r c Hr Hc). rewrite Hnone in Htruthy.
    discriminate.
Qed.

Lemma solvedGrid_iff_isSolved_witness :
  solvedGrid sampleSolved <-> isSolved sampleSolved = true /\ hex_board sampleSolved.
Proof. exact (solvedGrid_iff_isSolved sampleSolved wf_sampleSolved). Defined.

Lemma unitValues_row_has board r v :
  r < 16 -> unitValues board (rowCoords r) ≡ₚ map Some HEX_VALUES -> In v HEX_VALUES ->
  exists c, c < 16 /\ cell board r c = Some v.
Proof.
  intros Hr Hperm Hv.
  assert (Hin : In (Some v) (unitValues board (rowCoords r))).
  { apply list_elem_of_In. rewrite Hperm. apply list_elem_of_In, in_map, Hv. }
  unfold unitValues in Hin. apply in_map_iff in Hin as ([a b] & Hcell & Hp).
  apply in_rowCoords in Hp as [Ha Hb]. cbn [fst snd] in *. subst a. eauto.
Qed.

(** X3. In a solved grid the symbol a cell holds is the only one of the
    sixteen that [isValidMove] accepts at that cell. *)
Theorem solved_grid_single_legal_value (grid : Board) (row col : nat) (value : string) :
  solvedGrid grid -> row < 16 -> col < 16 -> In value HEX_VALUES ->
  (isValidMove grid row col value = true <-> cell grid row col = Some value).
Proof.
  intros Hsolved Hrow Hcol Hvalue.
  pose proof (solvedGrid_consistent grid Hsolved) as Hcons.
  destruct Hsolved as (Hwf & Hcells & Hrows & _).
  destruct (Hcells row col Hrow Hcol) as (s & Hs & _). split.
  - intros Hmove. apply isValidMove_true in Hmove; [|assumption..].
    destruct (unitValues_row_has grid row value Hrow (Hrows row Hrow) Hvalue)
      as (c & Hc & Hcell).
    destruct (decide (c = col)) as [-> | Hne]; [exact Hcell|].
    exfalso. apply Hmove. exists row, c.
    split_all; [exact Hrow|exact Hc|congruence|left; reflexivity|exact Hcell].
  - intros Hcell. apply isValidMove_true; [assumption..|].
    apply (Hcons row col value Hrow Hcol Hcell).
Qed.

Lemma solved_grid_single_legal_value_witness :
  isValidMove sampleSolved 3 5 "1" = true <-> cell sampleSolved 3 5 = Some "1".
Proof.
  apply (solved_grid_single_legal_value sampleSolved 3 5 "1"); [|lia|lia|].
  - apply solvedGrid_complete; [apply validPartial_sampleSolved|apply full_sampleSolved].
  - right. left. reflexivity.
Defined.

Lemma carved_clashes puzzle solution row col value :
  carvedFrom puzzle solution ->
  clashes puzzle row col value -> clashes solution row col value.
Proof.
  intros [_ Hsub] (r & c & Hr & Hc & Hne & Hunit & Hcell).
  exists r, c. split_all; try assumption.
  destruct (Hsub r c) as [Hnone|Heq]; congruence.
Qed.

(** X4. On any puzzle carved from a solved grid, the symbol the solution
    holds at a cell is a legal move at that cell. *)
Theorem solution_value_is_legal (puzzle solution : Board) (row col : nat) (value : string) :
  solvedGrid solution -> carvedFrom puzzle solution ->
  row < 16 -> col < 16 -> cell solution row col = Some value ->
  isValidMove puzzle row col value = true.
Proof.
  intros Hsolved Hcarved Hrow Hcol Hvalue.
  apply isValidMove_true; [assumption..|]. intros Hclash.
  apply (solvedGrid_consistent solution Hsolved row col value Hrow Hcol Hvalue).
  apply (carved_clashes puzzle solution); assumption.
Qed.

Lemma carvedFrom_clearAll puzzle solution cells :
  carvedFrom puzzle solution -> carvedFrom (clearAll puzzle cells) solution.
Proof.
  intros Hc. unfold clearAll.
  apply (foldl_invariant (fun b => carvedFrom b solution)); [exact Hc|].
  intros b p Hb. apply carvedFrom_clear, Hb.
Qed.

Lemma carvedFrom_stuckPuzzle : carvedFrom stuckPuzzle sampleSolved.
Proof. apply carvedFrom_clearAll, carvedFrom_refl, wf_sampleSolved. Qed.

Lemma solvedGrid_sampleSolved : solvedGrid sampleSolved.
Proof. apply solvedGrid_complete; [apply validPartial_sampleSolved|apply full_sampleSolved]. Qed.

Lemma solution_value_is_legal_witness : isValidMove stuckPuzzle 13 7 "E" = true.
Proof.
  apply (solution_value_is_legal stuckPuzzle sampleSolved 13 7 "E");
    [apply solvedGrid_sampleSolved|apply carvedFrom_stuckPuzzle|lia|lia|reflexivity].
Defined.

(** X5. Writing a symbol into a cell and asking [getConflicts] for that
    cell gives the empty list exactly when [isValidMove] accepted the symbol
    for the cell beforehand. *)
Theorem placed_value_conflicts_iff_invalid (board : Board) (row col : nat) (value : string) :
  wf_board board -> row < 16 -> col < 16 -> value <> "" ->
  (getConflicts (setCell board row col (Some value)) row col = [] <->
   isValidMove board row col value = true).
Proof.
  intros Hwf Hrow Hcol Hne.
  rewrite getConflicts_nil_iff by assumption.
  rewrite (conflictsWith_clashes _ row col value)
    by (try exact Hne; apply cell_setCell_eq; assumption).
  rewrite clashes_setCell_self. symmetry. apply isValidMove_true; assumption.
Qed.

Lemma placed_value_conflicts_iff_invalid_witness :
  getConflicts (setCell stuckPuzzle 13 7 (Some "E")) 13 7 = [] <->
  isValidMove stuckPuzzle 13 7 "E" = true.
Proof.
  apply (placed_value_conflicts_iff_invalid stuckPuzzle 13 7 "E"); [|lia|lia|discriminate].
  apply carvedFrom_stuckPuzzle.
Defined.

(** ** Completion statistics *)

Lemma foldl_flat_map {A B S} (f : S -> B -> S) (g : A -> list B) (l : list A) (s : S) :
  foldl f s (flat_map g l) = foldl (fun s x => foldl f s (g x)) s l.
Proof.
  revert s. induction l as [|x l IH]; intros s; [reflexivity|].
  simpl. rewrite foldl_app. apply IH.
Qed.

Lemma foldl_ext_row {A S} (f g : S -> A -> S) (l : list A) (s : S) :
  (forall s x, f s x = g s x) -> foldl f s l = foldl g s l.
Proof.
  intros H. revert s. induction l as [|x l IH]; intros s; [reflexivity|].
  simpl. rewrite H. apply IH.
Qed.

Lemma foldl_map {A B S} (f : S -> B -> S) (h : A -> B) (l : list A) (s : S) :
  foldl f s (map h l) = foldl (fun s x => f s (h x)) s l.
Proof. revert s. induction l as [|x l IH]; intros s; [reflexivity|]. simpl. apply IH. Qed.

Lemma statsIncrement_counts (cnt : string -> nat) (keys : list string) (s : string) :
  NoDup keys ->
  statsIncrement
    (map (fun v => (v, {| filled := cnt v; total := 16; percentage := 0%Q |})) keys) s
  = map (fun v => (v, {| filled := cnt v + (if String.eqb v s then 1 else 0);
                         total := 16; percentage := 0%Q |})) keys.
Proof.
  induction keys as [|k keys IH]; intros Hnd; [reflexivity|].
  apply NoDup_cons in Hnd as [Hk Hnd]. simpl.
  destruct (String.eqb k s) eqn:E.
  - apply String.eqb_eq in E. subst k. rewrite Nat.add_1_r. f_equal.
    apply map_ext_in. intros v Hv.
    assert (String.eqb v s = false) as ->.
    { apply String.eqb_neq. intros ->. apply Hk, list_elem_of_In, Hv. }
    rewrite Nat.add_0_r. reflexivity.
  - rewrite Nat.add_0_r. f_equal. apply IH, Hnd.
Qed.

Lemma statsLookup_counts (f : string -> ValueStats) (keys : list string) (s : string) :
  statsLookup (map (fun v => (v, f v)) keys) s = if existsb (String.eqb s) keys
                                                 then Some (f s) else None.
Proof.
  induction keys as [|k keys IH]; [reflexivity|]. simpl.
  rewrite (String.eqb_sym s k). destruct (String.eqb k s) eqn:E; simpl; [|exact IH].
  apply String.eqb_eq in E. subst k. reflexivity.
Qed.

Lemma countValue_counts (cnt : string -> nat) (x : Cell) :
  countValue
    (map (fun v => (v, {| filled := cnt v; total := 16; percentage := 0%Q |})) HEX_VALUES) x
  = map (fun v => (v, {| filled := cnt v + (if strictEq x (Some v) then 1 else 0);
                         total := 16; percentage := 0%Q |})) HEX_VALUES.
Proof.
  unfold countValue. destruct x as [s|].
  2:{ apply map_ext. intros v. simpl. rewrite Nat.add_0_r. reflexivity. }
  rewrite (statsLookup_counts
             (fun v => {| filled := cnt v; total := 16; percentage := 0%Q |})).
  assert (Hskip : (forall v, In v HEX_VALUES -> String.eqb s v = false) ->
            map (fun v => (v, {| filled := cnt v; total := 16; percentage := 0%Q |}))
                HEX_VALUES
            = map (fun v => (v, {| filled := cnt v + (if strictEq (Some s) (Some v)
                                                        then 1 else 0);
                                  total := 16; percentage := 0%Q |})) HEX_VALUES).
  { intros Hno. apply map_ext_in. intros v Hv. simpl. rewrite (Hno v Hv), Nat.add_0_r.
    reflexivity. }
  destruct (existsb (String.eqb s) HEX_VALUES) eqn:Hin.
  - apply existsb_exists in Hin as (x & Hx & Heq). apply String.eqb_eq in Heq. subst x.
    assert (truthy (Some s) = true) as ->.
    { simpl. apply negb_true_iff, String.eqb_neq, HEX_VALUES_nonempty, Hx. }
    assert (bool_decide (is_Some (Some {| filled := cnt s; total := 16;
                                          percentage := 0%Q |})) = true) as ->
      by (apply bool_decide_eq_true; eauto).
    change (true && true) with true. cbv iota.
    rewrite (statsIncrement_counts cnt HEX_VALUES s NoDup_HEX_VALUES).
    apply map_ext. intros v. rewrite (String.eqb_sym v s). reflexivity.
  - rewrite andb_false_r. apply Hskip. intros v Hv.
    apply not_true_iff_false. intros Heq. apply not_true_iff_false in Hin. apply Hin.
    apply existsb_exists. exists v. auto.
Qed.

Lemma count_fold_cells board (cells : list Coord) (cnt : string -> nat) :
  foldl (fun stats (p : Coord) => countValue stats (cell board p.1 p.2))
    (map (fun v => (v, {| filled := cnt v; total := 16; percentage := 0%Q |})) HEX_VALUES)
    cells
  = map (fun v => (v, {| filled := cnt v + length (List.filter
                                     (fun p : Coord => holds board p.1 p.2 v) cells);
                         total := 16; percentage := 0%Q |})) HEX_VALUES.
Proof.
  revert cnt. induction cells as [|p cells IH]; intros cnt.
  - cbn [foldl List.filter length]. apply map_ext. intros v. rewrite Nat.add_0_r.
    reflexivity.
  - cbn [foldl]. rewrite countValue_counts, IH. apply map_ext. intros v.
    cbn [List.filter]. unfold holds.
    destruct (strictEq (cell board p.1 p.2) (Some v)); cbn [length].
    + rewrite <- Nat.add_assoc. reflexivity.
    + rewrite Nat.add_0_r. reflexivity.
Qed.

Lemma getValueCompletionStats_counts_eq (board : Board) :
  getValueCompletionStats board
  = map (fun v => (v, statsEntry (occurrences board v))) HEX_VALUES.
Proof.
  unfold getValueCompletionStats. cbv zeta.
  assert (Hfold :
    foldl (fun stats row =>
             foldl (fun stats col => countValue stats (cell board row col)) stats (seq 0 16))
          initialStats (seq 0 16)
    = foldl (fun stats (p : Coord) => countValue stats (cell board p.1 p.2))
            initialStats allCoords).
  { unfold allCoords. rewrite foldl_flat_map.
    apply foldl_ext_row. intros stats row. rewrite foldl_map. reflexivity. }
  rewrite Hfold. unfold initialStats.
  rewrite (count_fold_cells board allCoords (fun _ => 0)).
  unfold withPercentages. rewrite map_map. apply map_ext. intros v.
  unfold statsEntry, occurrences. cbn [filled total]. rewrite Nat.add_0_l. reflexivity.
Qed.

(** X6. [getValueCompletionStats] lists the sixteen symbols in the order
    0 .. F, each with the number of cells of the grid holding it as
    [filled], with [total] 16, and with [percentage] equal to
    filled / 16 * 100. *)
Theorem getValueCompletionStats_counts (board : Board) :
  wf_board board ->
  getValueCompletionStats board
  = map (fun v => (v, statsEntry (occurrences board v))) HEX_VALUES.
Proof. intros _. apply getValueCompletionStats_counts_eq. Qed.

Lemma getValueCompletionStats_counts_witness :
  getValueCompletionStats stuckPuzzle
  = map (fun v => (v, statsEntry (occurrences stuckPuzzle v))) HEX_VALUES.
Proof. exact (getValueCompletionStats_counts stuckPuzzle (proj1 carvedFrom_stuckPuzzle)). Defined.

(** ** The focus hint *)

Lemma statsEntry_lt (a b : nat) :
  (percentage (statsEntry a) < percentage (statsEntry b))%Q <-> a < b.
Proof.
  unfold statsEntry, percentage, natQ, Qlt, Qmult, Qdiv, Qinv, inject_Z. simpl. lia.
Qed.

Lemma statsEntry_lt_100 (a : nat) : (percentage (statsEntry a) < 100)%Q <-> a < 16.
Proof.
  unfold statsEntry, percentage, natQ, Qlt, Qmult, Qdiv, Qinv, inject_Z. simpl. lia.
Qed.

Lemma statsEntry_nonneg (a : nat) : (-1 < percentage (statsEntry a))%Q.
Proof.
  unfold statsEntry, percentage, natQ, Qlt, Qmult, Qdiv, Qinv, inject_Z. simpl. lia.
Qed.

Lemma statsEntry_round (a : nat) :
  mathRound (percentage (statsEntry a)) = ((25 * Z.of_nat a + 2) / 4)%Z.
Proof.
  unfold mathRound.
  change ((25 * Z.of_nat a + 2) / 4)%Z with (Qfloor ((25 * Z.of_nat a + 2) # 4)).
  apply Qfloor_comp.
  unfold statsEntry, percentage, natQ, Qdiv, Qinv, inject_Z.
  change (Z.of_nat 16) with 16%Z. cbv iota.
  unfold Qeq, Qplus, Qmult. cbn [Qnum Qden].
  change (Z.pos (1 * 16 * 1 * 2)) with 32%Z. change (Z.pos (1 * 16 * 1)) with 16%Z. lia.
Qed.

(** What the scan of [pickNextValue] holds after the keys [pre]. *)
Lemma pick_fold (cnt : string -> nat) (keys pre : list string)
    (acc : option string * Q) :
  (acc = (None, (-1)%Q) /\ (forall w, In w pre -> ~ cnt w < 16)) \/
  (exists p1 v p2, pre = p1 ++ v :: p2 /\ acc = (Some v, percentage (statsEntry (cnt v))) /\
     cnt v < 16 /\
     (forall w, In w p1 -> cnt w < 16 -> cnt w < cnt v) /\
     (forall w, In w p2 -> cnt w < 16 -> cnt w <= cnt v)) ->
  let result :=
    foldl (fun (acc : option string * Q) (entry : string * ValueStats) =>
      let '(nextValue, highestPercentage) := acc in
      let '(value, data) := entry in
      if Qltb highestPercentage (percentage data) && Qltb (percentage data) 100%Q
      then (Some value, percentage data)
      else acc) acc (map (fun v => (v, statsEntry (cnt v))) keys) in
  (result = (None, (-1)%Q) /\ (forall w, In w (pre ++ keys) -> ~ cnt w < 16)) \/
  (exists p1 v p2, pre ++ keys = p1 ++ v :: p2 /\
     result = (Some v, percentage (statsEntry (cnt v))) /\
     cnt v < 16 /\
     (forall w, In w p1 -> cnt w < 16 -> cnt w < cnt v) /\
     (forall w, In w p2 -> cnt w < 16 -> cnt w <= cnt v)).
Proof.
  revert pre acc. induction keys as [|k keys IH]; intros pre acc Hinv.
  { cbn [map foldl]. rewrite app_nil_r. exact Hinv. }
  cbn [map foldl]. replace (pre ++ k :: keys) with ((pre ++ [k]) ++ keys)
    by (rewrite <- app_assoc; reflexivity).
  apply IH. clear IH.
  destruct (Qltb (percentage (statsEntry (cnt k))) 100) eqn:Hk.
  - apply Qltb_true, statsEntry_lt_100 in Hk.
    destruct Hinv as [[-> Hnone]|(p1 & v & p2 & -> & -> & Hv & Hp1 & Hp2)]; cbv beta iota.
    + assert (Qltb (-1) (percentage (statsEntry (cnt k))) = true) as ->
        by (apply Qltb_true, statsEntry_nonneg).
      right. exists pre, k, []. split_all; try reflexivity; try assumption.
      * intros w Hw Hlt. destruct (Hnone w Hw Hlt).
      * intros w [].
    + destruct (Qltb (percentage (statsEntry (cnt v))) (percentage (statsEntry (cnt k))))
        eqn:Hvk.
      * apply Qltb_true, statsEntry_lt in Hvk.
        right. exists (p1 ++ v :: p2), k, []. split_all; try reflexivity; try assumption.
        -- intros w Hw Hlt. apply in_app_iff in Hw as [Hw|[<-|Hw]].
           ++ specialize (Hp1 w Hw Hlt). lia.
           ++ exact Hvk.
           ++ specialize (Hp2 w Hw Hlt). lia.
        -- intros w [].
      * right. exists p1, v, (p2 ++ [k]). split_all; try reflexivity; try assumption.
        -- rewrite <- app_assoc. reflexivity.
        -- intros w Hw Hlt. apply in_app_iff in Hw as [Hw|[<-|[]]]; [auto|].
           apply not_true_iff_false in Hvk. rewrite Qltb_true, statsEntry_lt in Hvk. lia.
  - assert (Hk' : ~ cnt k < 16).
    { intros Hlt. apply not_true_iff_false in Hk. apply Hk, Qltb_true, statsEntry_lt_100, Hlt. }
    destruct Hinv as [[-> Hnone]|(p1 & v & p2 & -> & -> & Hv & Hp1 & Hp2)];
      cbv beta iota; rewrite andb_false_r.
    + left. split; [reflexivity|]. intros w Hw. apply in_app_iff in Hw as [Hw|[<-|[]]]; auto.
    + right. exists p1, v, (p2 ++ [k]). split_all; try reflexivity; try assumption.
      * rewrite <- app_assoc. reflexivity.
      * intros w Hw Hlt. apply in_app_iff in Hw as [Hw|[<-|[]]]; [auto|contradiction].
Qed.

(** X7. [getNextValueToTackle] names the symbol with the most occurrences
    among those occurring fewer than 16 times, the first in the order 0 .. F
    when several tie; [remaining] is 16 minus its occurrences and
    [percentage] is 6.25 times its occurrences, rounded half up.  It names
    no symbol only when every symbol occurs at least 16 times. *)
Theorem getNextValueToTackle_most_filled (board : Board) :
  wf_board board ->
  match nv_value (getNextValueToTackle board) with
  | Some v =>
      exists before after,
        HEX_VALUES = before ++ v :: after /\
        occurrences board v < 16 /\
        (forall w, In w before -> occurrences board w < 16 ->
                   occurrences board w < occurrences board v) /\
        (forall w, In w after -> occurrences board w < 16 ->
                   occurrences board w <= occurrences board v) /\
        nv_percentage (getNextValueToTackle board)
          = ((25 * Z.of_nat (occurrences board v) + 2) / 4)%Z /\
        nv_remaining (getNextValueToTackle board)
          = (16 - Z.of_nat (occurrences board v))%Z
  | None => forall w, In w HEX_VALUES -> 16 <= occurrences board w
  end.
Proof.
  intros Hwf. unfold getNextValueToTackle. cbv zeta.
  rewrite (getValueCompletionStats_counts_eq board). unfold pickNextValue.
  pose proof (pick_fold (occurrences board) HEX_VALUES [] (None, (-1)%Q)
                (or_introl (conj eq_refl (fun w (H : In w []) => match H with end))))
    as Hfold.
  cbv zeta in Hfold. rewrite app_nil_l in Hfold.
  destruct Hfold as [[-> Hnone]|(p1 & v & p2 & Hsplit & -> & Hv & Hp1 & Hp2)].
  - cbn [nv_value]. intros w Hw. specialize (Hnone w Hw). lia.
  - cbn [nv_value nv_percentage nv_remaining].
    exists p1, p2. split_all; try assumption.
    + apply statsEntry_round.
    + assert (Hin : In v HEX_VALUES) by (rewrite Hsplit; apply in_app_iff; right; left; auto).
      assert (truthy (Some v) = true) as ->
        by (simpl; apply negb_true_iff, String.eqb_neq, HEX_VALUES_nonempty, Hin).
      rewrite (statsLookup_counts (fun v => statsEntry (occurrences board v))).
      assert (existsb (String.eqb v) HEX_VALUES = true) as ->.
      { apply existsb_exists. exists v. split; [exact Hin|apply String.eqb_refl]. }
      reflexivity.
Qed.

Lemma getNextValueToTackle_most_filled_witness :
  match nv_value (getNextValueToTackle stuckPuzzle) with
  | Some v =>
      exists before after,
        HEX_VALUES = before ++ v :: after /\
        occurrences stuckPuzzle v < 16 /\
        (forall w, In w before -> occurrences stuckPuzzle w < 16 ->
                   occurrences stuckPuzzle w < occurrences stuckPuzzle v) /\
        (forall w, In w after -> occurrences stuckPuzzle w < 16 ->
                   occurrences stuckPuzzle w <= occurrences stuckPuzzle v) /\
        nv_percentage (getNextValueToTackle stuckPuzzle)
          = ((25 * Z.of_nat (occurrences stuckPuzzle v) + 2) / 4)%Z /\
        nv_remaining (getNextValueToTackle stuckPuzzle)
          = (16 - Z.of_nat (occurrences stuckPuzzle v))%Z
  | None => forall w, In w HEX_VALUES -> 16 <= occurrences stuckPuzzle w
  end.
Proof.
  exact (getNextValueToTackle_most_filled stuckPuzzle (proj1 carvedFrom_stuckPuzzle)).
Defined.

(** ** Hints *)

Lemma find_split {A} (p : A -> bool) (l : list A) (x : A) :
  List.find p l = Some x ->
  exists l1 l2, l = l1 ++ x :: l2 /\ p x = true /\ forall y, In y l1 -> p y = false.
Proof.
  induction l as [|a l IH]; [discriminate|]. simpl.
  destruct (p a) eqn:Ha.
  - intros [= ->]. exists [], l. split_all; [reflexivity|exact Ha|intros y []].
  - intros Hfind. destruct (IH Hfind) as (l1 & l2 & -> & Hx & Hl1).
    exists (a :: l1), l2. split_all; [reflexivity|exact Hx|].
    intros y [<-|Hy]; [exact Ha|exact (Hl1 y Hy)].
Qed.

Lemma solvedGrid_truthy solution r c :
  solvedGrid solution -> r < 16 -> c < 16 -> truthy (cell solution r c) = true.
Proof.
  intros (_ & Hcells & _) Hr Hc. destruct (Hcells r c Hr Hc) as (s & -> & Hs).
  simpl. apply negb_true_iff, String.eqb_neq, HEX_VALUES_nonempty, Hs.
Qed.

Lemma getHint_Some board solution h :
  solvedGrid solution -> getHint board solution = Some h ->
  h_row h < 16 /\ h_col h < 16 /\
  truthy (cell board (h_row h) (h_col h)) = false /\
  h_value h = cell solution (h_row h) (h_col h) /\
  exists before after,
    allCoords = before ++ (h_row h, h_col h) :: after /\
    forall p, In p before -> truthy (cell board p.1 p.2) = true.
Proof.
  intros Hsolved. unfold getHint.
  destruct (List.find _ allCoords) as [[row col]|] eqn:Hfind; [|discriminate].
  intros [= <-]. cbn [h_row h_col h_value].
  pose proof (find_some _ _ Hfind) as [Hin Hp].
  apply in_allCoords in Hin as [Hrow Hcol]. cbn [fst snd] in *.
  apply andb_true_iff in Hp as [Hp _]. apply negb_true_iff in Hp.
  split_all; try assumption; try reflexivity.
  destruct (find_split _ _ _ Hfind) as (before & after & Hsplit & _ & Hbefore).
  exists before, after. split; [exact Hsplit|]. intros [r c] Hin.
  specialize (Hbefore _ Hin). cbn [fst snd] in *.
  assert (Hgrid : inGrid (r, c))
    by (apply in_allCoords; rewrite Hsplit; apply in_app_iff; left; exact Hin).
  destruct Hgrid as [Hr Hc]. cbn [fst snd] in *.
  rewrite (solvedGrid_truthy solution r c Hsolved Hr Hc), andb_true_r in Hbefore.
  apply negb_false_iff in Hbefore. exact Hbefore.
Qed.

Lemma getHint_None board solution :
  solvedGrid solution -> getHint board solution = None ->
  forall r c, r < 16 -> c < 16 -> truthy (cell board r c) = true.
Proof.
  intros Hsolved. unfold getHint.
  destruct (List.find _ allCoords) as [[row col]|] eqn:Hfind; [discriminate|].
  intros _ r c Hr Hc.
  pose proof (find_none _ _ Hfind (r, c)) as Hp. cbn [fst snd] in Hp.
  rewrite (solvedGrid_truthy solution r c Hsolved Hr Hc), andb_true_r in Hp.
  apply negb_false_iff, Hp, in_allCoords. split; assumption.
Qed.

(** X8. With a solved grid as [solution], [getHint] points at the first
    cell of [board], in row-major order, that is empty, and proposes the
    symbol [solution] has there; it returns [null] exactly when no cell of
    [board] is empty. *)
Theorem getHint_first_empty_cell (board solution : Board) :
  solvedGrid solution ->
  match getHint board solution with
  | Some h =>
      (exists before after,
         allCoords = before ++ (h_row h, h_col h) :: after /\
         forall p, In p before -> truthy (cell board p.1 p.2) = true) /\
      truthy (cell board (h_row h) (h_col h)) = false /\
      h_value h = cell solution (h_row h) (h_col h) /\
      (exists v, h_value h = Some v /\ In v HEX_VALUES)
  | None => forall r c, r < 16 -> c < 16 -> truthy (cell board r c) = true
  end.
Proof.
  intros Hsolved. destruct (getHint board solution) as [h|] eqn:Hhint.
  - destruct (getHint_Some board solution h Hsolved Hhint)
      as (Hrow & Hcol & Hempty & Hvalue & Hfirst).
    split_all; try assumption.
    destruct Hsolved as (_ & Hcells & _).
    destruct (Hcells _ _ Hrow Hcol) as (s & Hs & Hhex).
    exists s. split; [congruence|exact Hhex].
  - exact (getHint_None board solution Hsolved Hhint).
Qed.

Lemma getHint_first_empty_cell_witness :
  match getHint stuckPuzzle sampleSolved with
  | Some h =>
      (exists before after,
         allCoords = before ++ (h_row h, h_col h) :: after /\
         forall p, In p before -> truthy (cell stuckPuzzle p.1 p.2) = true) /\
      truthy (cell stuckPuzzle (h_row h) (h_col h)) = false /\
      h_value h = cell sampleSolved (h_row h) (h_col h) /\
      (exists v, h_value h = Some v /\ In v HEX_VALUES)
  | None => forall r c, r < 16 -> c < 16 -> truthy (cell stuckPuzzle r c) = true
  end.
Proof. exact (getHint_first_empty_cell stuckPuzzle sampleSolved solvedGrid_sampleSolved). Defined.

Lemma carved_truthy puzzle solution r c :
  solvedGrid solution -> carvedFrom puzzle solution -> r < 16 -> c < 16 ->
  truthy (cell puzzle r c) = false -> cell puzzle r c = None.
Proof.
  intros Hsolved [_ Hsub] Hr Hc Hfalsy. destruct (Hsub r c) as [Hnone|Heq]; [exact Hnone|].
  rewrite Heq, (solvedGrid_truthy solution r c Hsolved Hr Hc) in Hfalsy. discriminate.
Qed.

Lemma hint_step puzzle solution h :
  solvedGrid solution -> carvedFrom puzzle solution ->
  getHint puzzle solution = Some h ->
  exists v,
    h_value h = Some v /\ cell solution (h_row h) (h_col h) = Some v /\
    cell puzzle (h_row h) (h_col h) = None /\
    isValidMove puzzle (h_row h) (h_col h) v = true /\
    carvedFrom (setCell puzzle (h_row h) (h_col h) (h_value h)) solution /\
    countNull puzzle = S (countNull (setCell puzzle (h_row h) (h_col h) (h_value h))).
Proof.
  intros Hsolved Hcarved Hhint.
  destruct (getHint_Some puzzle solution h Hsolved Hhint)
    as (Hrow & Hcol & Hempty & Hvalue & _).
  pose proof (carved_truthy puzzle solution _ _ Hsolved Hcarved Hrow Hcol Hempty) as Hnone.
  pose proof Hsolved as (_ & Hcells & _).
  destruct (Hcells _ _ Hrow Hcol) as (v & Hv & Hhex).
  exists v. split_all.
  - congruence.
  - exact Hv.
  - exact Hnone.
  - apply isValidMove_true; [assumption..|]. intros Hclash.
    apply (carved_clashes puzzle solution) in Hclash; [|exact Hcarved].
    exact (solvedGrid_consistent solution Hsolved _ _ v Hrow Hcol Hv Hclash).
  - rewrite Hvalue. apply carvedFrom_restore. exact Hcarved.
  - rewrite Hvalue, Hv. apply countNull_fill; [apply Hcarved|assumption..].
Qed.

(** X9. On a puzzle carved from a solved grid, the hint is a legal move
    into an empty cell: [isValidMove] accepts it, and entering it leaves a
    puzzle that is still carved from the same grid, with one empty cell
    fewer. *)
Theorem getHint_is_legal_move (puzzle solution : Board) (h : Hint) :
  solvedGrid solution -> carvedFrom puzzle solution ->
  getHint puzzle solution = Some h ->
  exists v,
    h_value h = Some v /\
    cell puzzle (h_row h) (h_col h) = None /\
    isValidMove puzzle (h_row h) (h_col h) v = true /\
    carvedFrom (setCell puzzle (h_row h) (h_col h) (Some v)) solution /\
    countNull puzzle = S (countNull (setCell puzzle (h_row h) (h_col h) (Some v))).
Proof.
  intros Hsolved Hcarved Hhint.
  destruct (hint_step puzzle solution h Hsolved Hcarved Hhint)
    as (v & Hv & _ & Hnone & Hvalid & Hcarved' & Hcount).
  rewrite Hv in Hcarved', Hcount. exists v. split_all; assumption.
Qed.

Lemma getHint_stuckPuzzle :
  getHint stuckPuzzle sampleSolved
  = Some {| h_row := 1; h_col := 7; h_value := cell sampleSolved 1 7 |}.
Proof. vm_compute. reflexivity. Qed.

Lemma getHint_is_legal_move_witness :
  exists v,
    cell sampleSolved 1 7 = Some v /\
    cell stuckPuzzle 1 7 = None /\
    isValidMove stuckPuzzle 1 7 v = true /\
    carvedFrom (setCell stuckPuzzle 1 7 (Some v)) sampleSolved /\
    countNull stuckPuzzle = S (countNull (setCell stuckPuzzle 1 7 (Some v))).
Proof.
  exact (getHint_is_legal_move stuckPuzzle sampleSolved _
           solvedGrid_sampleSolved carvedFrom_stuckPuzzle getHint_stuckPuzzle).
Defined.

Lemma carved_no_null puzzle solution :
  carvedFrom puzzle solution -> wf_board solution ->
  (forall r c, r < 16 -> c < 16 -> cell puzzle r c <> None) -> puzzle = solution.
Proof.
  intros [Hwf Hsub] Hwf' Hfull.
  rewrite <- (board_table puzzle Hwf), <- (board_table solution Hwf').
  apply map_ext_in. intros row Hrow. apply map_ext_in. intros col Hcol.
  apply in_seq in Hrow, Hcol.
  destruct (Hsub row col) as [Hnone|Heq]; [|exact Heq].
  destruct (Hfull row col); [lia..|exact Hnone].
Qed.

Lemma followHints_solution n puzzle solution :
  solvedGrid solution -> carvedFrom puzzle solution -> countNull puzzle <= n ->
  followHints n puzzle solution = solution.
Proof.
  intros Hsolved. revert puzzle. induction n as [|n IH]; intros puzzle Hcarved Hcount.
  - cbn [followHints]. apply carved_no_null; [exact Hcarved|apply Hsolved|].
    intros r c Hr Hc Hnone.
    assert (Hpos : 0 < countNull puzzle); [|lia].
    unfold countNull.
    assert (Hin : In (r, c) (List.filter (fun p : Coord => isNull (cell puzzle p.1 p.2))
                               allCoords)).
    { apply filter_In. split; [apply in_allCoords; split; assumption|].
      cbn [fst snd]. rewrite Hnone. reflexivity. }
    destruct (List.filter _ allCoords); [destruct Hin|simpl; lia].
  - cbn [followHints]. destruct (getHint puzzle solution) as [h|] eqn:Hhint.
    + destruct (hint_step puzzle solution h Hsolved Hcarved Hhint)
        as (v & _ & _ & _ & _ & Hcarved' & Hstep).
      apply IH; [exact Hcarved'|lia].
    + apply carved_no_null; [exact Hcarved|apply Hsolved|].
      intros r c Hr Hc Hnone.
      pose proof (getHint_None puzzle solution Hsolved Hhint r c Hr Hc) as Htruthy.
      rewrite Hnone in Htruthy. discriminate.
Qed.

(** X10. Starting from a puzzle carved from a solved grid, asking for a
    hint and entering it as many times as the puzzle has empty cells ends
    on the solution. *)
Theorem followHints_reaches_solution (puzzle solution : Board) :
  solvedGrid solution -> carvedFrom puzzle solution ->
  followHints (countNull puzzle) puzzle solution = solution.
Proof.
  intros Hsolved Hcarved. apply followHints_solution; [assumption..|lia].
Qed.

Lemma followHints_reaches_solution_witness :
  followHints (countNull stuckPuzzle) stuckPuzzle sampleSolved = sampleSolved.
Proof.
  exact (followHints_reaches_solution stuckPuzzle sampleSolved
           solvedGrid_sampleSolved carvedFrom_stuckPuzzle).
Defined.

(** ** The backtracking searches keep the given cells *)

Lemma extends_fill board row col value :
  cell board row col = None -> extends board (setCell board row col (Some value)).
Proof.
  intros Hnull r c v Hv. rewrite cell_setCell_ne; [exact Hv|].
  intros [= -> ->]. congruence.
Qed.

Section SolverExtends.
Variable bound : nat.
Variable rec : Board -> nat -> option (bool * Board * nat).
Hypothesis rec_spec : forall board k,
  validPartial board -> countNull board < bound ->
  exists res board' k',
    rec board k = Some (res, board', k') /\
    (res = true -> validPartial board' /\ full board') /\
    (res = false -> board' = board /\ forall grid, ~ completion board grid).
Hypothesis rec_extends : forall board k board' k',
  validPartial board -> countNull board < bound ->
  rec board k = Some (true, board', k') -> extends board board'.

Lemma tryValues_extends row col values board k board' k' :
  row < 16 -> col < 16 -> (forall v, In v values -> In v HEX_VALUES) ->
  validPartial board -> cell board row col = None -> countNull board <= bound ->
  tryValues rec row col values board k = Some (true, board', k') ->
  extends board board'.
Proof.
  intros Hrow Hcol Hvalues Hvalid Hnull Hbound. revert k.
  induction values as [|value values IH]; intros k; [discriminate|].
  assert (Hvalues' : forall v, In v values -> In v HEX_VALUES)
    by (intros v Hv; apply Hvalues; right; exact Hv).
  specialize (IH Hvalues'). cbn [tryValues].
  destruct (isValidMove board row col value) eqn:Hmove; [|apply IH].
  pose proof Hvalid as (Hwf & _ & _).
  pose proof (countNull_fill board row col value Hwf Hrow Hcol Hnull) as Hcount.
  assert (Hvalid' : validPartial (setCell board row col (Some value))).
  { apply validPartial_fill; auto. apply Hvalues. left. reflexivity. }
  destruct (rec_spec (setCell board row col (Some value)) k Hvalid')
    as (res & board1 & k1 & Hrec & _ & Hfalse); [lia|].
  rewrite Hrec. destruct res.
  - intros [= <- <-]. intros r c v Hv.
    apply (rec_extends _ _ _ _ Hvalid' ltac:(lia) Hrec).
    apply extends_fill; assumption.
  - destruct (Hfalse eq_refl) as [-> _]. rewrite setCell_setCell.
    assert (setCell board row col None = board) as ->
      by (rewrite <- Hnull; apply setCell_cell).
    apply IH.
Qed.
End SolverExtends.

Section SolverKeeps.
Variable shuffleSort : nat -> list string -> list string * nat.
Hypothesis shuffleSort_perm : forall k l, (shuffleSort k l).1 ≡ₚ l.

Lemma solveBoardRecursive_extends fuel board k board' k' :
  validPartial board -> countNull board < fuel ->
  solveBoardRecursive shuffleSort fuel board k = Some (true, board', k') ->
  extends board board'.
Proof.
  revert board k board' k'.
  induction fuel as [|fuel IH]; intros board k board' k' Hvalid Hlt; [lia|].
  cbn [solveBoardRecursive].
  destruct (firstNull board) as [[row col]|] eqn:Hfirst.
  - apply firstNull_Some in Hfirst as (Hrow & Hcol & Hnull).
    pose proof (shuffleSort_perm k HEX_VALUES) as Hperm.
    destruct (shuffleSort k HEX_VALUES) as [shuffledValues k1]. cbn [fst] in Hperm.
    apply (tryValues_extends fuel (solveBoardRecursive shuffleSort fuel)); auto with lia.
    + intros b j. apply solveBoardRecursive_spec. exact shuffleSort_perm.
    + intros v Hv. apply list_elem_of_In. rewrite <- Hperm. apply list_elem_of_In, Hv.
  - intros [= <- <-]. intros r c v Hv. exact Hv.
Qed.

Lemma solveBoardRecursive_decides fuel board k :
  validPartial board -> countNull board < fuel ->
  exists res board' k',
    solveBoardRecursive shuffleSort fuel board k = Some (res, board', k') /\
    (res = true -> completion board board') /\
    (res = false -> board' = board /\ forall grid, ~ completion board grid).
Proof.
  intros Hvalid Hlt.
  destruct (solveBoardRecursive_spec shuffleSort shuffleSort_perm fuel board k Hvalid Hlt)
    as (res & board' & k' & Heq & Htrue & Hfalse).
  exists res, board', k'. split_all; [exact Heq| |exact Hfalse].
  intros ->. destruct (Htrue eq_refl) as [Hvalid' Hfull].
  unfold completion. split_all; [exact Hvalid'|exact Hfull|].
  exact (solveBoardRecursive_extends fuel board k board' k' Hvalid Hlt Heq).
Qed.
End SolverKeeps.

(** X11. Started on any grid without repetitions, the search of the board
    builder returns, whatever the shuffles produce.  It answers [true]
    exactly when the grid can be completed, and then the board it leaves is
    a completion: full, without repetitions, and with every given cell
    kept.  When it answers [false] the board is back to what it was. *)
Theorem solveBoardRecursive_decides_completion
    (shuffleSort : nat -> list string -> list string * nat) (board : Board) (k : nat) :
  (forall k l, (shuffleSort k l).1 ≡ₚ l) ->
  validPartial board ->
  exists res board' k',
    solveBoardRecursive shuffleSort searchFuel board k = Some (res, board', k') /\
    (res = true -> completion board board') /\
    (res = false -> board' = board /\ forall grid, ~ completion board grid).
Proof.
  intros Hperm Hvalid.
  exact (solveBoardRecursive_decides shuffleSort Hperm searchFuel board k Hvalid
           (countNull_lt_fuel board)).
Qed.

Lemma keepOrder_perm k l : (keepOrder k l).1 ≡ₚ l.
Proof. reflexivity. Qed.

Lemma validPartial_stuckPuzzle : validPartial stuckPuzzle.
Proof.
  apply validPartial_check; [apply carvedFrom_stuckPuzzle|]. vm_compute. reflexivity.
Qed.

Lemma solveBoardRecursive_decides_completion_witness :
  exists res board' k',
    solveBoardRecursive keepOrder searchFuel stuckPuzzle 0 = Some (res, board', k') /\
    (res = true -> completion stuckPuzzle board') /\
    (res = false -> board' = stuckPuzzle /\ forall grid, ~ completion stuckPuzzle grid).
Proof.
  exact (solveBoardRecursive_decides_completion keepOrder stuckPuzzle 0
           keepOrder_perm validPartial_stuckPuzzle).
Defined.

(** ** The solver *)

Lemma find_ext_in {A} (p q : A -> bool) (l : list A) :
  (forall x, In x l -> p x = q x) -> List.find p l = List.find q l.
Proof.
  induction l as [|a l IH]; intros H; [reflexivity|]. simpl.
  rewrite (H a) by (left; reflexivity).
  rewrite IH by (intros x Hx; apply H; right; exact Hx). reflexivity.
Qed.

Lemma firstFalsy_firstNull board : hex_board board -> firstFalsy board = firstNull board.
Proof.
  intros Hhex. unfold firstFalsy, firstNull. apply find_ext_in. intros [r c] _.
  cbn [fst snd]. destruct (cell board r c) as [s|] eqn:Hs; [|reflexivity].
  simpl. apply negb_false_iff, negb_true_iff, String.eqb_neq, HEX_VALUES_nonempty.
  exact (Hhex r c s Hs).
Qed.

Section SolveAsSearch.
Variable bound : nat.
Variable rec1 : Board -> option (bool * Board).
Variable rec2 : Board -> nat -> option (bool * Board * nat).
Hypothesis rec_same : forall board k,
  validPartial board -> countNull board < bound -> rec1 board = forgetDraws (rec2 board k).
Hypothesis rec_spec : forall board k,
  validPartial board -> countNull board < bound ->
  exists res board' k',
    rec2 board k = Some (res, board', k') /\
    (res = true -> validPartial board' /\ full board') /\
    (res = false -> board' = board /\ forall grid, ~ completion board grid).

Lemma trySolve_tryValues row col values board k :
  row < 16 -> col < 16 -> (forall v, In v values -> In v HEX_VALUES) ->
  validPartial board -> cell board row col = None -> countNull board <= bound ->
  trySolve rec1 row col values board = forgetDraws (tryValues rec2 row col values board k).
Proof.
  intros Hrow Hcol Hvalues Hvalid Hnull Hbound. revert k.
  induction values as [|value values IH]; intros k; [reflexivity|].
  assert (Hvalues' : forall v, In v values -> In v HEX_VALUES)
    by (intros v Hv; apply Hvalues; right; exact Hv).
  specialize (IH Hvalues'). cbn [tryValues trySolve].
  destruct (isValidMove board row col value) eqn:Hmove; [|apply IH].
  pose proof Hvalid as (Hwf & _ & _).
  pose proof (countNull_fill board row col value Hwf Hrow Hcol Hnull) as Hcount.
  assert (Hvalid' : validPartial (setCell board row col (Some value))).
  { apply validPartial_fill; auto. apply Hvalues. left. reflexivity. }
  rewrite (rec_same _ k Hvalid') by lia.
  destruct (rec_spec (setCell board row col (Some value)) k Hvalid')
    as (res & board1 & k1 & -> & _ & Hfalse); [lia|].
  cbn [forgetDraws]. destruct res; [reflexivity|].
  destruct (Hfalse eq_refl) as [-> _]. rewrite setCell_setCell.
  assert (setCell board row col None = board) as ->
    by (rewrite <- Hnull; apply setCell_cell).
  apply IH.
Qed.
End SolveAsSearch.

Lemma solve_as_search fuel board k :
  validPartial board -> countNull board < fuel ->
  solve fuel board = forgetDraws (solveBoardRecursive keepOrder fuel board k).
Proof.
  revert board k. induction fuel as [|fuel IH]; intros board k Hvalid Hlt; [lia|].
  cbn [solve solveBoardRecursive].
  rewrite (firstFalsy_firstNull board) by apply Hvalid.
  destruct (firstNull board) as [[row col]|] eqn:Hfirst; [|reflexivity].
  apply firstNull_Some in Hfirst as (Hrow & Hcol & Hnull).
  unfold keepOrder at 1. cbv iota beta.
  apply (trySolve_tryValues fuel); auto with lia.
  intros b j. apply solveBoardRecursive_spec. exact keepOrder_perm.
Qed.

Lemma solvePuzzle_decides (board : Board) :
  validPartial board ->
  exists result,
    solvePuzzle board = Some result /\
    match result with
    | Some grid => completion board grid
    | None => forall grid, ~ completion board grid
    end.
Proof.
  intros Hvalid. unfold solvePuzzle. cbv zeta.
  rewrite (solve_as_search searchFuel board 0 Hvalid (countNull_lt_fuel board)).
  destruct (solveBoardRecursive_decides keepOrder keepOrder_perm searchFuel board 0 Hvalid
              (countNull_lt_fuel board))
    as (res & board' & k' & -> & Htrue & Hfalse).
  cbn [forgetDraws mbind option_bind]. destruct res.
  - eexists. split; [reflexivity|]. exact (Htrue eq_refl).
  - eexists. split; [reflexivity|]. exact (proj2 (Hfalse eq_refl)).
Qed.

(** X12. On any grid without repetitions [solvePuzzle] returns: a
    completion of the grid (full, without repetitions, every given cell
    kept) when there is one, and [null] exactly when the grid cannot be
    completed. *)
Theorem solvePuzzle_sound_and_complete (board : Board) :
  validPartial board ->
  exists result,
    solvePuzzle board = Some result /\
    match result with
    | Some grid => completion board grid
    | None => forall grid, ~ completion board grid
    end.
Proof. exact (solvePuzzle_decides board). Qed.

Lemma solvePuzzle_sound_and_complete_witness :
  exists result,
    solvePuzzle stuckPuzzle = Some result /\
    match result with
    | Some grid => completion stuckPuzzle grid
    | None => forall grid, ~ completion stuckPuzzle grid
    end.
Proof. exact (solvePuzzle_sound_and_complete stuckPuzzle validPartial_stuckPuzzle). Defined.

(** ** The solution counter counts completions *)

Lemma completion_of_fill board row col value grid :
  wf_board board -> row < 16 -> col < 16 -> cell board row col = None ->
  completion (setCell board row col (Some value)) grid <->
  completion board grid /\ cell grid row col = Some value.
Proof.
  intros Hwf Hrow Hcol Hnull. split.
  - intros (Hvalid & Hfull & Hext). split.
    + unfold completion. split_all; [exact Hvalid|exact Hfull|].
      intros r c v Hv. apply Hext. apply extends_fill; assumption.
    + apply Hext. apply cell_setCell_eq; assumption.
  - intros [Hgrid Hv]. apply completion_fill; assumption.
Qed.

Lemma completion_self board : validPartial board -> full board -> completion board board.
Proof. intros Hvalid Hfull. unfold completion. split_all; auto. Qed.

Lemma completion_full_eq board grid :
  validPartial board -> full board -> completion board grid -> grid = board.
Proof.
  intros (Hwf & _) Hfull ((Hwf' & _) & _ & Hext).
  rewrite <- (board_table board Hwf), <- (board_table grid Hwf').
  apply map_ext_in. intros row Hrow. apply map_ext_in. intros col Hcol.
  apply in_seq in Hrow, Hcol.
  destruct (cell board row col) as [v|] eqn:Hv.
  - apply Hext. exact Hv.
  - destruct (Hfull row col); [lia..|exact Hv].
Qed.

Lemma solutionsOf_full board :
  validPartial board -> full board -> solutionsOf board [board].
Proof.
  intros Hvalid Hfull. split; [apply NoDup_singleton|]. intros grid. split.
  - intros [<-|[]]. apply completion_self; assumption.
  - intros Hgrid. left. symmetry. apply completion_full_eq; assumption.
Qed.

Lemma via_cons_invalid board row col value rest grid :
  row < 16 -> col < 16 -> isValidMove board row col value = false ->
  viaValues board row col (value :: rest) grid <-> viaValues board row col rest grid.
Proof.
  intros Hrow Hcol Hmove. unfold viaValues. split.
  - intros (Hgrid & v & [<-|Hin] & Hv).
    + destruct (completion_rejects_invalid board grid row col value Hrow Hcol Hmove Hgrid Hv).
    + split; [exact Hgrid|]. exists v. auto.
  - intros (Hgrid & v & Hin & Hv). split; [exact Hgrid|]. exists v. split; [right|]; auto.
Qed.

Lemma via_cons_valid board row col value rest grid :
  wf_board board -> row < 16 -> col < 16 -> cell board row col = None ->
  viaValues board row col (value :: rest) grid <->
  completion (setCell board row col (Some value)) grid \/ viaValues board row col rest grid.
Proof.
  intros Hwf Hrow Hcol Hnull.
  rewrite (completion_of_fill board row col value grid Hwf Hrow Hcol Hnull).
  unfold viaValues. split.
  - intros (Hgrid & v & [<-|Hin] & Hv); [left; auto|right].
    split; [exact Hgrid|]. exists v. auto.
  - intros [[Hgrid Hv]|(Hgrid & v & Hin & Hv)].
    + split; [exact Hgrid|]. exists value. split; [left|]; auto.
    + split; [exact Hgrid|]. exists v. split; [right|]; auto.
Qed.

Lemma via_disjoint board row col value rest grid :
  wf_board board -> row < 16 -> col < 16 -> cell board row col = None ->
  ~ In value rest ->
  completion (setCell board row col (Some value)) grid ->
  ~ viaValues board row col rest grid.
Proof.
  intros Hwf Hrow Hcol Hnull Hfresh Hgrid (_ & v & Hin & Hv).
  apply (completion_of_fill board row col value grid Hwf Hrow Hcol Hnull) in Hgrid
    as [_ Hvalue].
  apply Hfresh. congruence.
Qed.

Lemma NoDup_app_disjoint {A} (l k : list A) :
  NoDup l -> NoDup k -> (forall x, In x l -> ~ In x k) -> NoDup (l ++ k).
Proof.
  intros Hl Hk Hdis. apply NoDup_app. split_all; [exact Hl| |exact Hk].
  intros x Hx Hx'. apply list_elem_of_In in Hx, Hx'. exact (Hdis x Hx Hx').
Qed.

Section BruteCount.
Variable maxSolutions : nat.
Variable bound : nat.
Variable rec : BruteState -> option (bool * BruteState).
Hypothesis rec_count : forall board n,
  validPartial board -> countNull board < bound -> n < maxSolutions ->
  exists res board' n',
    rec (board, n) = Some (res, (board', n')) /\
    match res with
    | false =>
        board' = board /\ n' < maxSolutions /\
        exists sols, solutionsOf board sols /\ n' = n + length sols
    | true =>
        (full board /\ board' = board /\ n' = n) \/
        (maxSolutions <= n' /\
         exists sols, NoDup sols /\ (forall g, In g sols -> completion board g) /\
                      maxSolutions <= n + length sols)
    end.

(** One round of the value loop: either the loop goes on from the same
    board with the completions through [value] counted, or it stops with
    the cap reached. *)
Lemma tryBrute_round row col value rest board n :
  row < 16 -> col < 16 -> In value HEX_VALUES ->
  validPartial board -> cell board row col = None -> countNull board <= bound ->
  n < maxSolutions -> isValidMove board row col value = true ->
  (exists m sols,
     tryBrute rec maxSolutions row col (value :: rest) (board, n)
     = tryBrute rec maxSolutions row col rest (board, m) /\
     solutionsOf (setCell board row col (Some value)) sols /\
     m = n + length sols /\ m < maxSolutions) \/
  (exists board' m,
     tryBrute rec maxSolutions row col (value :: rest) (board, n) = Some (true, (board', m)) /\
     maxSolutions <= m /\
     exists sols, NoDup sols /\
       (forall g, In g sols -> completion (setCell board row col (Some value)) g) /\
       maxSolutions <= n + length sols).
Proof.
  intros Hrow Hcol Hvalue Hvalid Hnull Hbound Hn Hmove.
  pose proof Hvalid as (Hwf & _ & _).
  pose proof (countNull_fill board row col value Hwf Hrow Hcol Hnull) as Hcount.
  assert (Hvalid' : validPartial (setCell board row col (Some value)))
    by (apply validPartial_fill; auto).
  assert (Hreset : setCell (setCell board row col (Some value)) row col None = board).
  { rewrite setCell_setCell, <- Hnull. apply setCell_cell. }
  cbn [tryBrute]. rewrite Hmove.
  destruct (rec_count (setCell board row col (Some value)) n Hvalid')
    as (res & board1 & n1 & -> & Hres); [lia|exact Hn|].
  destruct res.
  - destruct Hres as [(Hfull & -> & ->)|(Hcap & sols & Hnd & Hsub & Hge)].
    + destruct (maxSolutions <=? S n) eqn:Hstop.
      * apply Nat.leb_le in Hstop. right. do 2 eexists. split_all; [reflexivity|exact Hstop|].
        exists [setCell board row col (Some value)]. split_all.
        -- apply NoDup_singleton.
        -- intros g [<-|[]]. apply completion_self; assumption.
        -- simpl. lia.
      * apply Nat.leb_gt in Hstop. left. rewrite Hreset.
        exists (S n), [setCell board row col (Some value)].
        split_all; [reflexivity| |simpl; lia|exact Hstop].
        apply (solutionsOf_full _ Hvalid' Hfull).
    + assert ((maxSolutions <=? S n1) = true) as -> by (apply Nat.leb_le; lia).
      right. do 2 eexists. split_all; [reflexivity|lia|].
      exists sols. split_all; assumption.
  - destruct Hres as (-> & Hlt & sols & Hsols & ->). left. rewrite Hreset.
    exists (n + length sols), sols. split_all; try reflexivity; assumption.
Qed.

Lemma tryBrute_count row col values board n :
  row < 16 -> col < 16 -> NoDup values -> (forall v, In v values -> In v HEX_VALUES) ->
  validPartial board -> cell board row col = None -> countNull board <= bound ->
  n < maxSolutions ->
  exists res board' n',
    tryBrute rec maxSolutions row col values (board, n) = Some (res, (board', n')) /\
    match res with
    | false =>
        board' = board /\ n' < maxSolutions /\
        exists sols, NoDup sols /\
          (forall g, In g sols <-> viaValues board row col values g) /\
          n' = n + length sols
    | true =>
        maxSolutions <= n' /\
        exists sols, NoDup sols /\
          (forall g, In g sols -> viaValues board row col values g) /\
          maxSolutions <= n + length sols
    end.
Proof.
  intros Hrow Hcol Hnd Hvalues Hvalid Hnull Hbound. revert n.
  pose proof Hvalid as (Hwf & _ & _).
  induction values as [|value values IH]; intros n Hn.
  { exists false, board, n. split; [reflexivity|]. split_all; [reflexivity|exact Hn|].
    exists []. split_all; [apply NoDup_nil_2| |simpl; lia].
    intros g. split; [intros []|]. intros (_ & v & [] & _). }
  apply NoDup_cons in Hnd as [Hfresh Hnd]. rewrite list_elem_of_In in Hfresh.
  assert (Hvalues' : forall v, In v values -> In v HEX_VALUES)
    by (intros v Hv; apply Hvalues; right; exact Hv).
  specialize (IH Hnd Hvalues').
  destruct (isValidMove board row col value) eqn:Hmove.
  - destruct (tryBrute_round row col value values board n Hrow Hcol
                (Hvalues value (or_introl eq_refl)) Hvalid Hnull Hbound Hn Hmove)
      as [(m & sols1 & -> & [Hnd1 Hsols1] & -> & Hm)|(board' & m & -> & Hm & sols1 & Hnd1 & Hsub & Hge)].
    + destruct (IH (n + length sols1) Hm) as (res & board' & n' & -> & Hres).
      exists res, board', n'. split; [reflexivity|].
      destruct res.
      * destruct Hres as (Hcap & sols2 & Hnd2 & Hsub2 & Hge). split; [exact Hcap|].
        exists (sols1 ++ sols2). split_all.
        -- apply NoDup_app_disjoint; [assumption..|]. intros g Hg1 Hg2.
           apply (via_disjoint board row col value values g); auto.
           apply Hsols1, Hg1.
        -- intros g Hg. apply via_cons_valid; try assumption.
           apply in_app_iff in Hg as [Hg|Hg]; [left; apply Hsols1, Hg|right; auto].
        -- rewrite length_app. lia.
      * destruct Hres as (-> & Hlt & sols2 & Hnd2 & Hiff2 & ->). split_all; try done.
        exists (sols1 ++ sols2). split_all.
        -- apply NoDup_app_disjoint; [assumption..|]. intros g Hg1 Hg2.
           apply (via_disjoint board row col value values g); auto.
           ++ apply Hsols1, Hg1.
           ++ apply Hiff2, Hg2.
        -- intros g. rewrite in_app_iff, Hsols1, Hiff2.
           symmetry. apply via_cons_valid; assumption.
        -- rewrite length_app. lia.
    + exists true, board', m. split; [reflexivity|]. split; [exact Hm|].
      exists sols1. split_all; [exact Hnd1| |exact Hge].
      intros g Hg. apply via_cons_valid; try assumption. left. apply Hsub, Hg.
  - cbn [tryBrute]. rewrite Hmove.
    destruct (IH n Hn) as (res & board' & n' & -> & Hres).
    exists res, board', n'. split; [reflexivity|]. destruct res.
    + destruct Hres as (Hcap & sols & Hnd' & Hsub & Hge). split; [exact Hcap|].
      exists sols. split_all; [exact Hnd'| |exact Hge].
      intros g Hg. apply via_cons_invalid; auto.
    + destruct Hres as (-> & Hlt & sols & Hnd' & Hiff & ->). split_all; try done.
      exists sols. split_all; [exact Hnd'| |reflexivity].
      intros g. rewrite Hiff. symmetry. apply via_cons_invalid; auto.
Qed.
End BruteCount.

Lemma via_all_values board row col grid :
  row < 16 -> col < 16 ->
  viaValues board row col HEX_VALUES grid <-> completion board grid.
Proof.
  intros Hrow Hcol. unfold viaValues. split; [intros [H _]; exact H|].
  intros Hgrid. split; [exact Hgrid|].
  destruct Hgrid as ((_ & Hhex & _) & Hfull & _).
  destruct (cell grid row col) as [v|] eqn:Hv; [|destruct (Hfull row col Hrow Hcol Hv)].
  exists v. split; [exact (Hhex row col v Hv)|reflexivity].
Qed.

Lemma solveBrute_count fuel maxSolutions board n :
  validPartial board -> countNull board < fuel -> n < maxSolutions ->
  exists res board' n',
    solveBrute fuel maxSolutions (board, n) = Some (res, (board', n')) /\
    match res with
    | false =>
        board' = board /\ n' < maxSolutions /\
        exists sols, solutionsOf board sols /\ n' = n + length sols
    | true =>
        (full board /\ board' = board /\ n' = n) \/
        (maxSolutions <= n' /\
         exists sols, NoDup sols /\ (forall g, In g sols -> completion board g) /\
                      maxSolutions <= n + length sols)
    end.
Proof.
  revert board n. induction fuel as [|fuel IH]; intros board n Hvalid Hlt Hn; [lia|].
  cbn [solveBrute fst]. rewrite (firstFalsy_firstNull board) by apply Hvalid.
  destruct (firstNull board) as [[row col]|] eqn:Hfirst.
  - apply firstNull_Some in Hfirst as (Hrow & Hcol & Hnull).
    destruct (tryBrute_count maxSolutions fuel (solveBrute fuel maxSolutions) IH
                row col HEX_VALUES board n Hrow Hcol NoDup_HEX_VALUES
                (fun v H => H) Hvalid Hnull ltac:(lia) Hn)
      as (res & board' & n' & -> & Hres).
    exists res, board', n'. split; [reflexivity|]. destruct res.
    + right. destruct Hres as (Hcap & sols & Hnd & Hsub & Hge). split; [exact Hcap|].
      exists sols. split_all; [exact Hnd| |exact Hge].
      intros g Hg. apply (via_all_values board row col g Hrow Hcol), Hsub, Hg.
    + destruct Hres as (-> & Hlt' & sols & Hnd & Hiff & ->). split_all; try done.
      exists sols. split; [|reflexivity]. split; [exact Hnd|].
      intros g. rewrite Hiff. apply via_all_values; assumption.
  - exists true, board, n. split; [reflexivity|]. left.
    split_all; try reflexivity. apply firstNull_None, Hfirst.
Qed.

Lemma countSolutions_counts board maxSolutions :
  validPartial board -> hasEmptyCell board -> 0 < maxSolutions ->
  exists n,
    countSolutions board maxSolutions = Some n /\
    ((n < maxSolutions /\ exists sols, solutionsOf board sols /\ length sols = n) \/
     (maxSolutions <= n /\
      exists sols, NoDup sols /\ (forall g, In g sols -> completion board g) /\
                   maxSolutions <= length sols)).
Proof.
  intros Hvalid (r & c & Hr & Hc & Hnull) Hmax. unfold countSolutions.
  destruct (solveBrute_count searchFuel maxSolutions board 0 Hvalid
              (countNull_lt_fuel board) Hmax) as (res & board' & n & -> & Hres).
  exists n. split; [reflexivity|]. destruct res.
  - destruct Hres as [(Hfull & _)|(Hcap & sols & Hnd & Hsub & Hge)].
    + destruct (Hfull r c Hr Hc Hnull).
    + right. split; [exact Hcap|]. exists sols. split_all; assumption.
  - destruct Hres as (_ & Hlt & sols & Hsols & ->). left. split; [exact Hlt|].
    exists sols. split; [exact Hsols|reflexivity].
Qed.

(** X13. On a grid without repetitions that has an empty cell,
    [countSolutions] returns; a result below the cap is the exact number
    of completions of the grid, and a result at or above the cap means the
    grid has at least [maxSolutions] different completions. *)
Theorem countSolutions_exact_below_cap (board : Board) (maxSolutions : nat) :
  validPartial board -> hasEmptyCell board -> 0 < maxSolutions ->
  exists n,
    countSolutions board maxSolutions = Some n /\
    ((n < maxSolutions /\ exists sols, solutionsOf board sols /\ length sols = n) \/
     (maxSolutions <= n /\
      exists sols, NoDup sols /\ (forall g, In g sols -> completion board g) /\
                   maxSolutions <= length sols)).
Proof. exact (countSolutions_counts board maxSolutions). Qed.

Lemma hasEmptyCell_stuckPuzzle : hasEmptyCell stuckPuzzle.
Proof. exists 1, 7. split_all; [lia|lia|reflexivity]. Qed.

Lemma countSolutions_exact_below_cap_witness :
  exists n,
    countSolutions stuckPuzzle 2 = Some n /\
    ((n < 2 /\ exists sols, solutionsOf stuckPuzzle sols /\ length sols = n) \/
     (2 <= n /\
      exists sols, NoDup sols /\ (forall g, In g sols -> completion stuckPuzzle g) /\
                   2 <= length sols)).
Proof.
  apply (countSolutions_exact_below_cap stuckPuzzle 2 validPartial_stuckPuzzle
           hasEmptyCell_stuckPuzzle).
  lia.
Defined.

Lemma NoDup_all_eq {A} (l : list A) (x : A) :
  NoDup l -> (forall y, In y l -> y = x) -> length l <= 1.
Proof.
  intros Hnd Hall. destruct l as [|a [|b l]]; [simpl; lia..|].
  apply NoDup_cons in Hnd as [Ha _]. exfalso. apply Ha.
  rewrite (Hall a), (Hall b) by (simpl; auto). left.
Qed.

Lemma uniquelySolvable_count board sols :
  solutionsOf board sols -> (uniquelySolvable board <-> length sols = 1).
Proof.
  intros [Hnd Hiff]. split.
  - intros (grid & Hgrid & Huniq).
    assert (length sols <= 1)
      by (apply (NoDup_all_eq sols grid Hnd); intros y Hy; apply Huniq, Hiff, Hy).
    apply Hiff in Hgrid. destruct sols; [destruct Hgrid|simpl in *; lia].
  - intros Hlen. destruct sols as [|grid [|? ?]]; try discriminate.
    exists grid. split; [apply Hiff; left; reflexivity|].
    intros grid' Hgrid'. apply Hiff in Hgrid' as [<-|[]]. reflexivity.
Qed.

Lemma uniquelySolvable_few board sols :
  NoDup sols -> (forall g, In g sols -> completion board g) -> 2 <= length sols ->
  ~ uniquelySolvable board.
Proof.
  intros Hnd Hsub Hlen (grid & _ & Huniq).
  assert (length sols <= 1); [|lia].
  apply (NoDup_all_eq sols grid Hnd). intros y Hy. apply Huniq, Hsub, Hy.
Qed.

Lemma hasUniqueSolution_decides (board : Board) :
  validPartial board -> hasEmptyCell board ->
  exists unique,
    hasUniqueSolution board = Some unique /\
    (unique = true <-> uniquelySolvable board).
Proof.
  intros Hvalid Hempty. unfold hasUniqueSolution.
  destruct (countSolutions_counts board 2 Hvalid Hempty ltac:(lia))
    as (n & -> & [(Hlt & sols & Hsols & <-)|(Hcap & sols & Hnd & Hsub & Hge)]).
  - eexists. split; [reflexivity|].
    rewrite (uniquelySolvable_count board sols Hsols). apply Nat.eqb_eq.
  - eexists. split; [reflexivity|]. split.
    + intros Heq. apply Nat.eqb_eq in Heq. lia.
    + intros Huniq. destruct (uniquelySolvable_few board sols Hnd Hsub Hge Huniq).
Qed.

(** X14. On a grid without repetitions that has an empty cell,
    [hasUniqueSolution] returns, and it answers [true] exactly when the
    grid has one and only one completion. *)
Theorem hasUniqueSolution_iff_unique_completion (board : Board) :
  validPartial board -> hasEmptyCell board ->
  exists unique,
    hasUniqueSolution board = Some unique /\
    (unique = true <-> uniquelySolvable board).
Proof. exact (hasUniqueSolution_decides board). Qed.

Lemma hasUniqueSolution_iff_unique_completion_witness :
  exists unique,
    hasUniqueSolution stuckPuzzle = Some unique /\
    (unique = true <-> uniquelySolvable stuckPuzzle).
Proof.
  exact (hasUniqueSolution_iff_unique_completion stuckPuzzle validPartial_stuckPuzzle
           hasEmptyCell_stuckPuzzle).
Defined.

Lemma firstFalsy_None board :
  (forall r c, r < 16 -> c < 16 -> truthy (cell board r c) = true) ->
  firstFalsy board = None.
Proof.
  intros Hfilled. unfold firstFalsy.
  destruct (List.find _ allCoords) as [[r c]|] eqn:Hfind; [|reflexivity].
  apply find_some in Hfind as [Hin Hp]. apply in_allCoords in Hin as [Hr Hc].
  cbn [fst snd] in *. rewrite (Hfilled r c Hr Hc) in Hp. discriminate.
Qed.

(** X15. On a board without an empty cell [countSolutions] returns 0,
    whatever the cap, so [hasUniqueSolution] answers [false]: a completely
    filled grid, even a correctly solved one, is not reported as uniquely
    solvable. *)
Theorem countSolutions_filled_board (board : Board) (maxSolutions : nat) :
  (forall r c, r < 16 -> c < 16 -> truthy (cell board r c) = true) ->
  countSolutions board maxSolutions = Some 0 /\ hasUniqueSolution board = Some false.
Proof.
  intros Hfilled.
  assert (Hcount : forall cap, countSolutions board cap = Some 0).
  { intros cap. unfold countSolutions, searchFuel. cbn [solveBrute fst].
    rewrite (firstFalsy_None board Hfilled). reflexivity. }
  split; [apply Hcount|]. unfold hasUniqueSolution. rewrite Hcount. reflexivity.
Qed.

Lemma countSolutions_filled_board_witness :
  countSolutions sampleSolved 2 = Some 0 /\ hasUniqueSolution sampleSolved = Some false.
Proof.
  apply (countSolutions_filled_board sampleSolved 2).
  intros r c Hr Hc. apply solvedGrid_truthy; [exact solvedGrid_sampleSolved|assumption..].
Defined.

(** ** The depth-limited counter *)

Section BruteSame.
Variable maxSolutions : nat.
Variable bound : nat.
Variable rec1 rec2 : BruteState -> option (bool * BruteState).
Hypothesis rec_same : forall board n,
  wf_board board -> countFalsy board < bound -> rec1 (board, n) = rec2 (board, n).
Hypothesis rec_total : forall board n,
  wf_board board -> countFalsy board < bound ->
  exists res board' n',
    rec1 (board, n) = Some (res, (board', n')) /\
    wf_board board' /\ countFalsy board' <= countFalsy board.

Lemma tryBrute_same row col values board n :
  row < 16 -> col < 16 -> Forall (fun v => v <> "") values ->
  wf_board board -> truthy (cell board row col) = false -> countFalsy board <= bound ->
  tryBrute rec1 maxSolutions row col values (board, n)
  = tryBrute rec2 maxSolutions row col values (board, n).
Proof.
  intros Hrow Hcol Hvalues. revert board n.
  induction Hvalues as [|value values Hvalue _ IH]; intros board n Hwf Hfalsy Hbound;
    [reflexivity|].
  cbn [tryBrute]. destruct (isValidMove board row col value); [|apply IH; assumption].
  pose proof (countFalsy_fill board row col value Hwf Hrow Hcol Hfalsy Hvalue) as Hfill.
  assert (Hwf1 : wf_board (setCell board row col (Some value))) by (apply wf_setCell, Hwf).
  rewrite <- (rec_same _ n Hwf1) by lia.
  destruct (rec_total (setCell board row col (Some value)) n Hwf1)
    as (res & board1 & n1 & -> & Hwf' & Hle); [lia|].
  assert (Hnext : forall m,
            tryBrute rec1 maxSolutions row col values (setCell board1 row col None, m)
            = tryBrute rec2 maxSolutions row col values (setCell board1 row col None, m)).
  { intros m. apply IH.
    - apply wf_setCell, Hwf'.
    - rewrite cell_setCell_eq by assumption. reflexivity.
    - pose proof (countFalsy_clear board1 row col Hwf' Hrow Hcol). lia. }
  destruct res; [|apply Hnext].
  destruct (maxSolutions <=? S n1); [reflexivity|apply Hnext].
Qed.
End BruteSame.

Lemma solveBruteLimited_same fuel maxSolutions maxDepth depth board n :
  wf_board board -> countFalsy board < fuel -> depth + countFalsy board < maxDepth ->
  solveBruteLimited fuel maxSolutions maxDepth depth (board, n)
  = solveBrute fuel maxSolutions (board, n).
Proof.
  revert depth board n.
  induction fuel as [|fuel IH]; intros depth board n Hwf Hlt Hdepth; [lia|].
  cbn [solveBruteLimited solveBrute fst].
  assert ((maxDepth <=? depth) = false) as -> by (apply Nat.leb_gt; lia).
  destruct (firstFalsy board) as [[row col]|] eqn:Hfirst; [|reflexivity].
  apply firstFalsy_Some in Hfirst as (Hrow & Hcol & Hfalsy). symmetry.
  apply (tryBrute_same maxSolutions (countFalsy board));
    auto using HEX_VALUES_Forall_nonempty.
  - intros b m Hb Hless. symmetry. apply IH; [exact Hb|lia..].
  - intros b m Hb Hless. apply solveBrute_total; [exact Hb|lia].
Qed.

(** X16. On a board with fewer than 50 empty cells the depth limit of
    [hasLimitedUniqueSolution] is never reached: it gives the answer of
    [hasUniqueSolution]. *)
Theorem hasLimitedUniqueSolution_exact_below_50 (puzzle : Board) :
  wf_board puzzle -> countFalsy puzzle < 50 ->
  hasLimitedUniqueSolution puzzle = hasUniqueSolution puzzle.
Proof.
  intros Hwf Hfew.
  unfold hasLimitedUniqueSolution, hasUniqueSolution, countSolutionsLimited, countSolutions.
  change (50 <=? 0) with false. cbv iota.
  rewrite (solveBruteLimited_same searchFuel 2 50 0 puzzle 0 Hwf (countFalsy_lt_fuel puzzle))
    by lia.
  reflexivity.
Qed.

Lemma countFalsy_stuckPuzzle : countFalsy stuckPuzzle = 40.
Proof. vm_compute. reflexivity. Qed.

Lemma hasLimitedUniqueSolution_exact_below_50_witness :
  hasLimitedUniqueSolution stuckPuzzle = hasUniqueSolution stuckPuzzle.
Proof.
  apply (hasLimitedUniqueSolution_exact_below_50 stuckPuzzle).
  - exact (proj1 carvedFrom_stuckPuzzle).
  - rewrite countFalsy_stuckPuzzle. lia.
Defined.

(** ** The Fisher-Yates shuffle *)

Lemma randomIndex_range (random : nat -> Q) (i k : nat) :
  (0 <= random k)%Q -> (random k < 1)%Q -> randomIndex random i k <= i.
Proof.
  intros Hlo Hhi. unfold randomIndex.
  assert (Hlt : (Qfloor (random k * natQ (i + 1)) < Z.of_nat (i + 1))%Z).
  { rewrite Zlt_Qlt. eapply Qle_lt_trans; [apply Qfloor_le|].
    change (inject_Z (Z.of_nat (i + 1))) with (natQ (i + 1)).
    rewrite <- (Qmult_1_l (natQ (i + 1))) at 2.
    apply Qmult_lt_compat_r; [|exact Hhi].
    unfold natQ. change 0%Q with (inject_Z 0). rewrite <- Zlt_Qlt. lia. }
  lia.
Qed.

Lemma shuffleFrom_draws {A} (random : nat -> Q) i (l : list A) k :
  (shuffleFrom random i l k).2 = k + i.
Proof.
  revert l k. induction i as [|i IH]; intros l k; cbn [shuffleFrom]; [cbn [snd]; lia|].
  rewrite IH. lia.
Qed.

Lemma shuffle_draws {A} (random : nat -> Q) (l : list A) k :
  (shuffle random l k).2 = k + (length l - 1).
Proof. apply shuffleFrom_draws. Qed.

(** X17. The Fisher-Yates loop used by the carver rearranges its array:
    the result is a permutation of the input, and it takes one random
    number for each position but the first.  As [Math.random()] lies in
    [0, 1), the index drawn for position [i] is at most [i], so every
    exchange stays inside the array. *)
Theorem shuffle_is_permutation {A} (random : nat -> Q) (l : list A) (k : nat) :
  (forall n, (0 <= random n)%Q /\ (random n < 1)%Q) ->
  (shuffle random l k).1 ≡ₚ l /\
  (shuffle random l k).2 = k + (length l - 1) /\
  forall i n, randomIndex random i n <= i.
Proof.
  intros Hrange. split_all.
  - apply shuffle_Permutation.
  - apply shuffle_draws.
  - intros i n. apply randomIndex_range; apply Hrange.
Qed.

Lemma shuffle_is_permutation_witness :
  (shuffle unluckyRandom HEX_VALUES 0).1 ≡ₚ HEX_VALUES /\
  (shuffle unluckyRandom HEX_VALUES 0).2 = 0 + (length HEX_VALUES - 1) /\
  forall i n, randomIndex unluckyRandom i n <= i.
Proof.
  apply (shuffle_is_permutation unluckyRandom HEX_VALUES 0).
  intros n. apply unluckyRandom_range.
Defined.

(** ** Phase 1 of the carver *)

Lemma cell_clearAll_notin board cells r c :
  ~ In (r, c) cells -> cell (clearAll board cells) r c = cell board r c.
Proof.
  unfold clearAll. revert board. induction cells as [|p cells IH]; intros board Hnotin;
    [reflexivity|].
  cbn [foldl]. rewrite IH by (intros H; apply Hnotin; right; exact H).
  apply cell_setCell_ne. intros Heq. apply Hnotin. left. destruct p. exact (eq_sym Heq).
Qed.

Lemma cell_clearAll_in board cells r c :
  wf_board board -> (forall p, In p cells -> inGrid p) -> In (r, c) cells ->
  cell (clearAll board cells) r c = None.
Proof.
  revert board. induction cells as [|p cells IH]; intros board Hwf Hgrid Hin;
    [destruct Hin|].
  change (clearAll board (p :: cells)) with (clearAll (setCell board p.1 p.2 None) cells).
  destruct (decide ((r, c) ∈ cells)) as [Hrest|Hrest]; rewrite list_elem_of_In in Hrest.
  - apply IH; [apply wf_setCell, Hwf|intros q Hq; apply Hgrid; right; exact Hq|exact Hrest].
  - rewrite cell_clearAll_notin by exact Hrest.
    destruct Hin as [->|Hin]; [|contradiction]. cbn [fst snd].
    destruct (Hgrid (r, c) (or_introl eq_refl)) as [Hr Hc].
    apply cell_setCell_eq; assumption.
Qed.

Lemma countNull_clear board row col :
  wf_board board -> row < 16 -> col < 16 -> cell board row col <> None ->
  countNull (setCell board row col None) = S (countNull board).
Proof.
  intros Hwf Hrow Hcol Hfilled. unfold countNull.
  apply (filter_length_flip _ _ allCoords (row, col)).
  - apply NoDup_allCoords.
  - apply in_allCoords. split; assumption.
  - intros [r c] Hne. cbn [fst snd]. rewrite cell_setCell_ne by assumption. reflexivity.
  - cbn [fst snd]. rewrite cell_setCell_eq by assumption. reflexivity.
  - cbn [fst snd]. destruct (cell board row col); [reflexivity|contradiction].
Qed.

Lemma countNull_clearAll board cells :
  wf_board board -> NoDup cells ->
  (forall p, In p cells -> inGrid p /\ cell board p.1 p.2 <> None) ->
  countNull (clearAll board cells) = countNull board + length cells.
Proof.
  revert board. induction cells as [|p cells IH]; intros board Hwf Hnd Hcells.
  { unfold clearAll. cbn [foldl length]. rewrite Nat.add_0_r. reflexivity. }
  apply NoDup_cons in Hnd as [Hfresh Hnd]. rewrite list_elem_of_In in Hfresh.
  change (clearAll board (p :: cells)) with (clearAll (setCell board p.1 p.2 None) cells).
  destruct (Hcells p (or_introl eq_refl)) as [[Hr Hc] Hfilled].
  rewrite IH.
  - rewrite countNull_clear by assumption. cbn [length]. lia.
  - apply wf_setCell, Hwf.
  - exact Hnd.
  - intros q Hq. destruct (Hcells q (or_intror Hq)) as [Hgrid Hq'].
    split; [exact Hgrid|]. rewrite cell_setCell_ne; [exact Hq'|].
    intros Heq. apply Hfresh. destruct p, q. cbn [fst snd] in Heq.
    injection Heq as -> ->. exact Hq.
Qed.

Lemma countNull_full board : full board -> countNull board = 0.
Proof.
  intros Hfull. unfold countNull. apply filter_length_none. intros [r c] Hin.
  apply in_allCoords in Hin as [Hr Hc]. cbn [fst snd] in *.
  destruct (cell board r c) eqn:Hcell; [reflexivity|]. destruct (Hfull r c Hr Hc Hcell).
Qed.

Lemma symmetricStep_stopped maxR puzzle removed pairs :
  foldl (symmetricStep maxR) (puzzle, removed, true) pairs = (puzzle, removed, true).
Proof. induction pairs as [|pair pairs IH]; [reflexivity|]. cbn [foldl symmetricStep]. exact IH. Qed.

(** The loop of phase 1 clears the first [m] pairs, where [m] is the
    number of rounds before the cap is met. *)
Lemma symmetricStep_fold maxR pairs puzzle removed :
  (forall pr, In pr pairs -> pr.1 <> pr.2) ->
  exists m stop,
    m <= length pairs /\
    foldl (symmetricStep maxR) (puzzle, removed, false) pairs
    = (clearAll puzzle (pairCells (take m pairs)), removed + 2 * m, stop) /\
    (m < length pairs -> Qle_bool maxR (natQ (removed + 2 * m)) = true) /\
    (forall j, j < m -> Qle_bool maxR (natQ (removed + 2 * j)) = false).
Proof.
  revert puzzle removed. induction pairs as [|pair pairs IH]; intros puzzle removed Hdistinct.
  { exists 0, false. split_all; [lia|rewrite Nat.add_0_r; reflexivity|simpl; lia|lia]. }
  cbn [foldl]. unfold symmetricStep at 2.
  destruct (Qle_bool maxR (natQ removed)) eqn:Hcap.
  - exists 0, true. rewrite symmetricStep_stopped. rewrite Nat.add_0_r.
    split_all; [lia|reflexivity|intros _; exact Hcap|lia].
  - destruct pair as [[r1 c1] [r2 c2]].
    assert (Hne : (r1 =? r2) && (c1 =? c2) = false).
    { apply not_true_iff_false. intros H. apply andb_true_iff in H as [H1 H2].
      apply Nat.eqb_eq in H1, H2. subst.
      exact (Hdistinct _ (or_introl eq_refl) eq_refl). }
    rewrite Hne.
    destruct (IH (setCell (setCell puzzle r1 c1 None) r2 c2 None) (removed + 2))
      as (m & stop & Hm & Heq & Hstop & Hbefore).
    { intros pr Hpr. apply Hdistinct. right. exact Hpr. }
    exists (S m), stop. split_all.
    + simpl. lia.
    + rewrite Heq. replace (removed + 2 * S m) with (removed + 2 + 2 * m) by lia. reflexivity.
    + intros Hlt. replace (removed + 2 * S m) with (removed + 2 + 2 * m) by lia.
      apply Hstop. simpl in Hlt. lia.
    + intros [|j] Hj; [rewrite Nat.add_0_r; exact Hcap|].
      replace (removed + 2 * S j) with (removed + 2 + 2 * j) by lia. apply Hbefore. lia.
Qed.

Lemma performSymmetricRemoval_unfold random puzzle target k :
  performSymmetricRemoval random puzzle target k
  = (let '(pairs, k) := shuffle random symmetricPairs k in
     let '(puzzle, removedCells, _) :=
       foldl (symmetricStep (mathMin (natQ target * (6 # 10)) 100)) (puzzle, 0, false) pairs in
     (puzzle, removedCells, k)).
Proof. reflexivity. Qed.

Lemma in_symmetricPairs (pr : Coord * Coord) :
  In pr symmetricPairs ->
  pr.1.1 < 8 /\ pr.1.2 < 8 /\ pr.2 = (15 - pr.1.1, 15 - pr.1.2).
Proof.
  unfold symmetricPairs. intros (row & Hrow & Hin)%in_flat_map.
  apply in_map_iff in Hin as (col & <- & Hcol). apply in_seq in Hrow, Hcol.
  cbn [fst snd]. split_all; [lia|lia|reflexivity].
Qed.

Lemma NoDup_symmetric_cells : NoDup (pairCells symmetricPairs).
Proof. apply (bool_decide_unpack _). vm_compute. exact I. Qed.

Lemma in_pairCells pairs (p : Coord) :
  In p (pairCells pairs) <-> exists pr, In pr pairs /\ (p = pr.1 \/ p = pr.2).
Proof.
  unfold pairCells. rewrite in_flat_map. split; intros (pr & Hpr & H); exists pr;
    (split; [exact Hpr|]); simpl in *; intuition auto.
Qed.

Lemma performSymmetricRemoval_facts (random : nat -> Q) (solution : Board)
    (target k : nat) :
  wf_board solution -> full solution ->
  exists puzzle removed k',
    performSymmetricRemoval random solution target k = (puzzle, removed, k') /\
    carvedFrom puzzle solution /\
    countNull puzzle = removed /\
    (forall r c, r < 16 -> c < 16 ->
       (cell puzzle r c = None <-> cell puzzle (15 - r) (15 - c) = None)) /\
    (forall r c, r < 16 -> c < 16 -> cell puzzle r c = None ->
       (r < 8 /\ c < 8) \/ (8 <= r /\ 8 <= c)) /\
    (exists m, removed = 2 * m /\ m <= 64 /\
       (m < 64 -> (mathMin (natQ target * (6 # 10)) 100 <= natQ (2 * m))%Q) /\
       (forall j, j < m -> (natQ (2 * j) < mathMin (natQ target * (6 # 10)) 100)%Q)) /\
    k' = k + 63.
Proof.
  intros Hwf Hfull. rewrite performSymmetricRemoval_unfold.
  pose proof (shuffle_Permutation random symmetricPairs k) as Hperm.
  pose proof (shuffle_draws random symmetricPairs k) as Hdraws.
  destruct (shuffle random symmetricPairs k) as [pairs k1]. cbn [fst snd] in Hperm, Hdraws.
  assert (Hpairs : forall pr, In pr pairs ->
            pr.1.1 < 8 /\ pr.1.2 < 8 /\ pr.2 = (15 - pr.1.1, 15 - pr.1.2)).
  { intros pr Hpr. apply in_symmetricPairs, list_elem_of_In. rewrite <- Hperm.
    apply list_elem_of_In, Hpr. }
  assert (Hlen : length pairs = 64) by (rewrite Hperm; reflexivity).
  destruct (symmetricStep_fold (mathMin (natQ target * (6 # 10)) 100) pairs solution 0)
    as (m & stop & Hm & -> & Hstop & Hbefore).
  { intros pr Hpr Heq. destruct (Hpairs pr Hpr) as (H1 & _ & H2).
    rewrite H2 in Heq. destruct pr as [[r1 c1] q]. cbn [fst snd] in *.
    injection Heq as Hr _. lia. }
  set (cells := pairCells (take m pairs)).
  assert (Hsub : forall p, In p cells -> exists pr, In pr pairs /\ (p = pr.1 \/ p = pr.2)).
  { intros p Hp. apply in_pairCells in Hp as (pr & Hpr & Hp). exists pr.
    split; [|exact Hp]. rewrite <- (take_drop m pairs). apply in_app_iff. left. exact Hpr. }
  assert (Hgrid : forall p, In p cells -> inGrid p).
  { intros p Hp. destruct (Hsub p Hp) as (pr & Hpr & Hcase).
    destruct (Hpairs pr Hpr) as (H1 & H2 & H3). unfold inGrid.
    destruct Hcase as [->| ->]; [lia|]. rewrite H3. cbn [fst snd]. lia. }
  assert (Hnd : NoDup cells).
  { assert (Hall : NoDup (pairCells pairs)).
    { unfold pairCells. rewrite Hperm. exact NoDup_symmetric_cells. }
    rewrite <- (take_drop m pairs) in Hall. unfold pairCells in Hall.
    rewrite flat_map_app in Hall. apply NoDup_app in Hall as [Hall _]. exact Hall. }
  assert (Hcells_len : length cells = 2 * m).
  { unfold cells, pairCells. rewrite (flat_map_constant_length (c := 2)) by reflexivity.
    rewrite length_take. lia. }
  assert (Hnull : forall r c, r < 16 -> c < 16 ->
            (cell (clearAll solution cells) r c = None <-> In (r, c) cells)).
  { intros r c Hr Hc. split.
    - intros Hnone. destruct (decide ((r, c) ∈ cells)) as [Hin|Hout];
        rewrite list_elem_of_In in *; [exact Hin|].
      rewrite cell_clearAll_notin in Hnone by exact Hout.
      destruct (Hfull r c Hr Hc Hnone).
    - apply cell_clearAll_in; assumption. }
  assert (Hmirror : forall r c, r < 16 -> c < 16 -> In (r, c) cells ->
            In (15 - r, 15 - c) cells).
  { intros r c Hr Hc Hin. apply in_pairCells in Hin as (pr & Hpr & Hcase).
    apply in_pairCells. exists pr. split; [exact Hpr|].
    assert (Hpr' : In pr pairs)
      by (rewrite <- (take_drop m pairs); apply in_app_iff; left; exact Hpr).
    destruct (Hpairs pr Hpr') as (H1 & H2 & H3). destruct pr as [[r1 c1] q].
    cbn [fst snd] in *. subst q.
    destruct Hcase as [[= -> ->]|[= -> ->]]; [right; reflexivity|left].
    f_equal; lia. }
  exists (clearAll solution cells), (2 * m), k1. split_all.
  - reflexivity.
  - apply carvedFrom_clearAll, carvedFrom_refl, Hwf.
  - rewrite countNull_clearAll; [rewrite (countNull_full solution Hfull); lia|exact Hwf|exact Hnd|].
    intros p Hp. split; [apply Hgrid, Hp|]. destruct (Hgrid p Hp). apply Hfull; assumption.
  - intros r c Hr Hc. rewrite !Hnull by lia. split; [apply Hmirror; assumption|].
    intros Hin. apply Hmirror in Hin; [|lia..].
    replace (15 - (15 - r)) with r in Hin by lia.
    replace (15 - (15 - c)) with c in Hin by lia. exact Hin.
  - intros r c Hr Hc Hnone. apply Hnull in Hnone; [|assumption..].
    destruct (Hsub _ Hnone) as (pr & Hpr & Hcase).
    destruct (Hpairs pr Hpr) as (H1 & H2 & H3). destruct pr as [[r1 c1] q].
    cbn [fst snd] in *. subst q.
    destruct Hcase as [[= -> ->]|[= -> ->]]; [left|right]; lia.
  - exists m. split_all; [reflexivity|lia| |].
    + intros Hlt. apply Qle_bool_iff. apply Hstop. lia.
    + intros j Hj. specialize (Hbefore j Hj). cbn [Nat.add] in Hbefore.
      apply Qnot_le_lt. intros Hle. apply Qle_bool_iff in Hle. congruence.
  - rewrite Hdraws. reflexivity.
Qed.

(** X18. Phase 1 of the carver, run on a full grid, clears cells in
    pairs that mirror each other through the centre of the grid: the
    empty cells of its result are point-symmetric, lie in the top-left and
    bottom-right quadrants only, and number exactly the count it returns.
    That count is [2 m] for the least [m] with
    [2 m >= min(0.6 * target, 100)] (at most all 64 pairs), and the
    shuffle takes 63 random numbers. *)
Theorem performSymmetricRemoval_shape (random : nat -> Q) (solution : Board)
    (target k : nat) :
  wf_board solution -> full solution ->
  exists puzzle removed k',
    performSymmetricRemoval random solution target k = (puzzle, removed, k') /\
    carvedFrom puzzle solution /\
    countNull puzzle = removed /\
    (forall r c, r < 16 -> c < 16 ->
       (cell puzzle r c = None <-> cell puzzle (15 - r) (15 - c) = None)) /\
    (forall r c, r < 16 -> c < 16 -> cell puzzle r c = None ->
       (r < 8 /\ c < 8) \/ (8 <= r /\ 8 <= c)) /\
    (exists m, removed = 2 * m /\ m <= 64 /\
       (m < 64 -> (mathMin (natQ target * (6 # 10)) 100 <= natQ (2 * m))%Q) /\
       (forall j, j < m -> (natQ (2 * j) < mathMin (natQ target * (6 # 10)) 100)%Q)) /\
    k' = k + 63.
Proof. exact (performSymmetricRemoval_facts random solution target k). Qed.

Lemma performSymmetricRemoval_shape_witness :
  exists puzzle removed k',
    performSymmetricRemoval unluckyRandom sampleSolved 60 0 = (puzzle, removed, k') /\
    carvedFrom puzzle sampleSolved /\
    countNull puzzle = removed /\
    (forall r c, r < 16 -> c < 16 ->
       (cell puzzle r c = None <-> cell puzzle (15 - r) (15 - c) = None)) /\
    (forall r c, r < 16 -> c < 16 -> cell puzzle r c = None ->
       (r < 8 /\ c < 8) \/ (8 <= r /\ 8 <= c)) /\
    (exists m, removed = 2 * m /\ m <= 64 /\
       (m < 64 -> (mathMin (natQ 60 * (6 # 10)) 100 <= natQ (2 * m))%Q) /\
       (forall j, j < m -> (natQ (2 * j) < mathMin (natQ 60 * (6 # 10)) 100)%Q)) /\
    k' = 0 + 63.
Proof.
  exact (performSymmetricRemoval_shape unluckyRandom sampleSolved 60 0
           (proj1 validPartial_sampleSolved) full_sampleSolved).
Defined.

(** ** The removal priority *)

Lemma filter_length_zero {A} (f : A -> bool) (l : list A) :
  (forall y, In y l -> f y = false) -> length (List.filter f l) = 0.
Proof.
  intros H. induction l as [|a l IH]; [reflexivity|]. simpl.
  rewrite (H a) by (left; reflexivity). apply IH. intros y Hy. apply H. right. exact Hy.
Qed.

Lemma filter_length_unique {A} (f : A -> bool) (l : list A) (x : A) :
  NoDup l -> In x l -> f x = true -> (forall y, In y l -> f y = true -> y = x) ->
  length (List.filter f l) = 1.
Proof.
  induction l as [|a l IH]; intros Hnd Hin Hx Huniq; [destruct Hin|].
  apply NoDup_cons in Hnd as [Ha Hnd]. rewrite list_elem_of_In in Ha. simpl.
  destruct Hin as [->|Hin].
  - rewrite Hx. simpl. f_equal. apply filter_length_zero. intros y Hy.
    destruct (f y) eqn:Hfy; [|reflexivity].
    exfalso. apply Ha. rewrite <- (Huniq y (or_intror Hy) Hfy). exact Hy.
  - destruct (f a) eqn:Hfa.
    + exfalso. apply Ha. rewrite (Huniq a (or_introl eq_refl) Hfa). exact Hin.
    + apply IH; auto. intros y Hy. apply Huniq. right. exact Hy.
Qed.

Lemma NoDup_grid_product (rows cols : list nat) :
  NoDup rows -> NoDup cols ->
  NoDup (flat_map (fun r => map (fun c => (r, c)) cols) rows).
Proof.
  intros Hrows Hcols. induction Hrows as [|r rows Hr Hrows IH]; [apply NoDup_nil_2|].
  cbn [flat_map]. apply NoDup_app_disjoint.
  - assert (Hinj : Inj (=) (=) (fun c : nat => (r, c)))
      by (intros c c' [= ->]; reflexivity).
    exact (NoDup_fmap_2 (fun c : nat => (r, c)) cols Hcols).
  - exact IH.
  - intros [r' c'] Hin Hin'. apply in_map_iff in Hin as (c & [= <- <-] & _).
    apply in_flat_map in Hin' as (r'' & Hr'' & Hin').
    apply in_map_iff in Hin' as (c'' & [= <- _] & _).
    apply Hr, list_elem_of_In, Hr''.
Qed.

Lemma strictEq_Some x v : strictEq x (Some v) = true <-> x = Some v.
Proof.
  unfold strictEq. destruct x as [s|]; [|split; discriminate].
  rewrite String.eqb_eq. split; congruence.
Qed.

(** X19. On a board without repetitions the constraint count of
    [calculateCellRemovalPriority] is 3 for every filled cell (the cell
    itself, once in its row, its column and its block), so the priority is
    47 plus the random jitter, whatever the cell: the order in which
    phase 2 visits the cells is decided by the jitter alone. *)
Theorem calculateCellRemovalPriority_is_jitter (random : nat -> Q) (puzzle : Board)
    (row col k : nat) (v : string) :
  consistent puzzle -> row < 16 -> col < 16 -> cell puzzle row col = Some v ->
  calculateCellRemovalPriority random puzzle row col k = ((47 + random k * 10)%Q, S k).
Proof.
  intros Hcons Hrow Hcol Hv. unfold calculateCellRemovalPriority. cbv zeta. rewrite Hv.
  assert (Hclash : forall r c, r < 16 -> c < 16 -> sameUnit (r, c) (row, col) ->
            strictEq (cell puzzle r c) (Some v) = true -> (r, c) = (row, col)).
  { intros r c Hr Hc Hunit Heq. apply strictEq_Some in Heq.
    destruct (decide ((r, c) = (row, col))) as [Hsame|Hne]; [exact Hsame|].
    destruct (Hcons row col v Hrow Hcol Hv). exists r, c. split_all; assumption. }
  assert (Hself : strictEq (cell puzzle row col) (Some v) = true)
    by (apply strictEq_Some, Hv).
  rewrite (filter_length_unique (fun c => strictEq (cell puzzle row c) (Some v))
             (seq 0 16) col).
  2: apply NoDup_seq.
  2: apply in_seq; lia.
  2: exact Hself.
  2: { intros c Hc Heq. apply in_seq in Hc.
       assert (H : (row, c) = (row, col)) by (apply Hclash; [lia|lia|left; reflexivity|exact Heq]).
       congruence. }
  rewrite (filter_length_unique (fun r => strictEq (cell puzzle r col) (Some v))
             (seq 0 16) row).
  2: apply NoDup_seq.
  2: apply in_seq; lia.
  2: exact Hself.
  2: { intros r Hr Heq. apply in_seq in Hr.
       assert (H : (r, col) = (row, col))
         by (apply Hclash; [lia|lia|right; left; reflexivity|exact Heq]).
       congruence. }
  rewrite (filter_length_unique (fun p : Coord => strictEq (cell puzzle p.1 p.2) (Some v))
             _ (row, col)).
  2: apply NoDup_grid_product; apply NoDup_seq.
  2: { apply in_flat_map. exists row.
       pose proof (proj2 (block_range row row) eq_refl).
       pose proof (proj2 (block_range col col) eq_refl).
       split; [apply in_seq; lia|]. apply in_map_iff. exists col.
       split; [reflexivity|apply in_seq; lia]. }
  2: exact Hself.
  2: { intros [r c] Hin Heq. apply in_flat_map in Hin as (r' & Hr' & Hin).
       apply in_map_iff in Hin as (c' & [= <- <-] & Hc'). apply in_seq in Hr', Hc'.
       assert (Hr : r' / 4 = row / 4) by (apply block_range; lia).
       assert (Hc : c' / 4 = col / 4) by (apply block_range; lia).
       apply Hclash; cbn [fst snd] in *.
       - exact (block_lt_16 r' row Hrow Hr).
       - exact (block_lt_16 c' col Hcol Hc).
       - right. right. split; assumption.
       - exact Heq. }
  reflexivity.
Qed.

Lemma calculateCellRemovalPriority_is_jitter_witness :
  calculateCellRemovalPriority unluckyRandom stuckPuzzle 0 0 7
  = ((47 + unluckyRandom 7 * 10)%Q, 8).
Proof.
  apply (calculateCellRemovalPriority_is_jitter unluckyRandom stuckPuzzle 0 0 7 "0").
  - apply validPartial_stuckPuzzle.
  - lia.
  - lia.
  - reflexivity.
Defined.

(** ** Phase 3 of the carver *)

Lemma NoDup_take {A} (l : list A) n : NoDup l -> NoDup (take n l).
Proof.
  intros Hnd. rewrite <- (take_drop n l) in Hnd. apply NoDup_app in Hnd as [H _]. exact H.
Qed.

Lemma in_take {A} (l : list A) n x : In x (take n l) -> In x l.
Proof. intros H. rewrite <- (take_drop n l). apply in_app_iff. left. exact H. Qed.

Lemma restoreLoop_count cells puzzle solution :
  wf_board puzzle -> full solution -> NoDup cells ->
  (forall p, In p cells -> inGrid p /\ cell puzzle p.1 p.2 = None) ->
  exists puzzle' restored,
    restoreLoop cells puzzle solution = Some puzzle' /\
    restored <= length cells /\
    countNull puzzle' + restored = countNull puzzle /\
    (hasUniqueSolution puzzle' = Some true \/ restored = length cells) /\
    extends puzzle puzzle'.
Proof.
  intros Hwf Hfull. revert puzzle Hwf.
  induction cells as [|[row col] cells IH]; intros puzzle Hwf Hnd Hcells;
    cbn [restoreLoop];
    destruct (hasUniqueSolution_total puzzle Hwf) as [unique Hunique]; rewrite Hunique;
    cbn [mbind option_bind]; destruct unique.
  - exists puzzle, 0. split_all; auto with lia. intros r c v Hv. exact Hv.
  - exists puzzle, 0. split_all; auto with lia. intros r c v Hv. exact Hv.
  - exists puzzle, 0. split_all; auto with lia. intros r c v Hv. exact Hv.
  - apply NoDup_cons in Hnd as [Hfresh Hnd]. rewrite list_elem_of_In in Hfresh.
    destruct (Hcells (row, col) (or_introl eq_refl)) as [[Hrow Hcol] Hnull].
    cbn [fst snd] in *.
    destruct (cell solution row col) as [v|] eqn:Hv; [|destruct (Hfull row col Hrow Hcol Hv)].
    destruct (IH (setCell puzzle row col (Some v))) as (puzzle' & n & Heq & Hn & Hcount & Hend & Hext).
    + apply wf_setCell, Hwf.
    + exact Hnd.
    + intros [r c] Hin. destruct (Hcells (r, c) (or_intror Hin)) as [Hgrid Hnone].
      split; [exact Hgrid|]. cbn [fst snd] in *. rewrite cell_setCell_ne; [exact Hnone|].
      intros [= -> ->]. exact (Hfresh Hin).
    + exists puzzle', (S n). split_all.
      * exact Heq.
      * simpl. lia.
      * rewrite (countNull_fill puzzle row col v Hwf Hrow Hcol Hnull). lia.
      * destruct Hend as [Hu| ->]; [left; exact Hu|right; reflexivity].
      * intros r c w Hw. apply Hext. apply extends_fill; assumption.
Qed.

Lemma NoDup_emptyCells (puzzle : Board) :
  NoDup (List.filter (fun p : Coord => isNull (cell puzzle p.1 p.2)) allCoords).
Proof. apply NoDup_ListNoDup, List.NoDup_filter, NoDup_ListNoDup, NoDup_allCoords. Qed.

Lemma emptyCells_length (puzzle : Board) :
  length (List.filter (fun p : Coord => isNull (cell puzzle p.1 p.2)) allCoords)
  = countNull puzzle.
Proof. unfold countNull. reflexivity. Qed.

Lemma restoreForUniqueness_facts (random : nat -> Q) (puzzle solution : Board) (k : nat) :
  carvedFrom puzzle solution -> full solution ->
  exists puzzle' k' restored,
    restoreForUniqueness random puzzle solution k = Some (puzzle', k') /\
    carvedFrom puzzle' solution /\ extends puzzle puzzle' /\
    restored <= Nat.min 20 (countNull puzzle) /\
    countNull puzzle' + restored = countNull puzzle /\
    (hasUniqueSolution puzzle' = Some true \/ restored = Nat.min 20 (countNull puzzle)) /\
    k' = k + (countNull puzzle - 1).
Proof.
  intros Hcarved Hfull.
  destruct (restoreForUniqueness_carved random puzzle solution k Hcarved)
    as (puzzle0 & k0 & Heq0 & Hcarved').
  revert Heq0. unfold restoreForUniqueness.
  set (empties := List.filter (fun p : Coord => isNull (cell puzzle p.1 p.2)) allCoords).
  pose proof (shuffle_Permutation random empties k) as Hperm.
  pose proof (shuffle_draws random empties k) as Hdraws.
  destruct (shuffle random empties k) as [emptyCells k1]. cbn [fst snd] in Hperm, Hdraws.
  assert (Hlen : length emptyCells = length empties) by (rewrite Hperm; reflexivity).
  unfold empties in Hlen, Hdraws. rewrite emptyCells_length in Hlen, Hdraws.
  destruct (restoreLoop_count (take (Nat.min (length emptyCells) 20) emptyCells)
              puzzle solution (proj1 Hcarved) Hfull)
    as (puzzle' & restored & -> & Hle & Hcount & Hend & Hext).
  { apply NoDup_take. rewrite Hperm. apply NoDup_emptyCells. }
  { intros p Hp. apply in_take in Hp.
    assert (Hp' : In p empties)
      by (apply list_elem_of_In; rewrite <- Hperm; apply list_elem_of_In, Hp).
    apply filter_In in Hp' as [Hin Hnull]. split; [apply in_allCoords, Hin|].
    destruct (cell puzzle p.1 p.2); [discriminate|reflexivity]. }
  cbn [mbind option_bind]. intros [= <- <-].
  rewrite length_take in Hle, Hend. rewrite Hlen in Hle, Hend.
  exists puzzle', k1, restored. split_all; try assumption; try reflexivity.
  - lia.
  - destruct Hend as [Hu| ->]; [left; exact Hu|right; lia].
Qed.

(** X20. Phase 3 of the carver puts back solution values into empty
    cells only: its result keeps every filled cell of the puzzle, is still
    carved from the solution, and has at most 20 fewer empty cells.  It
    stops early only on a puzzle that [hasUniqueSolution] accepts; otherwise
    it has refilled [min(20, empty cells)] cells.  Its shuffle takes one
    random number for each empty cell but the first. *)
Theorem restoreForUniqueness_bounded (random : nat -> Q) (puzzle solution : Board) (k : nat) :
  carvedFrom puzzle solution -> full solution ->
  exists puzzle' k' restored,
    restoreForUniqueness random puzzle solution k = Some (puzzle', k') /\
    carvedFrom puzzle' solution /\ extends puzzle puzzle' /\
    restored <= Nat.min 20 (countNull puzzle) /\
    countNull puzzle' + restored = countNull puzzle /\
    (hasUniqueSolution puzzle' = Some true \/ restored = Nat.min 20 (countNull puzzle)) /\
    k' = k + (countNull puzzle - 1).
Proof. exact (restoreForUniqueness_facts random puzzle solution k). Qed.

Lemma restoreForUniqueness_bounded_witness :
  exists puzzle' k' restored,
    restoreForUniqueness unluckyRandom carvedSixty sampleSolved 539 = Some (puzzle', k') /\
    carvedFrom puzzle' sampleSolved /\ extends carvedSixty puzzle' /\
    restored <= Nat.min 20 (countNull carvedSixty) /\
    countNull puzzle' + restored = countNull carvedSixty /\
    (hasUniqueSolution puzzle' = Some true \/ restored = Nat.min 20 (countNull carvedSixty)) /\
    k' = 539 + (countNull carvedSixty - 1).
Proof.
  apply (restoreForUniqueness_bounded unluckyRandom carvedSixty sampleSolved 539).
  - apply carvedFrom_clearAll, carvedFrom_stuckPuzzle.
  - exact full_sampleSolved.
Defined.

(** ** Phase 2 of the carver *)

Lemma performGuidedRemoval_unfold random puzzle remainingToRemove difficulty k :
  performGuidedRemoval random puzzle remainingToRemove difficulty k
  = (let maxAttempts :=
       if String.eqb difficulty "hard" then remainingToRemove * 4 else remainingToRemove * 2 in
     let '(cellPriorities, k) := foldl (priorityStep random puzzle) ([], k) allCoords in
     let cellPriorities := sortByPriority cellPriorities in
     st ← guidedLoop difficulty remainingToRemove maxAttempts cellPriorities
            {| g_puzzle := puzzle; g_removedCells := 0; g_attempts := 0;
               g_stopped := false |};
     Some (g_puzzle st, g_removedCells st, k)).
Proof. reflexivity. Qed.

Lemma priorityStep_coords random puzzle cells acc k :
  map coordOf (foldl (priorityStep random puzzle) (acc, k) cells).1
  = map coordOf acc
    ++ List.filter (fun p : Coord => negb (isNull (cell puzzle p.1 p.2))) cells.
Proof.
  revert acc k. induction cells as [|[row col] cells IH]; intros acc k.
  { simpl. rewrite app_nil_r. reflexivity. }
  cbn [foldl List.filter fst snd]. unfold priorityStep at 2.
  destruct (negb (isNull (cell puzzle row col))).
  - unfold calculateCellRemovalPriority. cbv zeta. rewrite IH, map_app, <- app_assoc.
    reflexivity.
  - apply IH.
Qed.

Lemma insertByPriority_Permutation x l : insertByPriority x l ≡ₚ x :: l.
Proof.
  induction l as [|y l IH]; [reflexivity|]. cbn [insertByPriority].
  destruct (Qle_bool _ _); [reflexivity|]. rewrite IH. apply Permutation_swap.
Qed.

Lemma sortByPriority_Permutation l : sortByPriority l ≡ₚ l.
Proof.
  unfold sortByPriority. induction l as [|x l IH]; [reflexivity|].
  cbn [foldr]. rewrite insertByPriority_Permutation, IH. reflexivity.
Qed.

Section GuidedCount.
Variable difficulty : string.
Variable remainingToRemove maxAttempts : nat.
Variable start : nat.

Lemma guidedStep_count st cell_ st' :
  guidedInv start remainingToRemove st -> inGrid (coordOf cell_) ->
  cell (g_puzzle st) (prow cell_) (pcol cell_) <> None ->
  guidedStep difficulty remainingToRemove maxAttempts st cell_ = Some st' ->
  guidedInv start remainingToRemove st' /\
  forall r c, (r, c) <> coordOf cell_ -> cell (g_puzzle st') r c = cell (g_puzzle st) r c.
Proof.
  intros Hinv [Hrow Hcol] Hfilled. pose proof Hinv as (Hwf & Hcount & Hle).
  unfold coordOf in *. cbn [fst snd] in *. unfold guidedStep.
  destruct (g_stopped st); [intros [= <-]; split; [exact Hinv|reflexivity]|].
  destruct (guidedBreak remainingToRemove maxAttempts st) eqn:Hbreak;
    [intros [= <-]; split; [exact Hinv|reflexivity]|].
  unfold guidedBreak in Hbreak. apply orb_false_iff in Hbreak as [Hbudget _].
  apply Nat.leb_gt in Hbudget.
  pose proof (countNull_clear _ _ _ Hwf Hrow Hcol Hfilled) as Hclear.
  assert (Hkept : forall a s,
            guidedInv start remainingToRemove
                      {| g_puzzle := setCell (g_puzzle st) (prow cell_) (pcol cell_) None;
                         g_removedCells := S (g_removedCells st);
                         g_attempts := a; g_stopped := s |}).
  { intros a s. unfold guidedInv. cbn [g_puzzle g_removedCells].
    split_all; [apply wf_setCell, Hwf|lia|lia]. }
  destruct (shouldValidate difficulty (S (g_attempts st))).
  - destruct (hasLimitedUniqueSolution _) as [unique|]; [|discriminate].
    cbn [mbind option_bind]. destruct unique; cbn [negb]; intros [= <-].
    + split; [apply Hkept|]. intros r c Hne. apply cell_setCell_ne. exact Hne.
    + cbn [g_puzzle]. rewrite setCell_restore.
      split; [unfold guidedInv; split_all; assumption|reflexivity].
  - intros [= <-]. split; [apply Hkept|]. intros r c Hne. apply cell_setCell_ne. exact Hne.
Qed.

Lemma guidedLoop_count cells st st' :
  guidedInv start remainingToRemove st -> NoDup (map coordOf cells) ->
  (forall c, In c cells ->
     inGrid (coordOf c) /\ cell (g_puzzle st) (prow c) (pcol c) <> None) ->
  guidedLoop difficulty remainingToRemove maxAttempts cells st = Some st' ->
  guidedInv start remainingToRemove st'.
Proof.
  revert st. induction cells as [|c cells IH]; intros st Hinv Hnd Hcells;
    [intros [= <-]; exact Hinv|].
  cbn [guidedLoop].
  destruct (guidedStep difficulty remainingToRemove maxAttempts st c) as [st1|] eqn:Hstep;
    [|discriminate].
  cbn [mbind option_bind]. cbn [map] in Hnd. apply NoDup_cons in Hnd as [Hfresh Hnd].
  destruct (Hcells c (or_introl eq_refl)) as [Hgrid Hfilled].
  destruct (guidedStep_count st c st1 Hinv Hgrid Hfilled Hstep) as [Hinv1 Hframe].
  apply IH; [exact Hinv1|exact Hnd|].
  intros c' Hc'. destruct (Hcells c' (or_intror Hc')) as [Hgrid' Hfilled'].
  split; [exact Hgrid'|]. rewrite Hframe; [exact Hfilled'|].
  intros Heq. apply Hfresh. change (prow c', pcol c') with (coordOf c') in Heq.
  rewrite <- Heq. apply list_elem_of_In, in_map, Hc'.
Qed.
End GuidedCount.

Lemma performGuidedRemoval_count random puzzle remainingToRemove difficulty k
    puzzle' removed k' :
  wf_board puzzle ->
  performGuidedRemoval random puzzle remainingToRemove difficulty k
    = Some (puzzle', removed, k') ->
  countNull puzzle' = countNull puzzle + removed /\ removed <= remainingToRemove.
Proof.
  intros Hwf. rewrite performGuidedRemoval_unfold. cbv zeta.
  pose proof (priorityStep_coords random puzzle allCoords [] k) as Hcoords.
  rewrite app_nil_l in Hcoords.
  destruct (foldl (priorityStep random puzzle) ([], k) allCoords) as [cellPriorities k1].
  change ((cellPriorities, k1).1) with cellPriorities in Hcoords.
  destruct (guidedLoop _ _ _ _ _) as [st|] eqn:Hloop; [|discriminate].
  cbn [mbind option_bind]. intros [= <- <- <-].
  apply (guidedLoop_count difficulty remainingToRemove _ (countNull puzzle)) in Hloop.
  - destruct Hloop as (_ & Hcount & Hle). split; assumption.
  - unfold guidedInv. cbn [g_puzzle g_removedCells]. split_all; [exact Hwf|lia|lia].
  - rewrite (sortByPriority_Permutation cellPriorities), Hcoords.
    apply NoDup_ListNoDup, List.NoDup_filter, NoDup_ListNoDup, NoDup_allCoords.
  - intros c Hc. cbn [g_puzzle].
    assert (Hin : In (coordOf c)
              (List.filter (fun p : Coord => negb (isNull (cell puzzle p.1 p.2))) allCoords)).
    { rewrite <- Hcoords. apply in_map. apply list_elem_of_In.
      rewrite <- (sortByPriority_Permutation cellPriorities). apply list_elem_of_In, Hc. }
    apply filter_In in Hin as [Hgrid Hfilled]. split; [apply in_allCoords, Hgrid|].
    unfold coordOf in Hfilled. cbn [fst snd] in Hfilled.
    destruct (cell puzzle (prow c) (pcol c)); [discriminate|discriminate].
Qed.

(** ** Size of the generated puzzle *)

Lemma mathMin_le a b x : (mathMin a b <= x)%Q <-> (a <= x)%Q \/ (b <= x)%Q.
Proof.
  unfold mathMin. destruct (Qle_bool a b) eqn:Hab.
  - apply Qle_bool_iff in Hab. split; [auto|].
    intros [H|H]; [exact H|]. eapply Qle_trans; eassumption.
  - assert (Hba : (b < a)%Q).
    { apply Qnot_le_lt. intros H. apply Qle_bool_iff in H. congruence. }
    split; [auto|]. intros [H|H]; [|exact H].
    eapply Qle_trans; [apply Qlt_le_weak, Hba|exact H].
Qed.

Lemma symmetric_cap_le target n :
  (mathMin (natQ target * (6 # 10)) 100 <= natQ n)%Q <-> 3 * target <= 5 * n \/ 100 <= n.
Proof.
  rewrite mathMin_le.
  assert (H1 : (natQ target * (6 # 10) <= natQ n)%Q <-> 3 * target <= 5 * n).
  { unfold natQ, Qle, Qmult, inject_Z. cbn [Qnum Qden]. lia. }
  assert (H2 : (100 <= natQ n)%Q <-> 100 <= n).
  { unfold natQ, Qle, inject_Z. cbn [Qnum Qden]. lia. }
  rewrite H1, H2. reflexivity.
Qed.

Lemma symmetric_cap_gt target n :
  (natQ n < mathMin (natQ target * (6 # 10)) 100)%Q -> ~ (3 * target <= 5 * n \/ 100 <= n).
Proof.
  intros Hlt Hle. apply symmetric_cap_le in Hle. exact (Qlt_not_le _ _ Hlt Hle).
Qed.

Lemma generateOptimizedUniquePuzzle_count random solution target difficulty k :
  wf_board solution -> full solution ->
  exists puzzle' k' m,
    generateOptimizedUniquePuzzle random solution target difficulty k
      = Some ({| puzzle := puzzle'; solution := solution |}, k') /\
    carvedFrom puzzle' solution /\
    (3 * target <= 10 * m \/ 50 <= m) /\
    (forall j, j < m -> ~ (3 * target <= 10 * j \/ 50 <= j)) /\
    2 * m - 20 <= countNull puzzle' /\
    countNull puzzle' <= Nat.max target (2 * m).
Proof.
  intros Hwf Hfull. unfold generateOptimizedUniquePuzzle.
  destruct (performSymmetricRemoval_facts random solution target k Hwf Hfull)
    as (puzzle1 & removed1 & k1 & -> & Hc1 & Hn1 & _ & _ & (m & -> & Hm & Hstop & Hbefore) & _).
  assert (Hbefore' : forall j, j < m -> ~ (3 * target <= 10 * j \/ 50 <= j)).
  { intros j Hj H. apply (symmetric_cap_gt target (2 * j) (Hbefore j Hj)). lia. }
  assert (Hstop' : 3 * target <= 10 * m \/ 50 <= m).
  { destruct (le_lt_dec 64 m) as [Hbig|Hsmall]; [right; lia|].
    apply symmetric_cap_le in Hstop; [|exact Hsmall]. lia. }
  assert (H2 : exists puzzle2 removed2 k2,
            (if 2 * m <? target
             then '(puzzle, removed, k) ←
                    performGuidedRemoval random puzzle1 (target - 2 * m) difficulty k1;
                  Some (puzzle, 2 * m + removed, k)
             else Some (puzzle1, 2 * m, k1)) = Some (puzzle2, removed2, k2) /\
            carvedFrom puzzle2 solution /\
            2 * m <= countNull puzzle2 <= Nat.max target (2 * m)).
  { destruct (2 * m <? target) eqn:Hless.
    - apply Nat.ltb_lt in Hless.
      destruct (performGuidedRemoval_carved random puzzle1 solution (target - 2 * m)
                  difficulty k1 Hc1) as (puzzle2 & removed & k2 & Heq & Hc2).
      destruct (performGuidedRemoval_count random puzzle1 (target - 2 * m) difficulty k1
                  puzzle2 removed k2 (proj1 Hc1) Heq) as [Hcount Hle].
      rewrite Heq. cbn [mbind option_bind]. do 3 eexists. split_all; [reflexivity|exact Hc2|lia|lia].
    - do 3 eexists. split_all; [reflexivity|exact Hc1|lia|lia]. }
  destruct H2 as (puzzle2 & removed2 & k2 & -> & Hc2 & Hn2). cbn [mbind option_bind].
  destruct (hasUniqueSolution_total puzzle2 (proj1 Hc2)) as [unique ->].
  cbn [mbind option_bind]. destruct unique; cbn [negb].
  - cbn [mbind option_bind]. exists puzzle2, k2, m. split_all; try assumption; try reflexivity; lia.
  - destruct (restoreForUniqueness_facts random puzzle2 solution k2 Hc2 Hfull)
      as (puzzle3 & k3 & restored & -> & Hc3 & _ & Hr & Hn3 & _).
    cbn [mbind option_bind]. exists puzzle3, k3, m.
    split_all; try assumption; try reflexivity; lia.
Qed.

(** X21. For every difficulty other than "test", [generatePuzzle] returns
    a solved grid and a puzzle carved from it whose number of empty cells
    never exceeds the target of the difficulty and is at least the count
    of phase 1 less the 20 cells phase 3 may refill: 16 to 60 for "easy",
    40 to 100 for "medium", 80 to 180 for "hard" and 64 to 140 for any
    other name. *)
Theorem generatePuzzle_empty_cell_bounds (random : nat -> Q)
    (shuffleSort : nat -> list string -> list string * nat)
    (difficulty : string) (k : nat) :
  (forall k l, (shuffleSort k l).1 ≡ₚ l) ->
  difficulty <> "test" ->
  exists result k',
    generatePuzzle random shuffleSort difficulty k = Some (result, k') /\
    solvedGrid (solution result) /\
    carvedFrom (puzzle result) (solution result) /\
    (emptyCellRange difficulty).1 <= countNull (puzzle result) /\
    countNull (puzzle result) <= (emptyCellRange difficulty).2.
Proof.
  intros Hperm Htest. apply String.eqb_neq in Htest.
  destruct (generateSolvedBoard_complete shuffleSort k Hperm)
    as (sol & k1 & Hsol & Hvalid & Hfull).
  unfold generatePuzzle, emptyCellRange. rewrite Hsol. cbn [mbind option_bind].
  rewrite Htest. cbv zeta.
  match goal with
  | |- context [generateOptimizedUniquePuzzle random sol ?t difficulty k1] =>
      destruct (generateOptimizedUniquePuzzle_count random sol t difficulty k1
                  (proj1 Hvalid) Hfull)
        as (puz & k' & m & -> & Hcarved & Hstop & Hbefore & Hlo & Hhi)
  end.
  exists {| puzzle := puz; solution := sol |}, k'. cbn [puzzle solution].
  split_all; [reflexivity|apply solvedGrid_complete; assumption|exact Hcarved| |].
  - destruct m as [|m']; [destruct (String.eqb difficulty "easy"),
      (String.eqb difficulty "medium"), (String.eqb difficulty "hard"); cbn [fst]; lia|].
    pose proof (Hbefore m' ltac:(lia)) as Hprev.
    destruct (String.eqb difficulty "easy"), (String.eqb difficulty "medium"),
      (String.eqb difficulty "hard"); cbn [fst]; lia.
  - destruct m as [|m']; [destruct (String.eqb difficulty "easy"),
      (String.eqb difficulty "medium"), (String.eqb difficulty "hard"); cbn [snd]; lia|].
    pose proof (Hbefore m' ltac:(lia)) as Hprev.
    destruct (String.eqb difficulty "easy"), (String.eqb difficulty "medium"),
      (String.eqb difficulty "hard"); cbn [snd]; lia.
Qed.

Lemma generatePuzzle_empty_cell_bounds_witness :
  exists result k',
    generatePuzzle unluckyRandom guidedSort "easy" 0 = Some (result, k') /\
    solvedGrid (solution result) /\
    carvedFrom (puzzle result) (solution result) /\
    (emptyCellRange "easy").1 <= countNull (puzzle result) /\
    countNull (puzzle result) <= (emptyCellRange "easy").2.
Proof.
  apply (generatePuzzle_empty_cell_bounds unluckyRandom guidedSort "easy" 0).
  - intros k l. apply guidedSort_Permutation.
  - discriminate.
Defined.

(** ** The first version of the puzzle generator *)

Lemma clear_by_index (positions : list Coord) (board : Board) (start n : nat) :
  start + n <= length positions ->
  foldl (fun puzzle i =>
           match positions !! i with
           | Some (row, col) => setCell puzzle row col None
           | None => puzzle
           end) board (seq start n)
  = clearAll board (take n (drop start positions)).
Proof.
  revert board start. induction n as [|n IH]; intros board start Hlen; [reflexivity|].
  cbn [seq foldl].
  destruct (lookup_lt_is_Some_2 positions start) as [[row col] Hp]; [lia|].
  rewrite Hp, (drop_S positions (row, col) start Hp). cbn [take].
  rewrite IH by lia. reflexivity.
Qed.

(** X22. The first version of [generatePuzzle] clears exactly the number
    of cells of the difficulty, with no check of uniqueness: it returns a
    solved grid and a puzzle carved from it with 60 empty cells for
    "easy", 180 for "hard" and 140 for any other name. *)
Theorem legacy_generatePuzzle_clears_exactly (random : nat -> Q)
    (shuffleSort : nat -> list string -> list string * nat)
    (difficulty : string) (k : nat) :
  (forall k l, (shuffleSort k l).1 ≡ₚ l) ->
  exists result k',
    Legacy.generatePuzzle random shuffleSort difficulty k = Some (result, k') /\
    solvedGrid (solution result) /\
    carvedFrom (puzzle result) (solution result) /\
    countNull (puzzle result)
    = (if String.eqb difficulty "easy" then 60
       else if String.eqb difficulty "hard" then 180 else 140).
Proof.
  intros Hperm.
  destruct (generateSolvedBoard_complete shuffleSort k Hperm)
    as (sol & k1 & Hsol & Hvalid & Hfull).
  unfold Legacy.generatePuzzle. rewrite Hsol. cbn [mbind option_bind]. cbv zeta.
  pose proof (shuffle_Permutation random allCoords k1) as Hshuffle.
  destruct (shuffle random allCoords k1) as [positions k2]. cbn [fst] in Hshuffle.
  assert (Hnd : NoDup positions) by (rewrite Hshuffle; apply NoDup_allCoords).
  assert (Hlen : length positions = 256) by (rewrite Hshuffle; reflexivity).
  assert (Hgrid : forall p, In p positions -> inGrid p).
  { intros p Hp. apply in_allCoords, list_elem_of_In. rewrite <- Hshuffle.
    apply list_elem_of_In, Hp. }
  set (cellsToRemove := if String.eqb difficulty "easy" then 60
                        else if String.eqb difficulty "medium" then 140
                        else if String.eqb difficulty "hard" then 180 else 140).
  assert (Hfew : cellsToRemove <= 256).
  { unfold cellsToRemove. destruct (String.eqb difficulty "easy"),
      (String.eqb difficulty "medium"), (String.eqb difficulty "hard"); lia. }
  rewrite Hlen, (Nat.min_l cellsToRemove 256 Hfew).
  rewrite (clear_by_index positions sol 0 cellsToRemove) by lia. rewrite drop_0.
  eexists _, k2. split; [reflexivity|]. cbn [puzzle solution]. split_all.
  - apply solvedGrid_complete; assumption.
  - apply carvedFrom_clearAll, carvedFrom_refl, Hvalid.
  - rewrite countNull_clearAll.
    + rewrite (countNull_full sol Hfull), length_take, Hlen.
      unfold cellsToRemove in *.
      destruct (String.eqb difficulty "easy"); [reflexivity|].
      destruct (String.eqb difficulty "medium") eqn:Hmedium.
      * apply String.eqb_eq in Hmedium. subst difficulty. reflexivity.
      * destruct (String.eqb difficulty "hard"); reflexivity.
    + apply Hvalid.
    + apply NoDup_take, Hnd.
    + intros p Hp. apply in_take in Hp. destruct (Hgrid p Hp) as [Hr Hc].
      split; [split; assumption|]. apply Hfull; assumption.
Qed.

Lemma legacy_generatePuzzle_clears_exactly_witness :
  exists result k',
    Legacy.generatePuzzle unluckyRandom guidedSort "hard" 0 = Some (result, k') /\
    solvedGrid (solution result) /\
    carvedFrom (puzzle result) (solution result) /\
    countNull (puzzle result)
    = (if String.eqb "hard" "easy" then 60
       else if String.eqb "hard" "hard" then 180 else 140).
Proof.
  apply (legacy_generatePuzzle_clears_exactly unluckyRandom guidedSort "hard" 0).
  intros k l. apply guidedSort_Permutation.
Defined.

(** ** The repair pass *)

Lemma fixCell_consistent board (cells : list Coord) :
  consistent board -> (forall p, In p cells -> inGrid p) ->
  foldl fixCell (board, false) cells = (board, false).
Proof.
  intros Hcons. induction cells as [|[row col] cells IH]; intros Hgrid; [reflexivity|].
  cbn [foldl]. unfold fixCell at 2.
  destruct (Hgrid (row, col) (or_introl eq_refl)) as [Hrow Hcol]. cbn [fst snd] in *.
  rewrite (getConflicts_consistent board row col Hcons Hrow Hcol).
  cbn [length Nat.ltb Nat.leb]. apply IH. intros p Hp. apply Hgrid. right. exact Hp.
Qed.

(** X23. [fixBoardConflicts] leaves a board without repetitions as it is:
    its first pass finds no conflict and the loop ends. *)
Theorem fixBoardConflicts_keeps_consistent (board : Board) :
  consistent board -> fixBoardConflicts board = board.
Proof.
  intros Hcons. unfold fixBoardConflicts. cbv zeta.
  change 1000 with (S 999). cbn [fixBoardConflictsLoop].
  rewrite (fixCell_consistent board allCoords Hcons); [reflexivity|].
  intros p Hp. apply in_allCoords, Hp.
Qed.

Lemma fixBoardConflicts_keeps_consistent_witness :
  fixBoardConflicts stuckPuzzle = stuckPuzzle.
Proof.
  apply (fixBoardConflicts_keeps_consistent stuckPuzzle). apply validPartial_stuckPuzzle.
Defined.

(** X24. The fallback of the board builder is not a solved grid: the
    repair pass leaves the pattern as it was built, and in the pattern
    row 4 repeats row 1, so every cell of these rows has its symbol twice
    in its column and [isSolved] rejects the grid. *)
Theorem createValidPattern_is_not_solved :
  createValidPattern = patternBoard /\
  isSolved createValidPattern = false /\
  forall col, col < 16 ->
    cell createValidPattern 4 col = cell createValidPattern 1 col /\
    In (4, col) (getConflicts createValidPattern 1 col).
Proof.
  destruct fallback_pattern_keeps_conflicts as [Hsame Hunsolved].
  split_all; [exact Hsame|exact Hunsolved|].
  rewrite Hsame. intros col Hcol.
  assert (Hcases : In col (seq 0 16)) by (apply in_seq; lia).
  cbn [seq In] in Hcases.
  repeat (destruct Hcases as [<-|Hcases]; [split; vm_compute; auto 10|]).
  destruct Hcases.
Qed.

(** ** The fallback of the board builder *)



(** ** The game screen *)

Ltac app_simpl :=
  cbn [App.board App.initialBoard App.selectedCell App.gameState App.conflicts
       App.comboTimer App.comboMultiplier App.totalScore App.comboScore
       App.showWinModal App.winScore
       App.setBoard App.setInitialBoard App.setSelectedCell App.setGameState
       App.setConflicts App.setComboTimer App.setComboMultiplier App.setTotalScore
       App.setComboScore App.setShowWinModal App.setWinScore] in *.

(** What a step keeps of the grids: the givens stay where they are. *)
Lemma step_protects_givens (e : App.Event) (st : App.Game) (initial current : Board) :
  App.initialBoard st = Some initial -> App.board st = Some current ->
  (forall r c, cell initial r c <> None -> cell current r c = cell initial r c) ->
  exists st' current',
    App.step st e = Some st' /\
    App.initialBoard st' = Some initial /\ App.board st' = Some current' /\
    forall r c, cell initial r c <> None -> cell current' r c = cell initial r c.
Proof.
  intros Hinitial Hboard Hgiven.
  assert (Hwrite : forall row col x r c,
            negb (isNull (cell initial row col)) = false ->
            cell initial r c <> None ->
            cell (setCell current row col x) r c = cell initial r c).
  { intros row col x r c Hguard Hfilled. rewrite cell_setCell_ne; [apply Hgiven, Hfilled|].
    intros [= -> ->]. destruct (cell initial row col); [discriminate|contradiction]. }
  destruct e as [row col|value| |]; cbn [App.step].
  - unfold App.selectCell. rewrite Hinitial.
    destruct (negb (isNull (cell initial row col))); do 2 eexists;
      (split; [reflexivity|]); app_simpl; split_all; eauto.
  - unfold App.inputValue. rewrite Hboard, Hinitial.
    destruct (App.selectedCell st) as [[row col]|]; [|eauto 10].
    destruct (negb (isNull (cell initial row col))) eqn:Hguard; [eauto 10|]. cbv zeta.
    destruct (isSolved _); unfold App.handleSuccessfulMove;
      destruct (length _ =? 0); destruct (0 <? App.comboTimer st)%Z;
      do 2 eexists; (split; [reflexivity|]); app_simpl;
      (split_all; [exact Hinitial|reflexivity|]); intros r c; apply Hwrite, Hguard.
  - unfold App.clearCell. rewrite Hboard, Hinitial.
    destruct (App.selectedCell st) as [[row col]|]; [|eauto 10].
    destruct (negb (isNull (cell initial row col))) eqn:Hguard; [eauto 10|]. cbv zeta.
    do 2 eexists. split; [reflexivity|]. app_simpl.
    split_all; [exact Hinitial|reflexivity|]. intros r c. apply Hwrite, Hguard.
  - unfold App.tick. destruct (App.gameState st); [eauto 10| |eauto 10].
    destruct (0 <? App.comboTimer st)%Z; [|eauto 10]. cbv zeta.
    destruct (App.comboTimer st - 100 <=? 0)%Z; do 2 eexists;
      (split; [reflexivity|]); app_simpl; split_all; eauto.
Qed.

Lemma run_protects_givens (events : list App.Event) (st : App.Game)
    (initial current : Board) :
  App.initialBoard st = Some initial -> App.board st = Some current ->
  (forall r c, cell initial r c <> None -> cell current r c = cell initial r c) ->
  exists st' current',
    App.run events st = Some st' /\
    App.initialBoard st' = Some initial /\ App.board st' = Some current' /\
    forall r c, cell initial r c <> None -> cell current' r c = cell initial r c.
Proof.
  revert st current. induction events as [|e events IH]; intros st current Hi Hb Hgiven.
  { exists st, current. cbn [App.run]. auto. }
  destruct (step_protects_givens e st initial current Hi Hb Hgiven)
    as (st1 & current1 & Hstep & Hi1 & Hb1 & Hgiven1).
  cbn [App.run]. rewrite Hstep. cbn [mbind option_bind].
  exact (IH st1 current1 Hi1 Hb1 Hgiven1).
Qed.

(** X25. Whatever the player does after a game has started (selecting
    cells, entering symbols, clearing cells, letting the combo timer run),
    no handler throws, the record of the givens stays the puzzle that was
    generated, and every given keeps its cell on the board: only cells
    that were empty in the puzzle ever change. *)
Theorem givens_never_change (generated : GeneratedPuzzle) (render : App.Game)
    (events : list App.Event) :
  exists st current,
    App.run events (App.startNewGame generated render) = Some st /\
    App.initialBoard st = Some (puzzle generated) /\
    App.board st = Some current /\
    forall r c, cell (puzzle generated) r c <> None ->
                cell current r c = cell (puzzle generated) r c.
Proof.
  apply (run_protects_givens events _ (puzzle generated) (puzzle generated));
    [reflexivity|reflexivity|auto].
Qed.

Lemma hex_board_fill board row col value :
  wf_board board -> row < 16 -> col < 16 -> hex_board board -> In value HEX_VALUES ->
  hex_board (setCell board row col (Some value)).
Proof.
  intros Hwf Hrow Hcol Hhex Hvalue r c s Hs.
  destruct (cell_setCell_cases board row col (Some value) r c Hwf Hrow Hcol)
    as [[_ Heq]|[_ Heq]]; rewrite Heq in Hs.
  - injection Hs as <-. exact Hvalue.
  - exact (Hhex r c s Hs).
Qed.

Lemma isSolved_solvedGrid board :
  wf_board board -> hex_board board -> (isSolved board = true <-> solvedGrid board).
Proof.
  intros Hwf Hhex. split.
  - intros Hsolved. destruct (isSolved_true_inv board Hsolved) as [Htruthy Hcons].
    apply solvedGrid_complete; [split_all; assumption|].
    intros r c Hr Hc Hnone. specialize (Htruthy r c Hr Hc). rewrite Hnone in Htruthy.
    discriminate.
  - intros Hsolved.
    apply isSolved_complete; [apply solvedGrid_validPartial|apply solvedGrid_full]; exact Hsolved.
Qed.

(** The state after an entry into an empty, selectable cell. *)
Lemma inputValue_enters (render : App.Game) (value : string) (row col : nat)
    (current initial : Board) :
  App.board render = Some current -> App.initialBoard render = Some initial ->
  App.selectedCell render = Some (row, col) -> cell initial row col = None ->
  exists st,
    App.inputValue value render = Some st /\
    App.board st = Some (setCell current row col (Some value)) /\
    App.conflicts st = getConflicts (setCell current row col (Some value)) row col /\
    (if isSolved (setCell current row col (Some value))
     then App.gameState st = App.won /\ App.showWinModal st = true /\
          App.winScore st = App.totalScore render + 1000
     else App.gameState st = App.gameState render /\
          App.showWinModal st = App.showWinModal render /\
          App.winScore st = App.winScore render) /\
    App.totalScore st
    = App.totalScore render
      + (if length (getConflicts (setCell current row col (Some value)) row col) =? 0
         then 100 * Nat.max 1 (App.comboMultiplier render) else 0)
      + (if isSolved (setCell current row col (Some value)) then 1000 else 0).
Proof.
  intros Hboard Hinitial Hselected Hempty.
  unfold App.inputValue. rewrite Hselected, Hboard, Hinitial, Hempty.
  cbn [isNull negb]. cbv zeta.
  destruct (isSolved _); unfold App.handleSuccessfulMove, App.BASE_SCORE;
    destruct (length _ =? 0); destruct (0 <? App.comboTimer render)%Z;
    eexists; (split; [reflexivity|]); app_simpl; repeat split; lia.
Qed.

(** X26. While a game is being played, entering a symbol into an empty,
    selectable cell puts it on the board whether or not it fits, and the
    game becomes won exactly when the board is then a solved grid: every
    row, column and block holds each symbol once.  A win shows the
    dialog, and it leaves no conflict marked. *)
Theorem entry_wins_iff_solved (render : App.Game) (value : string) (row col : nat)
    (current initial : Board) :
  App.board render = Some current -> App.initialBoard render = Some initial ->
  App.selectedCell render = Some (row, col) -> row < 16 -> col < 16 ->
  cell initial row col = None ->
  wf_board current -> hex_board current -> In value HEX_VALUES ->
  App.gameState render = App.playing ->
  exists st,
    App.inputValue value render = Some st /\
    App.board st = Some (setCell current row col (Some value)) /\
    (App.gameState st = App.won <-> solvedGrid (setCell current row col (Some value))) /\
    (App.gameState st = App.won -> App.conflicts st = [] /\ App.showWinModal st = true).
Proof.
  intros Hboard Hinitial Hselected Hrow Hcol Hempty Hwf Hhex Hvalue Hplaying.
  destruct (inputValue_enters render value row col current initial
              Hboard Hinitial Hselected Hempty)
    as (st & Heq & Hb & Hconf & Hwin & _).
  exists st. split_all; [exact Heq|exact Hb| |].
  - rewrite <- (isSolved_solvedGrid (setCell current row col (Some value)))
      by (apply wf_setCell || apply hex_board_fill; assumption).
    destruct (isSolved _).
    + destruct Hwin as [-> _]. split; reflexivity.
    + destruct Hwin as [-> _]. rewrite Hplaying. split; discriminate.
  - intros Hwon. destruct (isSolved (setCell current row col (Some value))) eqn:Hsolved.
    + destruct Hwin as (_ & Hmodal & _). split; [|exact Hmodal]. rewrite Hconf.
      apply getConflicts_consistent; [|assumption..].
      apply (isSolved_true_inv _ Hsolved).
    + destruct Hwin as [Hstate _]. rewrite Hstate, Hplaying in Hwon. discriminate.
Qed.

(** X27. On the winning entry the score stored for the win dialog is the
    total before that entry plus the bonus of 1000, while the running
    total also receives the score of the entry itself, 100 times the combo
    multiplier (at least 100): the dialog shows less than the total. *)
Theorem win_dialog_misses_last_move (render : App.Game) (value : string) (row col : nat)
    (current initial : Board) :
  App.board render = Some current -> App.initialBoard render = Some initial ->
  App.selectedCell render = Some (row, col) -> row < 16 -> col < 16 ->
  cell initial row col = None ->
  isSolved (setCell current row col (Some value)) = true ->
  exists st,
    App.inputValue value render = Some st /\
    App.gameState st = App.won /\
    App.winScore st = App.totalScore render + 1000 /\
    App.totalScore st
    = App.winScore st + 100 * Nat.max 1 (App.comboMultiplier render) /\
    App.winScore st < App.totalScore st.
Proof.
  intros Hboard Hinitial Hselected Hrow Hcol Hempty Hsolved.
  destruct (inputValue_enters render value row col current initial
              Hboard Hinitial Hselected Hempty)
    as (st & Heq & _ & _ & Hwin & Htotal).
  rewrite Hsolved in Hwin, Htotal. destruct Hwin as (Hstate & _ & Hscore).
  rewrite (getConflicts_consistent _ row col (proj2 (isSolved_true_inv _ Hsolved)) Hrow Hcol)
    in Htotal.
  cbn [length Nat.eqb] in Htotal.
  exists st. split_all; [exact Heq|exact Hstate|exact Hscore|lia|lia].
Qed.

Lemma hex_board_carved puzzle solution :
  carvedFrom puzzle solution -> hex_board solution -> hex_board puzzle.
Proof.
  intros [_ Hsub] Hhex r c s Hs. destruct (Hsub r c) as [Hnone|Heq]; [congruence|].
  apply (Hhex r c). congruence.
Qed.

Lemma entry_wins_iff_solved_witness :
  exists st,
    App.inputValue "0" lastMove = Some st /\
    App.board st = Some (setCell (setCell sampleSolved 0 0 None) 0 0 (Some "0")) /\
    (App.gameState st = App.won <->
     solvedGrid (setCell (setCell sampleSolved 0 0 None) 0 0 (Some "0"))) /\
    (App.gameState st = App.won -> App.conflicts st = [] /\ App.showWinModal st = true).
Proof.
  apply (entry_wins_iff_solved lastMove "0" 0 0 (setCell sampleSolved 0 0 None)
           (setCell sampleSolved 0 0 None));
    [reflexivity|reflexivity|reflexivity|lia|lia|reflexivity| | |left; reflexivity
    |reflexivity].
  - apply wf_setCell, wf_sampleSolved.
  - apply (hex_board_carved _ sampleSolved).
    + apply carvedFrom_clear, carvedFrom_refl, wf_sampleSolved.
    + apply solvedGrid_hex, solvedGrid_sampleSolved.
Defined.

Lemma win_dialog_misses_last_move_witness :
  exists st,
    App.inputValue "0" lastMove = Some st /\
    App.gameState st = App.won /\
    App.winScore st = App.totalScore lastMove + 1000 /\
    App.totalScore st
    = App.winScore st + 100 * Nat.max 1 (App.comboMultiplier lastMove) /\
    App.winScore st < App.totalScore st.
Proof.
  apply (win_dialog_misses_last_move lastMove "0" 0 0 (setCell sampleSolved 0 0 None)
           (setCell sampleSolved 0 0 None));
    [reflexivity|reflexivity|reflexivity|lia|lia|reflexivity|vm_compute; reflexivity].
Defined.

Lemma step_combo (e : App.Event) (st st' : App.Game) :
  comboInv st -> App.step st e = Some st' -> comboInv st'.
Proof.
  unfold comboInv, App.COMBO_DURATION. intros (Hrange & Hzero & Hscore).
  destruct e as [row col|value| |]; cbn [App.step].
  - unfold App.selectCell. intros [= <-].
    destruct (App.initialBoard st) as [initial|];
      [destruct (negb (isNull (cell initial row col)))|]; app_simpl; auto.
  - unfold App.inputValue.
    destruct (App.selectedCell st) as [[row col]|]; [|intros [= <-]; auto].
    destruct (App.board st) as [current|]; [|intros [= <-]; auto].
    destruct (App.initialBoard st) as [initial|]; [|discriminate].
    destruct (negb (isNull (cell initial row col))); [intros [= <-]; auto|]. cbv zeta.
    unfold App.handleSuccessfulMove, App.COMBO_DURATION, App.BASE_SCORE.
    destruct (isSolved _); destruct (length _ =? 0);
      destruct (0 <? App.comboTimer st)%Z eqn:Htimer; intros [= <-]; app_simpl;
      repeat split; lia.
  - unfold App.clearCell.
    destruct (App.selectedCell st) as [[row col]|]; [|intros [= <-]; auto].
    destruct (App.board st) as [current|]; [|intros [= <-]; auto].
    destruct (App.initialBoard st) as [initial|]; [|discriminate].
    destruct (negb (isNull (cell initial row col))); intros [= <-]; app_simpl; auto.
  - unfold App.tick. intros [= <-].
    destruct (App.gameState st); auto.
    destruct (0 <? App.comboTimer st)%Z eqn:Htimer; auto. cbv zeta.
    apply Z.ltb_lt in Htimer.
    destruct (App.comboTimer st - 100 <=? 0)%Z eqn:Hend; app_simpl.
    + repeat split; lia.
    + apply Z.leb_gt in Hend. repeat split; lia.
Qed.

Lemma run_combo (events : list App.Event) (st st' : App.Game) :
  comboInv st -> App.run events st = Some st' -> comboInv st'.
Proof.
  revert st. induction events as [|e events IH]; intros st Hinv; cbn [App.run].
  { intros [= <-]. exact Hinv. }
  destruct (App.step st e) as [st1|] eqn:Hstep; [|discriminate].
  cbn [mbind option_bind]. apply IH. exact (step_combo e st st1 Hinv Hstep).
Qed.

(** X28. Throughout a game the combo state stays coherent: the timer is
    between 0 and 30 seconds, the multiplier is 0 exactly when the timer
    is 0 (a combo is running exactly while its timer is), and the score of
    the current combo never exceeds the total score. *)
Theorem combo_state_is_coherent (generated : GeneratedPuzzle) (render : App.Game)
    (events : list App.Event) :
  exists st,
    App.run events (App.startNewGame generated render) = Some st /\
    (0 <= App.comboTimer st <= 30000)%Z /\
    (App.comboTimer st = 0%Z <-> App.comboMultiplier st = 0) /\
    App.comboScore st <= App.totalScore st.
Proof.
  destruct (run_protects_givens events (App.startNewGame generated render)
              (puzzle generated) (puzzle generated) eq_refl eq_refl (fun r c _ => eq_refl))
    as (st & _ & Hrun & _).
  exists st. split; [exact Hrun|].
  apply (run_combo events (App.startNewGame generated render) st); [|exact Hrun].
  unfold comboInv, App.COMBO_DURATION. cbn. repeat split; lia.
Qed.

(** ** Generated puzzles and the solvers *)

Lemma validPartial_carved puzzle solution :
  solvedGrid solution -> carvedFrom puzzle solution -> validPartial puzzle.
Proof.
  intros Hsolved Hcarved. split_all.
  - apply Hcarved.
  - apply (hex_board_carved puzzle solution Hcarved), solvedGrid_hex, Hsolved.
  - intros r c v Hr Hc Hv Hclash.
    apply (carved_clashes puzzle solution) in Hclash; [|exact Hcarved].
    apply (solvedGrid_consistent solution Hsolved r c v Hr Hc); [|exact Hclash].
    destruct Hcarved as [_ Hsub]. destruct (Hsub r c) as [Hnone|Heq]; congruence.
Qed.

Lemma completion_carved puzzle solution :
  solvedGrid solution -> carvedFrom puzzle solution -> completion puzzle solution.
Proof.
  intros Hsolved [_ Hsub]. unfold completion. split_all.
  - apply solvedGrid_validPartial, Hsolved.
  - apply solvedGrid_full, Hsolved.
  - intros r c v Hv. destruct (Hsub r c) as [Hnone|Heq]; congruence.
Qed.

(** X29. Every puzzle carved from a solved grid, hence every puzzle
    [generatePuzzle] returns, is solved by [solvePuzzle]: it returns a
    completion of the puzzle, never [null], and that completion is the
    generator's solution whenever the puzzle has only one. *)
Theorem solvePuzzle_solves_carved_puzzles (puzzle solution : Board) :
  solvedGrid solution -> carvedFrom puzzle solution ->
  exists grid,
    solvePuzzle puzzle = Some (Some grid) /\
    completion puzzle grid /\
    (uniquelySolvable puzzle -> grid = solution).
Proof.
  intros Hsolved Hcarved.
  pose proof (completion_carved puzzle solution Hsolved Hcarved) as Hsolution.
  destruct (solvePuzzle_decides puzzle (validPartial_carved puzzle solution Hsolved Hcarved))
    as ([grid|] & Heq & Hgrid).
  - exists grid. split_all; [exact Heq|exact Hgrid|].
    intros (unique & _ & Huniq). rewrite (Huniq grid Hgrid), (Huniq solution Hsolution).
    reflexivity.
  - destruct (Hgrid solution Hsolution).
Qed.

Lemma solvePuzzle_solves_carved_puzzles_witness :
  exists grid,
    solvePuzzle stuckPuzzle = Some (Some grid) /\
    completion stuckPuzzle grid /\
    (uniquelySolvable stuckPuzzle -> grid = sampleSolved).
Proof.
  exact (solvePuzzle_solves_carved_puzzles stuckPuzzle sampleSolved
           solvedGrid_sampleSolved carvedFrom_stuckPuzzle).
Defined.

Lemma unit_has board (unit : list Coord) v :
  unitValues board unit ≡ₚ map Some HEX_VALUES -> In v HEX_VALUES ->
  exists p, In p unit /\ cell board p.1 p.2 = Some v.
Proof.
  intros Hperm Hv.
  assert (Hin : In (Some v) (unitValues board unit)).
  { apply list_elem_of_In. rewrite Hperm. apply list_elem_of_In, in_map, Hv. }
  unfold unitValues in Hin. apply in_map_iff in Hin as (p & Hcell & Hp). eauto.
Qed.

(** A cell whose unit is known everywhere else is forced. *)
Lemma forced_cell grid solution (unit : list Coord) (p : Coord) :
  unitValues grid unit ≡ₚ map Some HEX_VALUES ->
  unitValues solution unit ≡ₚ map Some HEX_VALUES ->
  hex_board solution -> In p unit ->
  (forall q, In q unit -> q <> p -> cell grid q.1 q.2 = cell solution q.1 q.2) ->
  cell grid p.1 p.2 = cell solution p.1 p.2.
Proof.
  intros Hgrid Hsolution Hhex Hp Hothers.
  assert (Hsome : exists s, cell solution p.1 p.2 = Some s).
  { assert (Hin : In (cell solution p.1 p.2) (map Some HEX_VALUES)).
    { apply list_elem_of_In. rewrite <- Hsolution. apply list_elem_of_In.
      unfold unitValues. apply (in_map (fun q : Coord => cell solution q.1 q.2)), Hp. }
    apply in_map_iff in Hin as (s & Hs & _). eauto. }
  destruct Hsome as [s Hs].
  destruct (unit_has grid unit s Hgrid (Hhex _ _ _ Hs)) as (q & Hq & Hqs).
  destruct (decide (q = p)) as [->|Hne]; [congruence|].
  exfalso. apply Hne.
  apply (solvedGrid_unit_injective solution unit q p Hsolution Hq Hp).
  rewrite <- (Hothers q Hq Hne). congruence.
Qed.

Lemma two_empties_unique solution r1 c1 r2 c2 :
  solvedGrid solution -> r1 < 16 -> c1 < 16 -> r2 < 16 -> c2 < 16 ->
  (r1, c1) <> (r2, c2) ->
  uniquelySolvable (setCell (setCell solution r1 c1 None) r2 c2 None).
Proof.
  intros Hsolved Hr1 Hc1 Hr2 Hc2 Hne.
  set (puzzle := setCell (setCell solution r1 c1 None) r2 c2 None).
  assert (Hcarved : carvedFrom puzzle solution)
    by (apply carvedFrom_clear, carvedFrom_clear, carvedFrom_refl, Hsolved).
  exists solution. split; [apply completion_carved; assumption|].
  intros grid (Hvalid & Hfull & Hext).
  pose proof (solvedGrid_complete grid Hvalid Hfull) as Hgrid.
  assert (Hkept : forall r c, (r, c) <> (r1, c1) -> (r, c) <> (r2, c2) -> r < 16 -> c < 16 ->
            cell grid r c = cell solution r c).
  { intros r c H1 H2 Hr Hc.
    destruct Hsolved as (_ & Hcells & _). destruct (Hcells r c Hr Hc) as (s & Hs & _).
    rewrite Hs. apply Hext. unfold puzzle.
    rewrite cell_setCell_ne by exact H2. rewrite cell_setCell_ne by exact H1. exact Hs. }
  assert (Hforced : forall ra ca rb cb, ra < 16 -> ca < 16 -> (ra, ca) <> (rb, cb) ->
            (forall r c, (r, c) <> (ra, ca) -> (r, c) <> (rb, cb) -> r < 16 -> c < 16 ->
                         cell grid r c = cell solution r c) ->
            cell grid ra ca = cell solution ra ca).
  { intros ra ca rb cb Hra Hca Hab Hrest.
    pose proof Hgrid as (_ & _ & Hgrows & Hgcols & _).
    pose proof Hsolved as (_ & _ & Hsrows & Hscols & _).
    destruct (decide (ra = rb)) as [Hrow|Hrow].
    - apply (forced_cell grid solution (colCoords ca) (ra, ca)); auto.
      + apply solvedGrid_hex, Hsolved.
      + apply in_colCoords. cbn [fst snd]. auto.
      + intros [r c] Hq Hqne. apply in_colCoords in Hq as [Hqc Hqr]. cbn [fst snd] in *.
        subst c. apply Hrest; [exact Hqne| |exact Hqr|exact Hca].
        intros [= -> ->]. apply Hab. subst. reflexivity.
    - apply (forced_cell grid solution (rowCoords ra) (ra, ca)); auto.
      + apply solvedGrid_hex, Hsolved.
      + apply in_rowCoords. cbn [fst snd]. auto.
      + intros [r c] Hq Hqne. apply in_rowCoords in Hq as [Hqr Hqc]. cbn [fst snd] in *.
        subst r. apply Hrest; [exact Hqne| |exact Hra|exact Hqc].
        intros [= Heq _]. exact (Hrow Heq). }
  pose proof Hvalid as (Hwf & _). pose proof Hsolved as (Hwf' & _).
  rewrite <- (board_table grid Hwf), <- (board_table solution Hwf').
  apply map_ext_in. intros row Hrow. apply map_ext_in. intros col Hcol.
  apply in_seq in Hrow, Hcol.
  destruct (decide ((row, col) = (r1, c1))) as [[= -> ->]|H1].
  { apply (Hforced r1 c1 r2 c2 Hr1 Hc1 Hne). exact Hkept. }
  destruct (decide ((row, col) = (r2, c2))) as [[= -> ->]|H2].
  { apply (Hforced r2 c2 r1 c1 Hr2 Hc2 (fun H => Hne (eq_sym H))).
    intros r c Ha Hb. apply Hkept; assumption. }
  apply Hkept; [assumption..|lia|lia].
Qed.

(** X30. The puzzle of difficulty "test" always has exactly one
    completion, its solution, although [generatePuzzle] does not check it:
    with only two cells cleared, each has a row or a column in which it is
    the only empty cell.  [hasUniqueSolution] accepts it. *)
Theorem generatePuzzle_test_is_unique (random : nat -> Q)
    (shuffleSort : nat -> list string -> list string * nat) (k : nat) :
  (forall k l, (shuffleSort k l).1 ≡ₚ l) ->
  exists result k',
    generatePuzzle random shuffleSort "test" k = Some (result, k') /\
    uniquelySolvable (puzzle result) /\
    completion (puzzle result) (solution result) /\
    hasUniqueSolution (puzzle result) = Some true.
Proof.
  intros Hperm.
  destruct (generatePuzzle_test_shape random shuffleSort k Hperm)
    as (sol & k1 & k2 & r1 & c1 & r2 & c2 & _ & Hvalid & Hfull & [Hr1 Hc1] & [Hr2 Hc2]
        & Hne & Heq).
  cbn [fst snd] in *.
  pose proof (solvedGrid_complete sol Hvalid Hfull) as Hsolved.
  assert (Hcarved : carvedFrom (setCell (setCell sol r1 c1 None) r2 c2 None) sol)
    by (apply carvedFrom_clear, carvedFrom_clear, carvedFrom_refl, Hvalid).
  pose proof (two_empties_unique sol r1 c1 r2 c2 Hsolved Hr1 Hc1 Hr2 Hc2 Hne) as Hunique.
  do 2 eexists. split; [exact Heq|]. cbn [puzzle solution].
  split_all; [exact Hunique|apply completion_carved; assumption|].
  destruct (hasUniqueSolution_decides (setCell (setCell sol r1 c1 None) r2 c2 None))
    as (unique & -> & Hiff).
  - apply (validPartial_carved _ sol); assumption.
  - exists r2, c2. split_all; [exact Hr2|exact Hc2|].
    apply cell_setCell_eq; [apply wf_setCell, Hvalid|assumption..].
  - f_equal. apply Hiff, Hunique.
Qed.

Lemma generatePuzzle_test_is_unique_witness :
  exists result k',
    generatePuzzle unluckyRandom guidedSort "test" 0 = Some (result, k') /\
    uniquelySolvable (puzzle result) /\
    completion (puzzle result) (solution result) /\
    hasUniqueSolution (puzzle result) = Some true.
Proof.
  apply (generatePuzzle_test_is_unique unluckyRandom guidedSort 0).
  intros k l. apply guidedSort_Permutation.
Defined.
